(** * Metropolis sampler and Gelman-Rubin-Brooks diagnostic (src/Metropolis.py)

    A shallow embedding of [sampler], [MChain], [ParaMC] and [GRBfactor].

    Numbers are real numbers (Python floats are read as the reals they
    approximate; rounding, infinities and NaN are outside the model).
    A one-dimensional numpy array is a [list R], a two-dimensional one a
    list of rows.  Element-wise numpy operations are modelled on operands of
    equal length, which is where numpy does not raise a broadcasting error.

    The global numpy random generator is a pair of tapes with a cursor each:
    [np.random.randn] reads the Gaussian tape, [np.random.rand] the uniform
    one.  Python exceptions are results of an error monad that also threads
    the generator and a counter of posterior-score evaluations. *)

From Stdlib Require Import Reals List Lra Lia Arith Permutation.
From Stdlib Require Import FunctionalExtensionality.
Import ListNotations.

Open Scope R_scope.

Set Implicit Arguments.

(** ** Arrays *)

Abbreviation vec := (list R).
Abbreviation mat := (list (list R)).

Module Np.

Fixpoint zipWith {A B C : Type} (f : A -> B -> C) (u : list A) (v : list B)
  : list C :=
  match u, v with
  | a :: u', b :: v' => f a b :: zipWith f u' v'
  | _, _ => []
  end.

(** [np.zeros(n)] and [np.zeros([n,m])]. *)
Definition zeros (n : nat) : vec := repeat 0 n.
Definition zeros2 (n m : nat) : mat := repeat (zeros m) n.

(** [u + v], [u - v], [c * v] on one-dimensional arrays. *)
Definition vadd (u v : vec) : vec := zipWith Rplus u v.
Definition vsub (u v : vec) : vec := zipWith Rminus u v.
Definition vmul (u v : vec) : vec := zipWith Rmult u v.
Definition vscale (c : R) (v : vec) : vec := map (Rmult c) v.

(** [A + B] and [c * A] on two-dimensional arrays. *)
Definition madd (A B : mat) : mat := zipWith vadd A B.
Definition mscale (c : R) (A : mat) : mat := map (vscale c) A.

(** [np.sum(v)]. *)
Definition sum (v : vec) : R := fold_right Rplus 0 v.

(** [np.dot(u, v)] for two one-dimensional arrays. *)
Definition dot (u v : vec) : R := sum (vmul u v).

(** [np.dot(z, L)] for a one-dimensional [z] and a two-dimensional [L]
    with [D] columns: entry [j] is the sum over [k] of [z[k] * L[k][j]],
    that is the combination of the rows of [L] with the weights [z]. *)
Definition vec_mat (D : nat) (z : vec) (L : mat) : vec :=
  fold_right vadd (zeros D) (zipWith vscale z L).

(** [np.dot(A, v)] for a two-dimensional [A] and a one-dimensional [v]. *)
Definition mat_vec (A : mat) (v : vec) : vec := map (fun row => dot row v) A.

(** [np.dot(A, B)] for two two-dimensional arrays, [B] with [D] columns. *)
Definition mat_mat (D : nat) (A B : mat) : mat :=
  map (fun row => vec_mat D row B) A.

(** [np.clip(x, lo, hi)] is [np.minimum(hi, np.maximum(x, lo))]. *)
Fixpoint clip (x lo hi : vec) : vec :=
  match x, lo, hi with
  | a :: x', l :: lo', h :: hi' => Rmin h (Rmax a l) :: clip x' lo' hi'
  | _, _, _ => []
  end.

(** [np.eye(D)]. *)
Definition eye_row (D i : nat) : vec :=
  map (fun j => if Nat.eqb i j then 1 else 0) (seq 0 D).
Definition eye (D : nat) : mat := map (eye_row D) (seq 0 D).

(** [a[i] = x] on a list, for [i] inside the array. *)
Fixpoint set_nth {A : Type} (i : nat) (x : A) (l : list A) : list A :=
  match l, i with
  | [], _ => []
  | _ :: l', O => x :: l'
  | a :: l', S i' => a :: set_nth i' x l'
  end.

(** [a[lo:hi] = rows], for [lo <= hi <= len(a)] and [len(rows) = hi-lo]. *)
Definition set_slice {A : Type} (lo hi : nat) (rows l : list A) : list A :=
  firstn lo l ++ rows ++ skipn hi l.

(** The outer product of two one-dimensional arrays. *)
Definition outer (u v : vec) : mat := map (fun a => vscale a v) u.

(** [np.mean(A, axis = 0)] of an array of [n] rows and [D] columns. *)
Definition mean0 (D : nat) (A : mat) : vec :=
  vscale (/ INR (length A)) (fold_right vadd (zeros D) A).

(** [np.cov(A.T)] for an array [A] of [n] observations (rows) of [D]
    variables: the rows are centred on their mean and the products of
    the centred rows are summed and divided by [n - 1]. *)
Definition cov (D : nat) (A : mat) : mat :=
  let avg := mean0 D A in
  let X := map (fun x => vsub x avg) A in
  mscale (/ (INR (length A) - 1))
         (fold_right madd (zeros2 D D) (map (fun c => outer c c) X)).

End Np.

(** ** Exceptions, the random generator and the monad *)

Inductive exn : Type :=
| LinAlgError
| ZeroDivisionError
| IndexError
| ValueError.

Inductive result (A : Type) : Type :=
| Ok (a : A)
| Raise (e : exn).

Arguments Ok {A} a.
Arguments Raise {A} e.

Record RandomState : Type := mkRandomState {
  gauss : nat -> R;   (* the standard-normal draws, in order *)
  unif : nat -> R;    (* the uniform draws, in order *)
  gpos : nat;         (* how many normal draws were consumed *)
  upos : nat          (* how many uniform draws were consumed *)
}.

(** Every uniform draw lies in the half-open interval [0,1). *)
Definition uniform_tape (g : RandomState) : Prop :=
  forall k, 0 <= unif g k < 1.

Record World : Type := mkWorld {
  rng : RandomState;
  nscore : nat        (* posterior scores computed so far *)
}.

Definition Py (A : Type) : Type := World -> result A * World.

Definition ret {A : Type} (a : A) : Py A := fun w => (Ok a, w).

Definition raise {A : Type} (e : exn) : Py A := fun w => (Raise e, w).

Definition bind {A B : Type} (c : Py A) (k : A -> Py B) : Py B :=
  fun w => match c w with
           | (Ok a, w') => k a w'
           | (Raise e, w') => (Raise e, w')
           end.

Notation "x <- c ;; k" := (bind c (fun x => k))
  (at level 61, c at next level, right associativity).
Notation "' pat <- c ;; k" := (bind c (fun x => match x with pat => k end))
  (at level 61, pat pattern, c at next level, right associativity).

Definition lift {A : Type} (r : result A) : Py A := fun w => (r, w).

(** [for i in idx: s = body(i, s)]. *)
Fixpoint for_each {S : Type} (idx : list nat) (body : nat -> S -> Py S) (s : S)
  : Py S :=
  match idx with
  | [] => ret s
  | i :: rest => s' <- body i s ;; for_each rest body s'
  end.

(** [for i in range(n)]. *)
Definition for_range {S : Type} (n : nat) (body : nat -> S -> Py S) (s : S)
  : Py S := for_each (seq 0 n) body s.

(** [np.random.randn(D)]. *)
Definition randn (D : nat) : Py vec := fun w =>
  let g := rng w in
  (Ok (map (fun k => gauss g (gpos g + k)%nat) (seq 0 D)),
   mkWorld (mkRandomState (gauss g) (unif g) (gpos g + D) (upos g)) (nscore w)).

(** [np.random.rand()]. *)
Definition rand : Py R := fun w =>
  let g := rng w in
  (Ok (unif g (upos g)),
   mkWorld (mkRandomState (gauss g) (unif g) (gpos g) (S (upos g))) (nscore w)).

(** [np.random.rand(D)]. *)
Definition rand_vec (D : nat) : Py vec := fun w =>
  let g := rng w in
  (Ok (map (fun k => unif g (upos g + k)%nat) (seq 0 D)),
   mkWorld (mkRandomState (gauss g) (unif g) (gpos g) (upos g + D)) (nscore w)).

(** One call of the posterior-score closure. *)
Definition call (f : vec -> R) (x : vec) : Py R := fun w =>
  (Ok (f x), mkWorld (rng w) (S (nscore w))).

(** [a[i]], which raises [IndexError] outside the array. *)
Definition index {A : Type} (l : list A) (i : nat) : Py A :=
  match nth_error l i with
  | Some a => ret a
  | None => raise IndexError
  end.

(** [a[-1]]. *)
Definition index_last {A : Type} (l : list A) : Py A :=
  match l with
  | [] => raise IndexError
  | _ => index l (length l - 1)
  end.

(** ** np.linalg.cholesky

    The lower-triangular factor, row by row.  Row [i] has the entries
    [L[i][j] = (A[i][j] - sum_{k<j} L[i][k] L[j][k]) / L[j][j]] for [j < i]
    and [L[i][i] = sqrt (A[i][i] - sum_{k<i} L[i][k]^2)]; the factorisation
    fails with [LinAlgError] when a pivot is not positive.  Only the lower
    triangle of [A] is read. *)

Fixpoint chol_offdiag (a : vec) (prev : mat) (j : nat) (acc : vec) : vec :=
  match prev with
  | [] => acc
  | Lj :: rest =>
      chol_offdiag a rest (S j)
        (acc ++ [(nth j a 0 - Np.dot acc Lj) / nth j Lj 0])
  end.

Definition chol_row (D : nat) (a : vec) (prev : mat) : option vec :=
  let i := length prev in
  let off := chol_offdiag a prev 0 [] in
  let d := nth i a 0 - Np.dot off off in
  if Rlt_dec 0 d
  then Some (off ++ sqrt d :: Np.zeros (D - S i))
  else None.

Fixpoint chol_rows (D : nat) (A : mat) (prev : mat) : option mat :=
  match A with
  | [] => Some prev
  | a :: rest =>
      match chol_row D a prev with
      | Some r => chol_rows D rest (prev ++ [r])
      | None => None
      end
  end.

Definition cholesky (A : mat) : result mat :=
  match chol_rows (length A) A [] with
  | Some L => Ok L
  | None => Raise LinAlgError
  end.

(** ** MChain *)

Section Chain.

Variable floglike : vec -> R.
Variable flogprior : option (vec -> R).
Variable beta : R.
Variable N D : nat.
Variables xlb xub : vec.

(** The closure [flogpost] of lines 86-90.  [np.log] is the logarithm of
    a positive number; where some [xub[i] <= xlb[i]] numpy returns [-inf] or
    [nan] and so does the score, which real numbers do not express: the
    properties that depend on the value of the score assume [finite_scores]
    below. *)
Definition flogpost : vec -> R :=
  match flogprior with
  | None =>
      fun X => floglike X * beta - 2 * Np.sum (map ln (Np.vsub xub xlb))
  | Some prior =>
      fun X => floglike X * beta + prior X
  end.

(** The variables the loop of lines 98-116 updates. *)
Record chain_state : Type := mkChainState {
  cur_X : vec;
  cur_pX : R;
  cur_Accept : R;
  cur_Chain : mat;
  cur_LogPost : vec
}.

(** The candidate of lines 100-101, from the draws [z]. *)
Definition propose (cholcmat : mat) (X z : vec) : vec :=
  let Xt := Np.vadd (Np.vec_mat D z cholcmat) X in
  Np.clip Xt xlb xub.

(** The acceptance ratio of lines 105-108. *)
Definition ratio (pX pXt : R) : R :=
  if Rgt_dec pX pXt then 1 else exp (0.5 * (pX - pXt)).

(** One iteration of the loop. *)
Definition MChain_step (cholcmat : mat) (i : nat) (st : chain_state)
  : Py chain_state :=
  z <- randn D ;;
  let Xt := propose cholcmat (cur_X st) z in
  pXt <- call flogpost Xt ;;
  let r := ratio (cur_pX st) pXt in
  u <- rand ;;
  let '(X, pX, Accept) :=
    if Rle_dec u r
    then (Xt, pXt, cur_Accept st + 1)
    else (cur_X st, cur_pX st, cur_Accept st) in
  ret (mkChainState X pX Accept
         (Np.set_nth i X (cur_Chain st))
         (Np.set_nth i pX (cur_LogPost st))).

(** [Accept /= N]: a float divided by the integer zero raises. *)
Definition div_int (a : R) (n : nat) : Py R :=
  match n with
  | O => raise ZeroDivisionError
  | _ => ret (a / INR n)
  end.

Definition MChain (X : vec) (sigma : mat) : Py (mat * R * vec) :=
  cholcmat <- lift (cholesky sigma) ;;
  let Accept := 0 in
  let Chain := Np.zeros2 N D in
  let LogPost := Np.zeros N in
  pX <- call flogpost X ;;
  st <- for_range N (MChain_step cholcmat)
          (mkChainState X pX Accept Chain LogPost) ;;
  Accept <- div_int (cur_Accept st) N ;;
  ret (cur_Chain st, Accept, cur_LogPost st).

End Chain.

(** ** GRBfactor *)

(** A three-dimensional array: its shape and its list of planes. *)
Record ndarray3 : Type := mkArr3 {
  shape3 : nat * nat * nat;
  data3 : list mat
}.

(** [np.max] of a one-dimensional array; it raises on an empty one. *)
Definition np_max (l : list R) : result R :=
  match l with
  | [] => Raise ValueError
  | x :: rest => Ok (fold_left Rmax rest x)
  end.

Section Diagnostic.

(** [np.linalg.inv]: the inverse, or [None] where numpy raises
    [LinAlgError] on a singular matrix. *)
Variable inv : mat -> option mat.

(** [np.linalg.eig(A)[0]]: the eigenvalues of [A]. *)
Variable eig : mat -> list R.

(** The loop of lines 146-148 over the chains. *)
Definition GRB_loop (nchain ndim : nat) (data : list mat) : mat * mat :=
  fold_left
    (fun '(Mn, V) i =>
       let c := nth i data [] in
       (Np.set_nth i (Np.mean0 ndim c) Mn, Np.madd V (Np.cov ndim c)))
    (seq 0 nchain)
    (Np.zeros2 nchain ndim, Np.zeros2 ndim ndim).

(** With fewer than two samples per chain or fewer than two chains a
    covariance of line 148 or 150 divides by zero and holds NaN, on which
    [np.linalg.eig] raises [LinAlgError]. *)
Definition GRBfactor (Chain : ndarray3) : result R :=
  let '(nchain, nmax, ndim) := shape3 Chain in
  let '(Mn, V) := GRB_loop nchain ndim (data3 Chain) in
  let V1 := Np.mscale (/ INR nchain) V in
  let V2 := Np.cov ndim Mn in
  if ((nchain <? 2)%nat || (nmax <? 2)%nat)%bool then Raise LinAlgError
  else
    match inv V1 with
    | None => Raise LinAlgError
    | Some V1i =>
        match np_max (eig (Np.mat_mat ndim V1i V2)) with
        | Raise e => Raise e
        | Ok L =>
            Ok (sqrt ((INR nmax - 1) / INR nmax
                      + (INR nchain + 1) / INR nchain * L))
        end
    end.

End Diagnostic.

(** ** ParaMC and sampler *)

(** The dictionary [xpara] that [ParaMC] receives. *)
Record para : Type := mkPara {
  p_floglike : vec -> R;
  p_flogprior : option (vec -> R);
  p_beta : R;
  p_N : nat;
  p_D : nat;
  p_xlb : vec;
  p_xub : vec;
  p_X : vec;
  p_sigma : mat
}.

(** The dictionary [res] that [ParaMC] returns. *)
Record chain_res : Type := mkRes {
  r_Chain : mat;
  r_Accept : R;
  r_LogPost : vec
}.

Definition ParaMC (xpara : para) : Py chain_res :=
  '(Chain, Accept, LogPost) <-
     MChain (p_floglike xpara) (p_flogprior xpara) (p_beta xpara)
            (p_N xpara) (p_D xpara) (p_xlb xpara) (p_xub xpara)
            (p_X xpara) (p_sigma xpara) ;;
  ret (mkRes Chain Accept LogPost).

(** [Pool.map(f, xs)]: every task is dispatched and runs, task [j] in a
    worker process whose generator is [worker j], whatever the pool made it;
    the generator of the calling process is not advanced and the results come
    back in the order of [xs].  When tasks raise, the batch still runs to its
    end and the caller raises the exception of the first of them in the order
    of [xs] (in [sampler] the tasks of a batch that raise all raise the same
    exception).  Every task is a chunk of its own, as [Pool.map] makes them
    for at most four tasks per worker process; in a longer chunk the tasks
    behind a raising one are skipped. *)
Fixpoint pool_tasks {A B : Type} (worker : nat -> RandomState)
    (f : A -> Py B) (j : nat) (xs : list A) : Py (list B) :=
  match xs with
  | [] => ret []
  | x :: rest => fun w =>
      let '(r, w1) := f x (mkWorld (worker j) (nscore w)) in
      let '(rs, w2) :=
        pool_tasks worker f (S j) rest (mkWorld (rng w) (nscore w1)) in
      (match r, rs with
       | Ok b, Ok bs => Ok (b :: bs)
       | Raise e, _ => Raise e
       | Ok _, Raise e => Raise e
       end, w2)
  end.

Definition pool_map {A B : Type} (worker : nat -> RandomState)
    (f : A -> Py B) (xs : list A) : Py (list B) :=
  pool_tasks worker f 0 xs.

(** [for x in xs: out.append(f(x))] where [f] may raise. *)
Fixpoint map_py {A B : Type} (f : A -> Py B) (xs : list A) : Py (list B) :=
  match xs with
  | [] => ret []
  | x :: rest => b <- f x ;; bs <- map_py f rest ;; ret (b :: bs)
  end.

(** The arrays that [sampler] allocates at lines 24-28 and fills. *)
Record sampler_state : Type := mkSamplerState {
  s_Chain : list mat;
  s_LogPost : mat;
  s_ChainMerged : mat;
  s_LogPostMerged : vec;
  s_ACC : vec
}.

Section Sampler.

Variable inv : mat -> option mat.
Variable eig : mat -> list R.

(** The generators of the workers of the two [p.map] batches. *)
Variable worker : nat -> nat -> RandomState.

Variable floglike : vec -> R.
Variable D : nat.
Variables xlb xub : vec.
Variable Xinit : option mat.
Variable flogprior : option (vec -> R).
Variable T : R.
Variables B N M : nat.
Variable sigma : option mat.
Variable parallel : bool.

(** Lines 33-35. *)
Definition default_sigma : Py mat :=
  for_range D
    (fun i sigma =>
       ub <- index xub i ;;
       lb <- index xlb i ;;
       let row := nth i sigma [] in
       ret (Np.set_nth i
              (Np.set_nth i (nth i row 0 * ((ub - lb) * 0.1)) row) sigma))
    (Np.eye D).

(** Lines 39-41. *)
Definition default_X : Py mat :=
  for_range M
    (fun i X =>
       r <- rand_vec D ;;
       ret (Np.set_nth i (Np.vadd (Np.vmul r (Np.vsub xub xlb)) xlb) X))
    (Np.zeros2 M D).

(** The writes of lines 51-55 and 71-75. *)
Definition store (i : nat) (iChain : mat) (iAccept : R) (iLogPost : vec)
    (st : sampler_state) : sampler_state :=
  mkSamplerState
    (Np.set_nth i iChain (s_Chain st))
    (Np.set_nth i iLogPost (s_LogPost st))
    (Np.set_slice (i * N) ((i + 1) * N) iChain (s_ChainMerged st))
    (Np.set_slice (i * N) ((i + 1) * N) iLogPost (s_LogPostMerged st))
    (Np.set_nth i iAccept (s_ACC st)).

(** The body of the loop of lines 46-55. *)
Definition sequential_body (beta : R) (X sigma : mat) (i : nat)
    (st : sampler_state) : Py sampler_state :=
  x0 <- index X i ;;
  '(bChain, bAccept, bLogPost) <-
     MChain floglike flogprior beta B D xlb xub x0 sigma ;;
  xb <- index_last bChain ;;
  '(iChain, iAccept, iLogPost) <-
     MChain floglike flogprior beta N D xlb xub xb sigma ;;
  ret (store i iChain iAccept iLogPost st).

(** Lines 57-75. *)
Definition parallel_branch (beta : R) (X sigma : mat) (st : sampler_state)
  : Py sampler_state :=
  bpara <- map_py
             (fun i => x0 <- index X i ;;
                       ret (mkPara floglike flogprior beta B D xlb xub
                                   x0 sigma))
             (seq 0 M) ;;
  bres <- pool_map (worker 0) ParaMC bpara ;;
  ipara <- map_py
             (fun i => r <- index bres i ;;
                       xb <- index_last (r_Chain r) ;;
                       ret (mkPara floglike flogprior beta N D xlb xub
                                   xb sigma))
             (seq 0 M) ;;
  ires <- pool_map (worker 1) ParaMC ipara ;;
  for_range M
    (fun i st =>
       r <- index ires i ;;
       ret (store i (r_Chain r) (r_Accept r) (r_LogPost r) st))
    st.

(** The arrays of the sampler after the chains ran, before line 77. *)
Definition sampler_chains : Py sampler_state :=
  let st := mkSamplerState (repeat (Np.zeros2 N D) M) (Np.zeros2 M N)
                           (Np.zeros2 (M * N) D) (Np.zeros (M * N))
                           (Np.zeros M) in
  beta <- (if Req_dec_T T 0 then raise ZeroDivisionError else ret (1 / T)) ;;
  sigma <- match sigma with
           | None => default_sigma
           | Some s => ret s
           end ;;
  X <- match Xinit with
       | None => default_X
       | Some X0 => ret X0
       end ;;
  if parallel
  then parallel_branch beta X sigma st
  else for_range M (sequential_body beta X sigma) st.

Definition sampler : Py (mat * vec * vec * R) :=
  st <- sampler_chains ;;
  GRB <- lift (GRBfactor inv eig (mkArr3 (M, N, D) (s_Chain st))) ;;
  ret (s_ChainMerged st, s_LogPostMerged st, s_ACC st, GRB).

End Sampler.


(** ** Vocabulary of the properties *)

(** [x] has [D] components, each between its bounds. *)
Definition within (D : nat) (lo hi x : vec) : Prop :=
  length x = D /\
  forall i, (i < D)%nat -> nth i lo 0 <= nth i x 0 <= nth i hi 0.

(** What the next [np.random.randn(D)] and [np.random.rand()] return. *)
Definition next_normals (D : nat) (w : World) : vec :=
  map (fun k => gauss (rng w) (gpos (rng w) + k)%nat) (seq 0 D).

Definition next_uniform (w : World) : R := unif (rng w) (upos (rng w)).

(** The generator and the counter after one iteration of the chain loop. *)
Definition after_step (D : nat) (w : World) : World :=
  mkWorld (mkRandomState (gauss (rng w)) (unif (rng w))
                         (gpos (rng w) + D) (S (upos (rng w))))
          (S (nscore w)).

(** ** Inputs of the examples *)

(** A generator whose normal draws all equal [z] and whose uniform draws
    all equal [u], with no score computed yet. *)
Definition constant_tape (z u : R) : RandomState :=
  mkRandomState (fun _ => z) (fun _ => u) 0 0.

Definition fresh (z u : R) : World := mkWorld (constant_tape z u) 0.

(** A likelihood score that decreases along the first coordinate. *)
Definition downhill (x : vec) : R := - nth 0 x 0.

(** A generator whose first normal draw is 1 and whose other normal draws
    and uniform draws are 0. *)
Definition impulse : World :=
  mkWorld (mkRandomState (fun k => if Nat.eqb k 0 then 1 else 0)
                         (fun _ => 0) 0 0) 0.

(** ** The specification's formulas *)

(** The candidate in the specification's words: the current point plus the
    Cholesky factor applied to the draws, clipped into the box. *)
Definition spec_propose (xlb xub : vec) (L : mat) (X z : vec) : vec :=
  Np.clip (Np.vadd X (Np.mat_vec L z)) xlb xub.


(** Rows [i*N, (i+1)*N) of a merged array. *)
Definition block {A : Type} (N i : nat) (l : list A) : list A :=
  firstn N (skipn (i * N) l).

(** [(C, a, LP)] is the result of some [N]-step run that starts at the
    last state of some [B]-step burn-in run from row [i] of the initial
    points [X], with the covariance [S], whatever the generator was.  It
    holds of every result chain [i] can have and serves for the properties
    of all of them; [chain_run] below fixes the worlds of the two runs. *)
Definition retained_run (floglike : vec -> R) (flogprior : option (vec -> R))
    (beta : R) (B N D : nat) (xlb xub : vec) (X S : mat) (i : nat)
    (C : mat) (a : R) (LP : vec) : Prop :=
  exists x0 bChain bAccept bLogPost w0 w1 w2 w3,
    nth_error X i = Some x0 /\
    MChain floglike flogprior beta B D xlb xub x0 S w0
    = (Ok (bChain, bAccept, bLogPost), w1) /\
    MChain floglike flogprior beta N D xlb xub
           (nth (length bChain - 1) bChain []) S w2
    = (Ok (C, a, LP), w3).

(** The arrays of the sampler after the chains [0..k-1] were stored: chain
    [i] satisfies [P], and its block of the merged arrays holds it. *)
Definition merged_upto (P : nat -> mat -> R -> vec -> Prop) (N M k : nat)
    (st : sampler_state) : Prop :=
  length (s_Chain st) = M /\ length (s_LogPost st) = M /\
  length (s_ChainMerged st) = (M * N)%nat /\
  length (s_LogPostMerged st) = (M * N)%nat /\
  length (s_ACC st) = M /\
  forall i, (i < k)%nat ->
    P i (nth i (s_Chain st) []) (nth i (s_ACC st) 0) (nth i (s_LogPost st) [])
    /\ block N i (s_ChainMerged st) = nth i (s_Chain st) []
    /\ block N i (s_LogPostMerged st) = nth i (s_LogPost st) [].

(** The states [f x, f (f x), ...] of a walk of [n] steps from [x]. *)
Fixpoint walk (f : vec -> vec) (n : nat) (x : vec) : mat :=
  match n with
  | O => []
  | S n' => f x :: walk f n' (f x)
  end.

(** The candidate when every normal draw equals [z]. *)
Definition drift (D : nat) (xlb xub : vec) (L : mat) (z : R) (x : vec) : vec :=
  propose D xlb xub L x (map (fun _ => z) (seq 0 D)).

(** A world whose normal draws all equal [z] and whose uniform draws are
    all 0, so that every candidate is accepted. *)
Definition steady (z : R) (g u n : nat) : World :=
  mkWorld (mkRandomState (fun _ => z) (fun _ => 0) g u) n.

(** [np.linalg.inv] and the eigenvalues of [np.linalg.eig] on arrays of
    one row and one column. *)
Definition inv_1x1 (A : mat) : option mat :=
  match A with
  | [[a]] => if Req_dec_T a 0 then None else Some [[/ a]]
  | _ => None
  end.

Definition eig_1x1 (A : mat) : list R :=
  match A with
  | [[a]] => [a]
  | _ => []
  end.

(** ** Linear algebra of the properties *)

(** The sum of [f 0 .. f (n-1)]. *)
Fixpoint rsum (n : nat) (f : nat -> R) : R :=
  match n with
  | O => 0
  | S n' => rsum n' f + f n'
  end.

(** Entry [(i,j)] of a two-dimensional array. *)
Definition entry (A : mat) (i j : nat) : R := nth j (nth i A []) 0.

(** [A] has [D] rows of [D] entries. *)
Definition square (D : nat) (A : mat) : Prop :=
  length A = D /\ Forall (fun r => length r = D) A.

Definition symmetric (A : mat) : Prop :=
  forall i j, entry A i j = entry A j i.

(** The quadratic form [v . (A v)]. *)
Definition quad (A : mat) (v : vec) : R := Np.dot v (Np.mat_vec A v).

Definition positive_definite (D : nat) (A : mat) : Prop :=
  forall v, length v = D -> v <> Np.zeros D -> 0 < quad A v.

(** What the rows [prev] built by the factorisation of [A0] satisfy: they
    have [D] entries, a positive diagonal, zeros to the right of the
    diagonal, and their dot products are the lower triangle of [A0]. *)
Definition chol_inv (A0 : mat) (D : nat) (prev : mat) : Prop :=
  Forall (fun r => length r = D) prev /\
  (forall i, (i < length prev)%nat -> 0 < entry prev i i) /\
  (forall i t, (i < length prev)%nat -> (i < t)%nat -> entry prev i t = 0) /\
  (forall i j, (i < length prev)%nat -> (j <= i)%nat ->
     Np.dot (nth i prev []) (nth j prev []) = entry A0 i j).

(** The [D] by [D] diagonal matrix with the entries [d 0 .. d (D-1)]. *)
Definition diagonal (d : nat -> R) (D : nat) : mat :=
  map (fun i => map (fun j => if Nat.eqb i j then d i else 0) (seq 0 D))
      (seq 0 D).

(** The within-chain covariance in the specification's words: the average
    of the unbiased sample covariances of the chains. *)
Definition spec_W (ndim : nat) (data : list mat) : mat :=
  Np.mscale (/ INR (length data))
    (fold_right Np.madd (Np.zeros2 ndim ndim) (map (Np.cov ndim) data)).

(** The between-chain covariance in the specification's words: the
    unbiased sample covariance of the chain means. *)
Definition spec_B (ndim : nat) (data : list mat) : mat :=
  Np.cov ndim (map (Np.mean0 ndim) data).

(** [lam] is a real eigenvalue of [A]: some vector of [D] entries that is
    not zero is scaled by [lam]. *)
Definition eigenvalue (D : nat) (A : mat) (lam : R) : Prop :=
  exists v, length v = D /\ v <> Np.zeros D /\
            Np.mat_vec A v = Np.vscale lam v.

(** [A] is a [D] by [D] matrix whose quadratic form is never negative and
    vanishes only on vectors that [A] sends to zero. *)
Definition psd (D : nat) (A : mat) : Prop :=
  square D A /\
  forall v, length v = D ->
    0 <= quad A v /\ (quad A v = 0 -> Np.mat_vec A v = Np.zeros D).

(** Every chain of the ensemble has [nmax] samples of [ndim] entries. *)
Definition ensemble_shape (nmax ndim : nat) (data : list mat) : Prop :=
  Forall (fun c => length c = nmax /\ Forall (fun x => length x = ndim) c) data.

(** Two chains of two samples in one dimension. *)
Definition two_chains : list mat := [[[0]; [1]]; [[2]; [4]]].

(** The scores of lines 86-90 are finite numbers: without a prior
    evaluator [np.log(xub - xlb)] is a number only where every
    [xlb[i] < xub[i]]; elsewhere it is [-inf] or [nan], which the real
    numbers of this development do not have. *)
Definition finite_scores (flogprior : option (vec -> R)) (xlb xub : vec)
  : Prop :=
  flogprior = None -> Forall2 Rlt xlb xub.

(** The world after [normals] normal draws, [uniforms] uniform draws and
    [scores] posterior scores. *)
Definition consumed (normals uniforms scores : nat) (w : World) : World :=
  mkWorld (mkRandomState (gauss (rng w)) (unif (rng w))
                         (gpos (rng w) + normals) (upos (rng w) + uniforms))
          (nscore w + scores).


(** The world in which chain [i] starts its burn-in when the chains start
    in the world [w].  In the loop of lines 46-55 each of the [i] chains
    before it drew [(B+N)*D] normals and [B+N] uniforms and computed
    [B+N+2] scores.  In the pool it is the worker of task [i] of the first
    batch, after the [B+1] scores of each of the [i] tasks before it. *)
Definition burn_in_world (parallel : bool) (worker : nat -> nat -> RandomState)
    (B N D i : nat) (w : World) : World :=
  if parallel
  then mkWorld (worker 0%nat i) (nscore w + i * (B + 1))
  else consumed (i * ((B + N) * D)) (i * (B + N)) (i * (B + N + 2)) w.

(** The world in which chain [i] starts its sampling run: in the loop the
    world [wb] its burn-in ended in; in the pool the worker of task [i] of
    the second batch, after the scores of the first batch and of the [i]
    tasks before it. *)
Definition sampling_world (parallel : bool)
    (worker : nat -> nat -> RandomState) (B N M i : nat) (w wb : World)
  : World :=
  if parallel
  then mkWorld (worker 1%nat i) (nscore w + M * (B + 1) + i * (N + 1))
  else wb.

(** [(C, a, LP)] is what chain [i] returns when its burn-in of [B] steps
    starts from row [i] of [X] in the world [wb] and its run of [N] steps
    starts from the last state of the burn-in in the world [ws wb'], where
    [wb'] is the world the burn-in ended in.  The worlds are given, so the
    two runs and their results are determined. *)
Definition chain_run (floglike : vec -> R) (flogprior : option (vec -> R))
    (beta : R) (B N D : nat) (xlb xub : vec) (X S : mat) (i : nat)
    (wb : World) (ws : World -> World) (C : mat) (a : R) (LP : vec) : Prop :=
  exists x0 bChain bAccept bLogPost wb' w',
    nth_error X i = Some x0 /\
    MChain floglike flogprior beta B D xlb xub x0 S wb
    = (Ok (bChain, bAccept, bLogPost), wb') /\
    MChain floglike flogprior beta N D xlb xub
           (nth (length bChain - 1) bChain []) S (ws wb')
    = (Ok (C, a, LP), w').

(** * Bandwidth factors of the kernel density estimate (src/mpdf.py) *)

Module Mpdf.

(** The attributes of the [gaussian_kde] object that the factors read:
    the number of points and the number of dimensions. *)
Record kde : Type := mkKde {
  n : nat;
  d : nat
}.

(** [np.power] on a positive base; numpy returns [inf] or [nan] on other
    bases with these exponents, which is outside the model. *)
Definition power (x y : R) : R := Rpower x y.

(** Lines 9-15. *)
Definition my_scott_fac (obj : kde) (fac : R) : R :=
  power (INR (n obj)) (-1 / (INR (d obj) + 4)) * fac.

(** Lines 18-24. *)
Definition my_silverman_fac (obj : kde) (fac : R) : R :=
  power (INR (n obj) * (INR (d obj) + 2) / 4) (-1 / (INR (d obj) + 4)) * fac.

End Mpdf.
Unset Implicit Arguments.

(** ** Lists and arrays *)

Lemma zipWith_length {A B C : Type} (f : A -> B -> C) (u : list A) (v : list B) :
  length (Np.zipWith f u v) = Nat.min (length u) (length v).
Proof.
  revert v; induction u as [|a u IH]; intros [|b v]; simpl; auto.
Qed.

Lemma zipWith_nth {A B C : Type} (f : A -> B -> C) u v i da db dc :
  (i < length u)%nat -> (i < length v)%nat ->
  nth i (Np.zipWith f u v) dc = f (nth i u da) (nth i v db).
Proof.
  revert v i; induction u as [|a u IH]; intros [|b v] [|i] Hu Hv;
    simpl in *; try lia; auto.
  apply IH; lia.
Qed.

Lemma set_nth_length {A : Type} (i : nat) (x : A) (l : list A) :
  length (Np.set_nth i x l) = length l.
Proof.
  revert i; induction l as [|a l IH]; intros [|i]; simpl; auto.
Qed.

Lemma set_nth_same {A : Type} (i : nat) (x d : A) (l : list A) :
  (i < length l)%nat -> nth i (Np.set_nth i x l) d = x.
Proof.
  revert i; induction l as [|a l IH]; intros [|i] H; simpl in *; try lia; auto.
  apply IH; lia.
Qed.

Lemma set_nth_other {A : Type} (i j : nat) (x d : A) (l : list A) :
  i <> j -> nth j (Np.set_nth i x l) d = nth j l d.
Proof.
  revert i j; induction l as [|a l IH]; intros [|i] [|j] H; simpl; auto; try lia.
Qed.

Lemma clip_length (x lo hi : vec) :
  length (Np.clip x lo hi)
  = Nat.min (length x) (Nat.min (length lo) (length hi)).
Proof.
  revert lo hi; induction x as [|a x IH]; intros [|l lo] [|h hi]; simpl; auto.
Qed.

Lemma clip_nth (x lo hi : vec) (i : nat) :
  (i < length x)%nat -> (i < length lo)%nat -> (i < length hi)%nat ->
  nth i (Np.clip x lo hi) 0 = Rmin (nth i hi 0) (Rmax (nth i x 0) (nth i lo 0)).
Proof.
  revert lo hi i; induction x as [|a x IH]; intros [|l lo] [|h hi] [|i];
    simpl; intros; try lia; auto.
  apply IH; lia.
Qed.

Lemma vscale_length (c : R) (v : vec) : length (Np.vscale c v) = length v.
Proof. unfold Np.vscale. apply length_map. Qed.

Lemma zeros_length (n : nat) : length (Np.zeros n) = n.
Proof. unfold Np.zeros. apply repeat_length. Qed.

Lemma vec_mat_length (D : nat) (z : vec) (L : mat) :
  Forall (fun r => length r = D) L -> length (Np.vec_mat D z L) = D.
Proof.
  unfold Np.vec_mat. revert z. induction L as [|r L IH]; intros [|c z] HL; simpl;
    try apply zeros_length.
  inversion HL; subst. unfold Np.vadd at 1. rewrite zipWith_length.
  rewrite vscale_length. fold (Np.vadd). rewrite IH by assumption. lia.
Qed.

(** ** Shape of the Cholesky factor *)

Lemma chol_offdiag_length (a : vec) (prev : mat) (j : nat) (acc : vec) :
  length (chol_offdiag a prev j acc) = (length acc + length prev)%nat.
Proof.
  revert j acc; induction prev as [|Lj prev IH]; intros j acc; simpl.
  - lia.
  - rewrite IH, length_app. simpl. lia.
Qed.

Lemma chol_row_length (D : nat) (a : vec) (prev : mat) (r : vec) :
  chol_row D a prev = Some r -> (length prev < D)%nat -> length r = D.
Proof.
  unfold chol_row. destruct (Rlt_dec _ _); [|discriminate].
  intros [= <-] H. rewrite length_app, chol_offdiag_length. simpl.
  rewrite zeros_length. lia.
Qed.

Lemma chol_rows_shape (D : nat) (A prev L : mat) :
  chol_rows D A prev = Some L ->
  (length prev + length A <= D)%nat ->
  Forall (fun r => length r = D) prev ->
  length L = (length prev + length A)%nat /\ Forall (fun r => length r = D) L.
Proof.
  revert prev; induction A as [|a A IH]; intros prev; simpl.
  - intros [= <-] _ H. split; [lia|assumption].
  - destruct (chol_row D a prev) as [r|] eqn:Er; [|discriminate].
    intros HL Hlen Hprev.
    apply IH in HL.
    + rewrite length_app in HL. simpl in HL. split; [lia|tauto].
    + rewrite length_app. simpl. lia.
    + apply Forall_app. split; [assumption|].
      constructor; [|constructor]. eapply chol_row_length; eauto. lia.
Qed.

Lemma cholesky_shape (A L : mat) :
  cholesky A = Ok L ->
  length L = length A /\ Forall (fun r => length r = length A) L.
Proof.
  unfold cholesky. destruct (chol_rows _ A []) as [L'|] eqn:E; [|discriminate].
  intros [= <-]. apply chol_rows_shape in E; simpl; auto.
Qed.

(** ** The loop rule *)

Lemma for_each_inv {S : Type} (I : nat -> S -> World -> Prop)
    (body : nat -> S -> Py S) (n a : nat) :
  (forall i s w, (a <= i < a + n)%nat -> I i s w ->
     exists s' w', body i s w = (Ok s', w') /\ I (Datatypes.S i) s' w') ->
  forall s w, I a s w ->
    exists s' w', for_each (seq a n) body s w = (Ok s', w') /\ I (a + n)%nat s' w'.
Proof.
  revert a; induction n as [|n IH]; intros a Hbody s w HI; simpl.
  - exists s, w. rewrite Nat.add_0_r. split; [reflexivity|assumption].
  - destruct (Hbody a s w ltac:(lia) HI) as (s1 & w1 & E1 & H1).
    destruct (IH (Datatypes.S a)) with (s := s1) (w := w1)
      as (s2 & w2 & E2 & H2); auto.
    { intros i s0 w0 Hi. apply Hbody. lia. }
    exists s2, w2. unfold bind. rewrite E1, E2.
    split; [reflexivity|]. now rewrite <- Nat.add_succ_comm.
Qed.

(** ** One iteration of the chain *)

Section ChainFacts.

Variable floglike : vec -> R.
Variable flogprior : option (vec -> R).
Variable beta : R.
Variable N D : nat.
Variables xlb xub : vec.

Local Abbreviation score := (flogpost floglike flogprior beta xlb xub).
Local Abbreviation step := (MChain_step floglike flogprior beta D xlb xub).

(** The iteration never raises; it either moves to the candidate with
    the candidate's score, or keeps the state, and records the outcome
    in row [i]. *)
Lemma MChain_step_run (L : mat) (i : nat) (st : chain_state) (w : World) :
  let Xt := propose D xlb xub L (cur_X st) (next_normals D w) in
  exists st',
    step L i st w = (Ok st', after_step D w) /\
    cur_Chain st' = Np.set_nth i (cur_X st') (cur_Chain st) /\
    cur_LogPost st' = Np.set_nth i (cur_pX st') (cur_LogPost st) /\
    ((next_uniform w <= ratio (cur_pX st) (score Xt) /\
      cur_X st' = Xt /\ cur_pX st' = score Xt /\
      cur_Accept st' = cur_Accept st + 1)
     \/
     (~ next_uniform w <= ratio (cur_pX st) (score Xt) /\
      cur_X st' = cur_X st /\ cur_pX st' = cur_pX st /\
      cur_Accept st' = cur_Accept st)).
Proof.
  intros Xt. unfold MChain_step, bind, randn, call, rand, ret. simpl.
  fold (next_normals D w). fold Xt. fold (next_uniform w).
  destruct (Rle_dec (next_uniform w) (ratio (cur_pX st) (score Xt))) as [Hu|Hu].
  - eexists. split; [reflexivity|]. simpl. repeat split; auto.
  - eexists. split; [reflexivity|]. simpl. repeat split; auto.
Qed.

(** The chain after a successful factorisation: the first score, the loop
    and the final division. *)
Lemma MChain_unfold (X : vec) (sigma L : mat) (w : World) :
  cholesky sigma = Ok L ->
  MChain floglike flogprior beta N D xlb xub X sigma w
  = (st <- for_range N (step L)
             (mkChainState X (score X) 0 (Np.zeros2 N D) (Np.zeros N)) ;;
     Accept <- div_int (cur_Accept st) N ;;
     ret (cur_Chain st, Accept, cur_LogPost st))
      (mkWorld (rng w) (S (nscore w))).
Proof.
  intros HL. unfold MChain, bind at 1, lift. rewrite HL.
  unfold bind at 1, call. reflexivity.
Qed.

(** A loop invariant of the chain gives a returned triple: the chain
    returns whenever the factorisation succeeds and [N] is positive. *)
Lemma MChain_returns (I : nat -> chain_state -> World -> Prop)
    (X : vec) (sigma L : mat) (w : World) :
  cholesky sigma = Ok L -> (1 <= N)%nat ->
  I 0%nat (mkChainState X (score X) 0 (Np.zeros2 N D) (Np.zeros N))
    (mkWorld (rng w) (S (nscore w))) ->
  (forall i st w1, (i < N)%nat -> I i st w1 ->
     exists st' w2, step L i st w1 = (Ok st', w2) /\ I (S i) st' w2) ->
  exists st w',
    MChain floglike flogprior beta N D xlb xub X sigma w
    = (Ok (cur_Chain st, cur_Accept st / INR N, cur_LogPost st), w')
    /\ I N st w'.
Proof.
  intros HL HN H0 Hstep. rewrite MChain_unfold with (L := L) by exact HL.
  destruct (@for_each_inv _ I (step L) N 0) with (2 := H0)
    as (st & w' & E & HI).
  { intros i st w1 Hi. apply Hstep. lia. }
  exists st, w'. unfold bind at 1, for_range. rewrite E.
  unfold bind, div_int. destruct N as [|n]; [lia|]. split; [reflexivity|].
  exact HI.
Qed.


Lemma ratio_equal_scores (p : R) : ratio p p = 1.
Proof.
  unfold ratio. destruct (Rgt_dec p p) as [H|_]; [lra|].
  replace (0.5 * (p - p)) with 0 by lra. apply exp_0.
Qed.

(** C6.  With a positive definite covariance and at least one step the
    chain returns an acceptance rate between 0 and 1, and the rate is
    exactly 1 when the posterior score is the same finite number at every
    point.  (Without a prior evaluator and with some [xub[i] <= xlb[i]] the
    score of the code is [inf] or [nan], its ratio is [nan] and no candidate
    is accepted; [finite_scores] excludes that input.) *)
Theorem MChain_acceptance_rate (X : vec) (sigma L : mat) (w : World) :
  cholesky sigma = Ok L -> (1 <= N)%nat -> uniform_tape (rng w) ->
  exists Chain Accept LogPost w',
    MChain floglike flogprior beta N D xlb xub X sigma w
    = (Ok (Chain, Accept, LogPost), w') /\
    0 <= Accept <= 1 /\
    (finite_scores flogprior xlb xub ->
     (forall x y, score x = score y) -> Accept = 1).
Proof.
  intros HL HN Hu.
  destruct (@MChain_returns
    (fun k st w1 =>
       unif (rng w1) = unif (rng w) /\
       cur_pX st = score (cur_X st) /\
       0 <= cur_Accept st <= INR k /\
       ((forall x y, score x = score y) -> cur_Accept st = INR k))
    X sigma L w HL HN) as (st & w' & E & _ & _ & Hrange & Hconst).
  - simpl. repeat split; auto; lra.
  - intros i st w1 Hi (Htape & Hcur & Hrange & Hconst).
    destruct (MChain_step_run L i st w1) as (st' & E & _ & _ & Hcase).
    exists st', (after_step D w1). split; [exact E|].
    rewrite S_INR. simpl.
    destruct Hcase as [(_ & EX & EP & EA)|(Hrej & EX & EP & EA)];
      rewrite EX, EP, EA; repeat split; auto; try lra.
    + intros Hc. rewrite (Hconst Hc). reflexivity.
    + intros Hc. exfalso. apply Hrej.
      rewrite Hcur, (Hc (cur_X st) (propose D xlb xub L (cur_X st)
                                      (next_normals D w1))).
      rewrite ratio_equal_scores. unfold next_uniform. rewrite Htape.
      apply Rlt_le, Hu.
  - assert (HN' : 0 < INR N) by (apply lt_0_INR; lia).
    exists (cur_Chain st), (cur_Accept st / INR N), (cur_LogPost st), w'.
    split; [exact E|]. split; [split|].
    + apply Rmult_le_pos; [tauto|]. left. now apply Rinv_0_lt_compat.
    + apply Rmult_le_reg_r with (r := INR N); [exact HN'|].
      unfold Rdiv. rewrite Rmult_assoc, Rinv_l by lra. lra.
    + intros _ Hc. rewrite (Hconst Hc). field. lra.
Qed.

(** A candidate is clipped into the box, whatever the current point. *)
Lemma propose_within (L : mat) (X z : vec) :
  Forall (fun r => length r = D) L ->
  length X = D -> length xlb = D -> length xub = D ->
  (forall i, (i < D)%nat -> nth i xlb 0 <= nth i xub 0) ->
  within D xlb xub (propose D xlb xub L X z).
Proof.
  intros HL HX Hlb Hub Hbox. unfold propose, within.
  assert (Hlen : length (Np.vadd (Np.vec_mat D z L) X) = D).
  { unfold Np.vadd. rewrite zipWith_length, vec_mat_length by assumption. lia. }
  split.
  - rewrite clip_length. lia.
  - intros i Hi. rewrite clip_nth by lia.
    specialize (Hbox i Hi).
    unfold Rmin, Rmax.
    repeat match goal with |- context [Rle_dec ?a ?b] =>
      destruct (Rle_dec a b) end; lra.
Qed.

(** C4, as the code has it.  When the box is not empty and the initial
    point lies in it, the chain returns [N] recorded states and each of them
    lies in the box, whether its step accepted the candidate or not. *)
Theorem MChain_samples_within_bounds (X : vec) (sigma L : mat) (w : World) :
  cholesky sigma = Ok L -> (1 <= N)%nat ->
  length sigma = D -> length xlb = D -> length xub = D ->
  (forall i, (i < D)%nat -> nth i xlb 0 <= nth i xub 0) ->
  within D xlb xub X ->
  exists Chain Accept LogPost w',
    MChain floglike flogprior beta N D xlb xub X sigma w
    = (Ok (Chain, Accept, LogPost), w') /\
    length Chain = N /\
    forall i, (i < N)%nat -> within D xlb xub (nth i Chain []).
Proof.
  intros HL HN Hs Hlb Hub Hbox HX.
  assert (Hrows : Forall (fun r => length r = D) L).
  { rewrite <- Hs. now apply cholesky_shape. }
  destruct (@MChain_returns
    (fun k st _ =>
       length (cur_Chain st) = N /\ within D xlb xub (cur_X st) /\
       forall j, (j < k)%nat -> within D xlb xub (nth j (cur_Chain st) []))
    X sigma L w HL HN) as (st & w' & E & HC & _ & Hin).
  - simpl. unfold Np.zeros2. rewrite repeat_length.
    split; [reflexivity|]. split; [exact HX|]. intros j Hj; lia.
  - intros i st w1 Hi (HC & Hcur & Hin).
    destruct (MChain_step_run L i st w1) as (st' & E & EC & _ & Hcase).
    exists st', (after_step D w1). split; [exact E|].
    assert (Hcur' : within D xlb xub (cur_X st')).
    { destruct Hcase as [(_ & -> & _)|(_ & -> & _)]; [|exact Hcur].
      apply propose_within; auto. apply Hcur. }
    rewrite EC, set_nth_length.
    split; [exact HC|]. split; [exact Hcur'|].
    intros j Hj. destruct (Nat.eq_dec i j) as [<-|Hne].
    + rewrite set_nth_same by lia. exact Hcur'.
    + rewrite set_nth_other by exact Hne. apply Hin. lia.
  - exists (cur_Chain st), (cur_Accept st / INR N), (cur_LogPost st), w'.
    split; [exact E|]. split; [exact HC|]. exact Hin.
Qed.

Lemma ratio_pos (p q : R) : 0 < ratio p q.
Proof.
  unfold ratio. destruct (Rgt_dec p q); [lra|apply exp_pos].
Qed.

(** A chain of one step, evaluated. *)
Lemma MChain_single_step (X : vec) (sigma L : mat) (w : World) :
  cholesky sigma = Ok L ->
  let Xt := propose D xlb xub L X (next_normals D w) in
  MChain floglike flogprior beta 1 D xlb xub X sigma w
  = (Ok (if Rle_dec (next_uniform w) (ratio (score X) (score Xt))
         then ([Xt], (0 + 1) / 1, [score Xt])
         else ([X], 0 / 1, [score X])),
     after_step D (mkWorld (rng w) (S (nscore w)))).
Proof.
  intros HL Xt. unfold MChain, bind at 1, lift. rewrite HL.
  unfold bind at 1, call.
  unfold for_range. simpl seq. unfold for_each, bind at 1.
  unfold MChain_step, bind, randn, call, rand, ret, div_int.
  subst Xt. unfold next_uniform, next_normals, after_step. simpl.
  repeat match goal with
         | |- context [Rle_dec ?a ?b] => destruct (Rle_dec a b)
         end; try reflexivity; contradiction.
Qed.

End ChainFacts.

(** ** Evaluation on concrete inputs *)

Ltac np_unfold :=
  cbv [cholesky chol_rows chol_row chol_offdiag propose
       Np.dot Np.sum Np.vmul Np.vadd Np.vsub Np.vscale Np.zipWith Np.zeros
       Np.zeros2 Np.vec_mat Np.mat_vec Np.mat_mat Np.clip Np.set_nth
       Np.madd Np.mscale Np.outer Np.mean0 Np.cov
       next_normals next_uniform fresh constant_tape rng gauss unif gpos upos
       fold_right fold_left map seq nth length app repeat Nat.sub Nat.add
       Nat.eqb hd].

Ltac Rminmax :=
  unfold Rmin, Rmax;
  repeat match goal with
         | |- context [Rle_dec ?a ?b] => destruct (Rle_dec a b)
         | H : context [Rle_dec ?a ?b] |- _ => destruct (Rle_dec a b)
         end; try lra.

Lemma sqrt_1_minus_0 : sqrt (1 - 0) = 1.
Proof. replace (1 - 0) with 1 by lra. apply sqrt_1. Qed.

Lemma cholesky_1x1_unit : cholesky [[1]] = Ok [[1]].
Proof.
  np_unfold. destruct (Rlt_dec 0 (1 - 0)) as [_|H]; [|exfalso; lra].
  rewrite sqrt_1_minus_0. reflexivity.
Qed.

Lemma cholesky_2x2_example : cholesky [[1; 1]; [1; 2]] = Ok [[1; 0]; [1; 1]].
Proof.
  np_unfold. destruct (Rlt_dec 0 (1 - 0)) as [_|H]; [|exfalso; lra].
  rewrite sqrt_1_minus_0.
  replace ((1 - 0) / 1) with 1 by lra.
  replace (2 - (1 * 1 + 0)) with 1 by lra.
  destruct (Rlt_dec 0 1) as [_|H]; [|exfalso; lra].
  rewrite sqrt_1. reflexivity.
Qed.

Lemma exp_minus_2_lt_half : exp (-2) < 0.5.
Proof.
  replace (-2) with (- (2)) by lra. rewrite exp_Ropp.
  assert (H : 1 + 2 < exp 2) by (apply exp_ineq1; lra).
  assert (H3 : / exp 2 < / 3) by (apply Rinv_lt_contravar; nra).
  lra.
Qed.

(** C4 fails as stated.  With the box [0,1], the start 5 and a candidate
    that is rejected, the state recorded at the only step is the start,
    which lies above the upper bound. *)
Lemma MChain_records_start_outside_box :
  exists Accept LogPost w',
    MChain downhill None 1 1 1 [0] [1] [5] [[1]] (fresh 0 0.5)
    = (Ok ([[5]], Accept, LogPost), w') /\
    ~ within 1 [0] [1] (nth 0 [[5]] []).
Proof.
  rewrite MChain_single_step with (L := [[1]]) by exact cholesky_1x1_unit.
  cbv zeta.
  assert (EXt : propose 1 [0] [1] [[1]] [5] (next_normals 1 (fresh 0 0.5))
                = [1]).
  { np_unfold. f_equal. Rminmax. }
  rewrite EXt.
  destruct (Rle_dec _ _) as [Hacc|_].
  - exfalso. revert Hacc. unfold ratio, flogpost, downhill. np_unfold.
    destruct (Rgt_dec _ _) as [H|_]; [lra|].
    match goal with |- _ <= exp ?a -> _ => replace a with (-2) by lra end.
    pose proof exp_minus_2_lt_half. lra.
  - do 3 eexists. split; [reflexivity|].
    unfold within. simpl. intros [_ H]. specialize (H 0%nat ltac:(lia)).
    simpl in H. lra.
Qed.

Lemma uniform_constant_tape (z u : R) :
  0 <= u < 1 -> uniform_tape (rng (fresh z u)).
Proof. intros H k. exact H. Qed.


Lemma MChain_acceptance_rate_witness :
  cholesky [[1]] = Ok [[1]] /\ (1 <= 3)%nat /\
  uniform_tape (rng (fresh 0 0.5)) /\
  finite_scores None [0] [1] /\
  (forall x y, flogpost (fun _ => 0) None 1 [0] [1] x
               = flogpost (fun _ => 0) None 1 [0] [1] y) /\
  exists Chain LogPost w',
    MChain (fun _ => 0) None 1 3 1 [0] [1] [5] [[1]] (fresh 0 0.5)
    = (Ok (Chain, 1, LogPost), w').
Proof.
  assert (Hu : uniform_tape (rng (fresh 0 0.5))).
  { apply uniform_constant_tape. lra. }
  assert (Hf : finite_scores None [0] [1]).
  { intros _. constructor; [lra|constructor]. }
  assert (Hc : forall x y, flogpost (fun _ => 0) None 1 [0] [1] x
                           = flogpost (fun _ => 0) None 1 [0] [1] y).
  { intros x y. reflexivity. }
  split; [exact cholesky_1x1_unit|]. split; [lia|]. split; [exact Hu|].
  split; [exact Hf|]. split; [exact Hc|].
  destruct (@MChain_acceptance_rate (fun _ => 0) None 1 3 1 [0] [1] [5]
              [[1]] [[1]] (fresh 0 0.5) cholesky_1x1_unit
              ltac:(lia) Hu) as (Chain & Accept & LogPost & w' & E & _ & H1).
  exists Chain, LogPost, w'. rewrite E. now rewrite (H1 Hf Hc).
Defined.

Lemma within_unit_box_half : within 1 [0] [1] [0.5].
Proof.
  split; [reflexivity|]. intros [|i] Hi; [simpl; lra|lia].
Qed.

Lemma MChain_samples_within_bounds_witness :
  cholesky [[1]] = Ok [[1]] /\ (1 <= 3)%nat /\
  within 1 [0] [1] [0.5] /\
  exists Chain Accept LogPost w',
    MChain downhill None 1 3 1 [0] [1] [0.5] [[1]] (fresh 0 0.5)
    = (Ok (Chain, Accept, LogPost), w') /\
    length Chain = 3%nat /\
    forall i, (i < 3)%nat -> within 1 [0] [1] (nth i Chain []).
Proof.
  split; [exact cholesky_1x1_unit|]. split; [lia|].
  split; [exact within_unit_box_half|].
  apply (@MChain_samples_within_bounds downhill None 1 3 1 [0] [1] [0.5]
           [[1]] [[1]] (fresh 0 0.5));
    [exact cholesky_1x1_unit|lia|reflexivity|reflexivity|reflexivity|
     |exact within_unit_box_half].
  intros [|i] Hi; [simpl; lra|lia].
Defined.

(** C1 fails on the code.  For the covariance [[1,1],[1,2]], whose Cholesky
    factor is [[1,0],[1,1]], and the draws (1,0), the chain's candidate from
    the origin is (1,0), the draws multiplied by the factor from the left,
    while the current point plus the factor applied to the draws is (1,1);
    the chain records the former. *)
Theorem MChain_candidate_transposes_factor :
  cholesky [[1; 1]; [1; 2]] = Ok [[1; 0]; [1; 1]] /\
  next_normals 2 impulse = [1; 0] /\
  propose 2 [-10; -10] [10; 10] [[1; 0]; [1; 1]] [0; 0] [1; 0] = [1; 0] /\
  spec_propose [-10; -10] [10; 10] [[1; 0]; [1; 1]] [0; 0] [1; 0] = [1; 1] /\
  exists Accept LogPost w',
    MChain (fun _ => 0) None 1 1 2 [-10; -10] [10; 10] [0; 0]
           [[1; 1]; [1; 2]] impulse
    = (Ok ([[1; 0]], Accept, LogPost), w').
Proof.
  assert (EXt : propose 2 [-10; -10] [10; 10] [[1; 0]; [1; 1]] [0; 0] [1; 0]
                = [1; 0]).
  { np_unfold. repeat f_equal; Rminmax. }
  split; [exact cholesky_2x2_example|]. split; [reflexivity|].
  split; [exact EXt|]. split.
  { unfold spec_propose. np_unfold. repeat f_equal; Rminmax. }
  rewrite MChain_single_step with (L := [[1; 0]; [1; 1]])
    by exact cholesky_2x2_example.
  cbv zeta. change (next_normals 2 impulse) with [1; 0]. rewrite EXt.
  destruct (Rle_dec _ _) as [_|Hrej].
  - do 3 eexists. reflexivity.
  - exfalso. apply Hrej. unfold next_uniform, impulse. simpl.
    apply Rlt_le, ratio_pos.
Qed.

(** ** The posterior score *)



(** The sampler hands the inverse of the temperature to every chain. *)
Lemma sampler_chains_beta worker floglike D xlb xub Xinit
    flogprior T B N M sigma parallel (w : World) :
  T <> 0 ->
  @sampler_chains worker floglike D xlb xub Xinit flogprior T B N M sigma
                  parallel w
  = (sigma <- match sigma with
              | None => default_sigma D xlb xub
              | Some s => ret s
              end ;;
     X <- match Xinit with
          | None => default_X D xlb xub M
          | Some X0 => ret X0
          end ;;
     if parallel
     then parallel_branch worker floglike D xlb xub flogprior B N M (1 / T)
            X sigma
            (mkSamplerState (repeat (Np.zeros2 N D) M) (Np.zeros2 M N)
               (Np.zeros2 (M * N) D) (Np.zeros (M * N)) (Np.zeros M))
     else for_range M
            (sequential_body floglike D xlb xub flogprior B N (1 / T) X sigma)
            (mkSamplerState (repeat (Np.zeros2 N D) M) (Np.zeros2 M N)
               (Np.zeros2 (M * N) D) (Np.zeros (M * N)) (Np.zeros M))) w.
Proof.
  intros HT. unfold sampler_chains, bind at 1.
  destruct (Req_dec_T T 0) as [E|_]; [contradiction|]. reflexivity.
Qed.


(** ** Slices of the merged arrays *)

Lemma set_slice_length {A : Type} (lo hi : nat) (rows l : list A) :
  (lo <= hi)%nat -> (hi <= length l)%nat -> length rows = (hi - lo)%nat ->
  length (Np.set_slice lo hi rows l) = length l.
Proof.
  intros H1 H2 H3. unfold Np.set_slice.
  rewrite !length_app, length_firstn, length_skipn. lia.
Qed.

Lemma slice_written {A : Type} (lo hi n : nat) (rows l : list A) :
  (lo <= length l)%nat -> length rows = n ->
  firstn n (skipn lo (Np.set_slice lo hi rows l)) = rows.
Proof.
  intros H1 H2. unfold Np.set_slice.
  rewrite skipn_app, length_firstn.
  replace (lo - Nat.min lo (length l))%nat with 0%nat by lia.
  rewrite skipn_all2 by (rewrite length_firstn; lia). simpl.
  rewrite firstn_app. replace (n - length rows)%nat with 0%nat by lia.
  rewrite firstn_0, app_nil_r. subst n. apply firstn_all.
Qed.

Lemma slice_before {A : Type} (a n lo hi : nat) (rows l : list A) :
  (a + n <= lo)%nat -> (lo <= length l)%nat ->
  firstn n (skipn a (Np.set_slice lo hi rows l)) = firstn n (skipn a l).
Proof.
  intros H1 H2. unfold Np.set_slice.
  rewrite skipn_app, length_firstn.
  replace (a - Nat.min lo (length l))%nat with 0%nat by lia. simpl.
  rewrite firstn_app, length_skipn, length_firstn.
  replace (n - (Nat.min lo (length l) - a))%nat with 0%nat by lia.
  rewrite firstn_0, app_nil_r.
  rewrite skipn_firstn_comm, firstn_firstn. f_equal. lia.
Qed.

(** ** Results that are returned *)

Lemma bind_ok {A B : Type} (c : Py A) (k : A -> Py B) (w w' : World) (b : B) :
  bind c k w = (Ok b, w') ->
  exists a w1, c w = (Ok a, w1) /\ k a w1 = (Ok b, w').
Proof.
  unfold bind. destruct (c w) as [[a|e] w1]; [|discriminate].
  intros H. exists a, w1. auto.
Qed.

Lemma index_ok {A : Type} (l : list A) (i : nat) (w w' : World) (a d : A) :
  index l i w = (Ok a, w') -> (i < length l)%nat /\ a = nth i l d /\ w' = w.
Proof.
  unfold index. destruct (nth_error l i) as [x|] eqn:E; [|discriminate].
  intros [= <- <-]. split; [|split; auto].
  - apply nth_error_Some. congruence.
  - symmetry. now apply nth_error_nth.
Qed.

Lemma for_each_ok {S : Type} (I : nat -> S -> Prop) (body : nat -> S -> Py S)
    (n a : nat) :
  (forall i s w s' w', (a <= i < a + n)%nat -> I i s ->
     body i s w = (Ok s', w') -> I (Datatypes.S i) s') ->
  forall s w s' w', I a s ->
    for_each (seq a n) body s w = (Ok s', w') -> I (a + n)%nat s'.
Proof.
  revert a; induction n as [|n IH]; intros a Hbody s w s' w' HI; simpl.
  - intros [= <- <-]. now rewrite Nat.add_0_r.
  - intros H. apply bind_ok in H. destruct H as (s1 & w1 & E1 & E2).
    rewrite <- Nat.add_succ_comm.
    apply (IH (Datatypes.S a)) with (s := s1) (w := w1) (w' := w'); auto.
    + intros i s0 w0 s0' w0' Hi. apply Hbody. lia.
    + apply (Hbody a s w s1 w1); auto. lia.
Qed.

Lemma MChain_ok_inv floglike flogprior beta N D xlb xub X sigma w r w' :
  MChain floglike flogprior beta N D xlb xub X sigma w = (Ok r, w') ->
  (exists L, cholesky sigma = Ok L) /\ (1 <= N)%nat.
Proof.
  unfold MChain, bind at 1, lift.
  destruct (cholesky sigma) as [L|e]; [|discriminate].
  intros H. split; [now exists L|].
  destruct N as [|n]; [|lia]. exfalso. revert H.
  unfold bind, call, for_range, div_int. simpl. discriminate.
Qed.

Lemma MChain_ok_lengths floglike flogprior beta N D xlb xub X sigma w
    Chain Accept LogPost w' :
  MChain floglike flogprior beta N D xlb xub X sigma w
  = (Ok (Chain, Accept, LogPost), w') ->
  length Chain = N /\ length LogPost = N.
Proof.
  intros H. destruct (MChain_ok_inv _ _ _ _ _ _ _ _ _ _ _ _ H) as [[L HL] HN].
  destruct (@MChain_returns floglike flogprior beta N D xlb xub
    (fun _ st _ => length (cur_Chain st) = N /\ length (cur_LogPost st) = N)
    X sigma L w HL HN) as (st & w1 & E & HC & HP).
  - simpl. unfold Np.zeros2, Np.zeros. now rewrite !repeat_length.
  - intros i st w1 Hi (HC & HP).
    destruct (MChain_step_run floglike flogprior beta D xlb xub L i st w1)
      as (st' & E & EC & EP & _).
    exists st', (after_step D w1). split; [exact E|].
    now rewrite EC, EP, !set_nth_length.
  - rewrite E in H. injection H as <- _ <- _. auto.
Qed.

Lemma store_merged_upto P N M k iChain iAccept iLogPost st :
  merged_upto P N M k st -> (k < M)%nat ->
  length iChain = N -> length iLogPost = N ->
  P k iChain iAccept iLogPost ->
  merged_upto P N M (S k) (store N k iChain iAccept iLogPost st).
Proof.
  intros (HC & HL & HCM & HLM & HA & Hblocks) Hk HiC HiL HP.
  assert (Hlo : (k * N <= M * N)%nat) by nia.
  assert (Hhi : ((k + 1) * N <= M * N)%nat) by nia.
  unfold merged_upto, store; simpl.
  rewrite !set_nth_length, !set_slice_length by lia.
  repeat (split; [assumption|]).
  intros i Hi. unfold block.
  destruct (Nat.eq_dec k i) as [<-|Hne].
  - rewrite !set_nth_same, !slice_written by lia. auto.
  - rewrite !set_nth_other by exact Hne.
    assert (Hbefore : (i * N + N <= k * N)%nat) by nia.
    rewrite !slice_before by lia. apply Hblocks. lia.
Qed.

Lemma index_last_ok {A : Type} (l : list A) (w w' : World) (a d : A) :
  index_last l w = (Ok a, w') -> a = nth (length l - 1) l d /\ w' = w.
Proof.
  unfold index_last. destruct l as [|x l]; [discriminate|].
  intros H. apply index_ok with (d := d) in H. tauto.
Qed.

Lemma sequential_body_ok floglike D xlb xub flogprior B N beta X S i st w
    st' w' :
  sequential_body floglike D xlb xub flogprior B N beta X S i st w
  = (Ok st', w') ->
  exists iChain iAccept iLogPost,
    st' = store N i iChain iAccept iLogPost st /\
    retained_run floglike flogprior beta B N D xlb xub X S i
                 iChain iAccept iLogPost.
Proof.
  unfold sequential_body. intros H.
  apply bind_ok in H. destruct H as (x0 & w1 & E0 & H).
  apply bind_ok in H. destruct H as ([[bChain bAccept] bLogPost] & w2 & Eb & H).
  apply bind_ok in H. destruct H as (xb & w3 & El & H).
  apply bind_ok in H. destruct H as ([[iChain iAccept] iLogPost] & w4 & Ei & H).
  injection H as <- _.
  exists iChain, iAccept, iLogPost. split; [reflexivity|].
  apply index_last_ok with (d := []) in El. destruct El as [-> ->].
  exists x0, bChain, bAccept, bLogPost, w1, w2, w2, w4.
  split; [|split; assumption].
  unfold index in E0. destruct (nth_error X i); [|discriminate].
  now injection E0 as -> _.
Qed.

Lemma map_py_ok {A B : Type} (f : A -> Py B) (xs : list A) (ys : list B)
    (w w' : World) :
  map_py f xs w = (Ok ys, w') ->
  Forall2 (fun x y => exists w1 w2, f x w1 = (Ok y, w2)) xs ys.
Proof.
  revert ys w w'; induction xs as [|x xs IH]; intros ys w w'; simpl.
  - intros [= <- _]. constructor.
  - intros H. apply bind_ok in H. destruct H as (b & w1 & Eb & H).
    apply bind_ok in H. destruct H as (bs & w2 & Ebs & H).
    injection H as <- _. constructor.
    + exists w, w1. exact Eb.
    + apply (IH bs w1 w2 Ebs).
Qed.

Lemma pool_tasks_ok {A B : Type} (worker : nat -> RandomState)
    (f : A -> Py B) (j : nat) (xs : list A) (ys : list B) (w w' : World) :
  pool_tasks worker f j xs w = (Ok ys, w') ->
  Forall2 (fun x y => exists w1 w2, f x w1 = (Ok y, w2)) xs ys.
Proof.
  revert j ys w w'; induction xs as [|x xs IH]; intros j ys w w'; simpl.
  - intros [= <- _]. constructor.
  - destruct (f x _) as [[b|e] w1] eqn:Eb.
    2:{ destruct (pool_tasks worker f (S j) xs _) as [rs w2]. discriminate. }
    destruct (pool_tasks worker f (S j) xs _) as [[bs|e] w2] eqn:Ebs;
      [|discriminate].
    intros H. injection H as <- _. constructor.
    + eexists _, w1. exact Eb.
    + apply (IH (S j) bs _ _ Ebs).
Qed.

Lemma pool_tasks_cons_ok {A B : Type} (worker : nat -> RandomState)
    (f : A -> Py B) (j : nat) (x : A) (xs : list A) (b : B) (w w1 : World) :
  f x (mkWorld (worker j) (nscore w)) = (Ok b, w1) ->
  pool_tasks worker f j (x :: xs) w
  = bind (pool_tasks worker f (S j) xs) (fun bs => ret (b :: bs))
         (mkWorld (rng w) (nscore w1)).
Proof.
  intros E. simpl. rewrite E. unfold bind, ret.
  destruct (pool_tasks worker f (S j) xs _) as [[bs|e] w2]; reflexivity.
Qed.

(** A batch whose tasks all raise runs every task and raises. *)
Lemma pool_tasks_all_raise {A B : Type} (worker : nat -> RandomState)
    (f : A -> Py B) (e : exn) (k : nat) (xs : list A) :
  Forall (fun x => forall w0, exists w1,
            f x w0 = (Raise e, w1) /\ nscore w1 = (nscore w0 + k)%nat) xs ->
  forall j w, xs <> [] ->
    pool_tasks worker f j xs w
    = (Raise e, mkWorld (rng w) (nscore w + length xs * k)).
Proof.
  induction 1 as [|x xs Hx Hxs IH]; intros j w Hne; [congruence|].
  simpl pool_tasks.
  destruct (Hx (mkWorld (worker j) (nscore w))) as (w1 & E & Hn).
  rewrite E. simpl in Hn. destruct xs as [|y ys].
  - simpl. f_equal. f_equal. lia.
  - rewrite IH by discriminate. simpl. f_equal. f_equal. lia.
Qed.

Lemma map_py_image {A B : Type} (X : list A) (f : A -> B) (l : list nat)
    (ys : list B) (w w' : World) :
  map_py (fun i => x0 <- index X i ;; ret (f x0)) l w = (Ok ys, w') ->
  Forall (fun y => exists x0, y = f x0) ys.
Proof.
  intros H. apply map_py_ok in H.
  induction H as [|i y l ys (w1 & w2 & E) _ IH]; constructor; [|exact IH].
  apply bind_ok in E. destruct E as (x0 & w3 & _ & E).
  injection E as <- _. now exists x0.
Qed.

Lemma Forall2_nth_error {A B : Type} (R : A -> B -> Prop) (xs : list A)
    (ys : list B) (i : nat) (y : B) :
  Forall2 R xs ys -> nth_error ys i = Some y ->
  exists x, nth_error xs i = Some x /\ R x y.
Proof.
  intros H; revert i; induction H as [|x0 y0 xs ys HR H IH]; intros [|i];
    simpl; try discriminate.
  - intros [= ->]. eauto.
  - apply IH.
Qed.

Lemma ParaMC_ok (xpara : para) (r : chain_res) (w w' : World) :
  ParaMC xpara w = (Ok r, w') ->
  MChain (p_floglike xpara) (p_flogprior xpara) (p_beta xpara) (p_N xpara)
         (p_D xpara) (p_xlb xpara) (p_xub xpara) (p_X xpara) (p_sigma xpara) w
  = (Ok (r_Chain r, r_Accept r, r_LogPost r), w').
Proof.
  unfold ParaMC. intros H. apply bind_ok in H.
  destruct H as ([[C a] LP] & w1 & E & H). injection H as <- <-. exact E.
Qed.

Lemma index_ok_error {A : Type} (l : list A) (i : nat) (w w' : World) (a : A) :
  index l i w = (Ok a, w') -> nth_error l i = Some a /\ w' = w.
Proof.
  unfold index. destruct (nth_error l i) as [x|]; [|discriminate].
  intros [= <- <-]. auto.
Qed.

Lemma nth_error_seq (a n i k : nat) :
  nth_error (seq a n) i = Some k -> k = (a + i)%nat /\ (i < n)%nat.
Proof.
  intros H. assert (Hi : (i < length (seq a n))%nat).
  { apply nth_error_Some. congruence. }
  rewrite length_seq in Hi. split; [|exact Hi].
  apply nth_error_nth with (d := 0%nat) in H. rewrite seq_nth in H by exact Hi.
  lia.
Qed.

Section Merge.

Variable worker : nat -> nat -> RandomState.
Variable floglike : vec -> R.
Variable D : nat.
Variables xlb xub : vec.
Variable flogprior : option (vec -> R).
Variables B N M : nat.
Variable beta : R.
Variables X Sg : mat.

Local Abbreviation retained :=
  (retained_run floglike flogprior beta B N D xlb xub X Sg).

Lemma sequential_loop_ok (st0 st : sampler_state) (w w' : World) :
  for_range M (sequential_body floglike D xlb xub flogprior B N beta X Sg) st0 w
  = (Ok st, w') ->
  merged_upto retained N M 0 st0 -> merged_upto retained N M M st.
Proof.
  intros H H0. unfold for_range in H.
  apply (@for_each_ok _ (merged_upto retained N M) _ M 0) in H; auto.
  intros i s w0 s' w0' Hi HI Hb.
  destruct (sequential_body_ok _ _ _ _ _ _ _ _ _ _ _ _ _ _ _ Hb)
    as (iC & iA & iL & -> & Hrun).
  pose proof Hrun as (x0 & bC & bA & bL & w0_ & w1 & w2 & w3 & _ & _ & Ei).
  apply MChain_ok_lengths in Ei. destruct Ei as [HC HL].
  apply store_merged_upto; auto; lia.
Qed.

Lemma parallel_branch_ok (st0 st : sampler_state) (w w' : World) :
  parallel_branch worker floglike D xlb xub flogprior B N M beta X Sg st0 w
  = (Ok st, w') ->
  merged_upto retained N M 0 st0 -> merged_upto retained N M M st.
Proof.
  unfold parallel_branch. intros H H0.
  apply bind_ok in H. destruct H as (bpara & w1 & Ebp & H).
  apply bind_ok in H. destruct H as (bres & w2 & Ebr & H).
  apply bind_ok in H. destruct H as (ipara & w3 & Eip & H).
  apply bind_ok in H. destruct H as (ires & w4 & Eir & H).
  apply map_py_ok in Ebp. apply pool_tasks_ok in Ebr.
  apply map_py_ok in Eip. apply pool_tasks_ok in Eir.
  unfold for_range in H.
  apply (@for_each_ok _ (merged_upto retained N M) _ M 0) in H; auto.
  intros i s u s' u' Hi HI Hb.
  apply bind_ok in Hb. destruct Hb as (r & u1 & Er & Hb).
  injection Hb as <- _.
  apply index_ok_error in Er. destruct Er as [Er _].
  (* the sampling task of chain [i] *)
  destruct (Forall2_nth_error _ _ _ _ _ Eir Er) as (p & Ep & wa & wb & Erun).
  apply ParaMC_ok in Erun.
  destruct (Forall2_nth_error _ _ _ _ _ Eip Ep) as (i' & Ei' & wc & wd & Emk).
  apply nth_error_seq in Ei'. destruct Ei' as [-> _]. simpl in Emk.
  apply bind_ok in Emk. destruct Emk as (r0 & wc1 & Er0 & Emk).
  apply bind_ok in Emk. destruct Emk as (xb & wc2 & Exb & Emk).
  injection Emk as <- _. simpl in Erun.
  apply index_ok_error in Er0. destruct Er0 as [Er0 _].
  apply index_last_ok with (d := []) in Exb. destruct Exb as [-> _].
  (* the burn-in task of chain [i] *)
  destruct (Forall2_nth_error _ _ _ _ _ Ebr Er0) as (pb & Epb & we & wf & Eburn).
  apply ParaMC_ok in Eburn.
  destruct (Forall2_nth_error _ _ _ _ _ Ebp Epb) as (i' & Ei' & wg & wh & Emk).
  apply nth_error_seq in Ei'. destruct Ei' as [-> _]. simpl in Emk.
  apply bind_ok in Emk. destruct Emk as (x0 & wg1 & Ex0 & Emk).
  injection Emk as <- _. simpl in Eburn.
  apply index_ok_error in Ex0. destruct Ex0 as [Ex0 _].
  destruct (MChain_ok_lengths _ _ _ _ _ _ _ _ _ _ _ _ _ _ Erun) as [HC HL].
  apply store_merged_upto; auto; try lia.
  exists x0, (r_Chain r0), (r_Accept r0), (r_LogPost r0), we, wf, wa, wb.
  auto.
Qed.

End Merge.

Lemma merged_upto_initial P N M D :
  merged_upto P N M 0
    (mkSamplerState (repeat (Np.zeros2 N D) M) (Np.zeros2 M N)
       (Np.zeros2 (M * N) D) (Np.zeros (M * N)) (Np.zeros M)).
Proof.
  unfold merged_upto, Np.zeros2, Np.zeros; simpl. rewrite !repeat_length.
  repeat (split; [reflexivity|]). intros i Hi; lia.
Qed.


(** ** Chains in which every candidate is accepted *)

Lemma walk_length (f : vec -> vec) (n : nat) (x : vec) :
  length (walk f n x) = n.
Proof. revert x; induction n as [|n IH]; intros x; simpl; auto. Qed.

Lemma walk_nth (f : vec -> vec) (n j : nat) (x : vec) :
  (j < n)%nat -> nth j (walk f n x) [] = Nat.iter (S j) f x.
Proof.
  revert j x; induction n as [|n IH]; intros [|j] x Hj; simpl; try lia; auto.
  rewrite IH by lia. simpl. now rewrite <- !Nat.iter_swap.
Qed.

Lemma list_eq_nth {A : Type} (d : A) (l l' : list A) :
  length l = length l' ->
  (forall j, (j < length l)%nat -> nth j l d = nth j l' d) -> l = l'.
Proof.
  intros Hlen H. apply nth_ext with (d := d) (d' := d); auto.
Qed.

Lemma map_nth_inside {A B : Type} (f : A -> B) (l : list A) (j : nat)
    (d : B) (d' : A) :
  (j < length l)%nat -> nth j (map f l) d = f (nth j l d').
Proof.
  intros Hj. rewrite nth_indep with (d' := f d') by now rewrite length_map.
  apply map_nth.
Qed.

Lemma MChain_walk floglike flogprior beta N D xlb xub X sigma L z g u n0 :
  cholesky sigma = Ok L -> (1 <= N)%nat ->
  let f := drift D xlb xub L z in
  let score := flogpost floglike flogprior beta xlb xub in
  MChain floglike flogprior beta N D xlb xub X sigma (steady z g u n0)
  = (Ok (walk f N X, INR N / INR N, map score (walk f N X)),
     steady z (g + N * D) (u + N) (S n0 + N)).
Proof.
  intros HL HN f score.
  destruct (@MChain_returns floglike flogprior beta N D xlb xub
    (fun k st w1 =>
       w1 = steady z (g + k * D) (u + k) (S n0 + k) /\
       cur_X st = Nat.iter k f X /\ cur_pX st = score (Nat.iter k f X) /\
       cur_Accept st = INR k /\
       length (cur_Chain st) = N /\ length (cur_LogPost st) = N /\
       forall j, (j < k)%nat ->
         nth j (cur_Chain st) [] = Nat.iter (S j) f X /\
         nth j (cur_LogPost st) 0 = score (Nat.iter (S j) f X))
    X sigma L (steady z g u n0) HL HN)
    as (st & w' & E & -> & _ & _ & EA & HC & HP & Hrows).
  - simpl. unfold steady, Np.zeros2, Np.zeros. rewrite !repeat_length.
    rewrite !Nat.add_0_r. repeat (split; [reflexivity|]).
    intros j Hj. lia.
  - intros i st w1 Hi (-> & EX & EP & EA & HC & HP & Hrows).
    destruct (MChain_step_run floglike flogprior beta D xlb xub L i st
                (steady z (g + i * D) (u + i) (S n0 + i)))
      as (st' & E & EC & EPo & Hcase).
    exists st', (after_step D (steady z (g + i * D) (u + i) (S n0 + i))).
    split; [exact E|].
    destruct Hcase as [(_ & EX' & EP' & EA')|(Hrej & _)].
    2:{ exfalso. apply Hrej. unfold next_uniform, steady. simpl.
        apply Rlt_le, ratio_pos. }
    assert (EXn : cur_X st' = Nat.iter (S i) f X).
    { rewrite EX', EX. reflexivity. }
    split. { unfold after_step, steady. simpl. f_equal; [f_equal|]; lia. }
    split; [exact EXn|]. split. { now rewrite EP', <- EXn, EX'. }
    split. { rewrite EA', EA, S_INR. reflexivity. }
    rewrite EC, EPo, !set_nth_length. repeat (split; [assumption|]).
    intros j Hj. destruct (Nat.eq_dec i j) as [<-|Hne].
    + rewrite !set_nth_same by lia. split; [exact EXn|].
      now rewrite EP', <- EXn, EX'.
    + rewrite !set_nth_other by exact Hne. apply Hrows. lia.
  - assert (E1 : cur_Chain st = walk f N X).
    { apply list_eq_nth with (d := []); [now rewrite walk_length|].
      intros j Hj. rewrite HC in Hj.
      rewrite walk_nth by exact Hj.
      now apply Hrows. }
    assert (E2 : cur_LogPost st = map score (walk f N X)).
    { apply list_eq_nth with (d := 0); [now rewrite length_map, walk_length|].
      intros j Hj. rewrite HP in Hj.
      rewrite map_nth_inside with (d' := [])
        by (rewrite walk_length; exact Hj).
      rewrite walk_nth by exact Hj. now apply Hrows. }
    rewrite E, E1, E2, EA. reflexivity.
Qed.

(** ** Running the sampler on concrete inputs *)

Lemma bind_eval_ok {A B : Type} (c : Py A) (k : A -> Py B) (w w1 : World)
    (a : A) :
  c w = (Ok a, w1) -> bind c k w = k a w1.
Proof. intros E. unfold bind. now rewrite E. Qed.

Lemma bind_eval_raise {A B : Type} (c : Py A) (k : A -> Py B) (w w1 : World)
    (e : exn) :
  c w = (Raise e, w1) -> bind c k w = (Raise e, w1).
Proof. intros E. unfold bind. now rewrite E. Qed.

Lemma index_eval {A : Type} (l : list A) (i : nat) (a : A) (w : World) :
  nth_error l i = Some a -> index l i w = (Ok a, w).
Proof. intros E. unfold index. now rewrite E. Qed.

Lemma drift_unit_at_rest (x : R) :
  -10 <= x <= 10 -> drift 1 [-10] [10] [[1]] 0 [x] = [x].
Proof.
  intros Hx. unfold drift. np_unfold. f_equal. Rminmax.
Qed.

(** C5 fails as stated.  With two chains and a single initial point the
    first chain runs its burn-in and its sampling phase, which draw two
    candidates and compute four posterior scores, before the missing second
    initial point raises. *)
Lemma sampler_runs_chain_before_shape_error :
  sampler inv_1x1 eig_1x1 (fun _ _ => constant_tape 0 0) (fun _ => 0) 1
          [-10] [10] (Some [[0]]) None 1 1 1 2 (Some [[1]]) false
          (steady 0 0 0 0)
  = (Raise IndexError, steady 0 2 2 4).
Proof.
  unfold sampler.
  apply bind_eval_raise. unfold sampler_chains.
  destruct (Req_dec_T 1 0) as [H|_]; [lra|].
  unfold for_range. simpl seq. simpl for_each.
  unfold bind at 1, ret at 1. unfold bind at 1, ret at 1.
  unfold bind at 1, ret at 1.
  erewrite bind_eval_ok.
  2:{ unfold sequential_body.
      erewrite bind_eval_ok by (apply index_eval; reflexivity).
      erewrite bind_eval_ok
        by (apply MChain_walk with (L := [[1]]);
            [exact cholesky_1x1_unit|lia]).
      cbn [walk]. rewrite drift_unit_at_rest by lra.
      erewrite bind_eval_ok by reflexivity.
      erewrite bind_eval_ok
        by (apply MChain_walk with (L := [[1]]);
            [exact cholesky_1x1_unit|lia]).
      reflexivity. }
  apply bind_eval_raise. unfold sequential_body.
  apply bind_eval_raise. reflexivity.
Qed.

(** ** Finite sums *)

Lemma rsum_ext (n : nat) (f g : nat -> R) :
  (forall i, (i < n)%nat -> f i = g i) -> rsum n f = rsum n g.
Proof.
  induction n as [|n IH]; intros H; simpl; auto.
  rewrite IH, H by (intros; auto with arith; apply H; lia). reflexivity.
Qed.

Lemma rsum_zero (n : nat) (f : nat -> R) :
  (forall i, (i < n)%nat -> f i = 0) -> rsum n f = 0.
Proof.
  induction n as [|n IH]; intros H; simpl; auto.
  rewrite IH, H by (intros; auto with arith; apply H; lia). lra.
Qed.

Lemma rsum_single (n m : nat) (f : nat -> R) :
  (m < n)%nat -> (forall i, (i < n)%nat -> i <> m -> f i = 0) ->
  rsum n f = f m.
Proof.
  induction n as [|n IH]; intros Hm H; [lia|]. simpl.
  destruct (Nat.eq_dec m n) as [->|Hne].
  - rewrite rsum_zero; [lra|]. intros i Hi. apply H; lia.
  - rewrite IH, (H n) by (try lia; intros; apply H; lia). lra.
Qed.

Lemma rsum_plus (n : nat) (f g : nat -> R) :
  rsum n (fun i => f i + g i) = rsum n f + rsum n g.
Proof. induction n as [|n IH]; simpl; [|rewrite IH]; lra. Qed.

Lemma rsum_scale (n : nat) (c : R) (f : nat -> R) :
  rsum n (fun i => c * f i) = c * rsum n f.
Proof. induction n as [|n IH]; simpl; [|rewrite IH]; lra. Qed.

Lemma rsum_nonneg (n : nat) (f : nat -> R) :
  (forall i, (i < n)%nat -> 0 <= f i) -> 0 <= rsum n f.
Proof.
  induction n as [|n IH]; intros H; simpl; [lra|].
  specialize (H n ltac:(lia)) as Hn.
  assert (0 <= rsum n f) by (apply IH; intros; apply H; lia). lra.
Qed.

Lemma rsum_nonneg_zero (n : nat) (f : nat -> R) :
  (forall i, (i < n)%nat -> 0 <= f i) -> rsum n f = 0 ->
  forall i, (i < n)%nat -> f i = 0.
Proof.
  induction n as [|n IH]; intros H E i Hi; [lia|]. simpl in E.
  assert (Hn : 0 <= f n) by (apply H; lia).
  assert (Hs : 0 <= rsum n f) by (apply rsum_nonneg; intros; apply H; lia).
  destruct (Nat.eq_dec i n) as [->|Hne]; [lra|].
  apply IH; try lia; [intros; apply H; lia | lra].
Qed.

Lemma rsum_more_zeros (n m : nat) (f : nat -> R) :
  (m <= n)%nat -> (forall i, (m <= i < n)%nat -> f i = 0) ->
  rsum n f = rsum m f.
Proof.
  induction n as [|n IH]; intros Hm H.
  - replace m with 0%nat by lia. reflexivity.
  - destruct (Nat.eq_dec m (S n)) as [->|Hne]; [reflexivity|].
    simpl. rewrite IH, (H n) by (try lia; intros; apply H; lia). lra.
Qed.

(** ** Dot products and matrix products by index *)

Lemma dot_nil_l (v : vec) : Np.dot [] v = 0.
Proof. reflexivity. Qed.

Lemma dot_cons (a b : R) (u v : vec) :
  Np.dot (a :: u) (b :: v) = a * b + Np.dot u v.
Proof. reflexivity. Qed.

Lemma dot_comm (u v : vec) : Np.dot u v = Np.dot v u.
Proof.
  revert v; induction u as [|a u IH]; intros [|b v]; try reflexivity.
  rewrite !dot_cons, IH. lra.
Qed.

Lemma rsum_shift (n : nat) (f : nat -> R) :
  rsum (S n) f = f 0%nat + rsum n (fun i => f (S i)).
Proof.
  induction n as [|n IH]; [simpl; lra|].
  change (rsum (S (S n)) f) with (rsum (S n) f + f (S n)).
  rewrite IH. simpl. lra.
Qed.

Lemma dot_rsum (n : nat) (u v : vec) :
  (length u <= n)%nat \/ (length v <= n)%nat ->
  Np.dot u v = rsum n (fun t => nth t u 0 * nth t v 0).
Proof.
  revert u v; induction n as [|n IH]; intros u v H.
  - destruct u as [|a u]; [reflexivity|]. destruct v as [|b v]; [|simpl in H; lia].
    reflexivity.
  - rewrite rsum_shift. destruct u as [|a u]; [|destruct v as [|b v]].
    + rewrite dot_nil_l. rewrite rsum_zero; [simpl; lra|].
      intros i _. destruct i; simpl; lra.
    + rewrite dot_comm, dot_nil_l. rewrite rsum_zero; [simpl; lra|].
      intros i _. destruct i; simpl; lra.
    + rewrite dot_cons. simpl nth at 1 2. f_equal.
      rewrite (IH u v) by (simpl in H; lia). reflexivity.
Qed.

Lemma dot_app (u u' v v' : vec) :
  length u = length v ->
  Np.dot (u ++ u') (v ++ v') = Np.dot u v + Np.dot u' v'.
Proof.
  revert v; induction u as [|a u IH]; intros [|b v] H; simpl in H; try lia.
  - simpl app. rewrite (dot_nil_l []). lra.
  - simpl app. rewrite !dot_cons, IH by lia. lra.
Qed.

Lemma dot_zeros_l (n : nat) (v : vec) : Np.dot (Np.zeros n) v = 0.
Proof.
  revert v; induction n as [|n IH]; intros [|b v]; try reflexivity.
  change (Np.zeros (S n)) with (0 :: Np.zeros n). rewrite dot_cons, IH. lra.
Qed.

Lemma nth_zeros (n t : nat) : nth t (Np.zeros n) 0 = 0.
Proof.
  unfold Np.zeros. revert t; induction n as [|n IH]; intros [|t]; simpl; auto.
Qed.

Lemma nth_firstn_lt {A : Type} (l : list A) (n t : nat) (d : A) :
  (t < n)%nat -> nth t (firstn n l) d = nth t l d.
Proof.
  revert n t; induction l as [|a l IH]; intros [|n] [|t] H; simpl; try lia; auto.
  apply IH. lia.
Qed.

(** ** The Cholesky factor *)

Lemma chol_offdiag_spec (a : vec) (rest : mat) (j : nat) (acc : vec) :
  length acc = j ->
  firstn j (chol_offdiag a rest j acc) = acc /\
  forall t, (t < length rest)%nat ->
    nth (j + t) (chol_offdiag a rest j acc) 0
    = (nth (j + t) a 0
       - Np.dot (firstn (j + t) (chol_offdiag a rest j acc)) (nth t rest []))
      / nth (j + t) (nth t rest []) 0.
Proof.
  revert j acc; induction rest as [|Lj rest IH]; intros j acc Hacc; simpl.
  - split; [subst j; apply firstn_all|]. intros t Ht; lia.
  - set (x := (nth j a 0 - Np.dot acc Lj) / nth j Lj 0).
    destruct (IH (S j) (acc ++ [x])) as [Hfirst Hrest].
    { rewrite length_app. simpl. lia. }
    set (off := chol_offdiag a rest (S j) (acc ++ [x])) in *.
    assert (Hj : firstn j off = acc).
    { replace j with (Nat.min j (S j)) at 1 by lia.
      rewrite <- firstn_firstn, Hfirst.
      rewrite firstn_app, Hacc, Nat.sub_diag. simpl. rewrite app_nil_r.
      subst j. apply firstn_all. }
    split; [exact Hj|].
    intros [|t] Ht.
    + rewrite Nat.add_0_r, Hj.
      rewrite <- (nth_firstn_lt off (S j)) by lia.
      rewrite Hfirst, app_nth2 by lia. rewrite Hacc, Nat.sub_diag. reflexivity.
    + rewrite <- Nat.add_succ_comm. apply Hrest. lia.
Qed.

Lemma chol_offdiag_dot (a : vec) (prev : mat) (j : nat) :
  (j < length prev)%nat ->
  nth j (nth j prev []) 0 <> 0 ->
  let off := chol_offdiag a prev 0 [] in
  rsum j (fun t => nth t off 0 * nth t (nth j prev []) 0)
  + nth j off 0 * nth j (nth j prev []) 0 = nth j a 0.
Proof.
  intros Hj Hd off.
  destruct (chol_offdiag_spec a prev 0%nat [] eq_refl) as [_ H].
  specialize (H j Hj). simpl in H. fold off in H. rewrite H.
  rewrite (dot_rsum j) by (left; rewrite length_firstn; lia).
  rewrite (rsum_ext j (fun t => nth t (firstn j off) 0 * nth t (nth j prev []) 0)
                     (fun t => nth t off 0 * nth t (nth j prev []) 0)).
  - field. exact Hd.
  - intros t Ht. now rewrite nth_firstn_lt.
Qed.

Lemma chol_row_spec (D : nat) (a : vec) (prev : mat) (r : vec) :
  chol_row D a prev = Some r -> (length prev < D)%nat ->
  (forall i, (i < length prev)%nat -> 0 < entry prev i i) ->
  (forall i t, (i < length prev)%nat -> (i < t)%nat -> entry prev i t = 0) ->
  length r = D /\
  0 < nth (length prev) r 0 /\
  (forall t, (length prev < t)%nat -> nth t r 0 = 0) /\
  Np.dot r r = nth (length prev) a 0 /\
  forall j, (j < length prev)%nat -> Np.dot r (nth j prev []) = nth j a 0.
Proof.
  intros Hr Hk Hdiag Htri.
  pose proof (chol_row_length _ _ _ _ Hr Hk) as Hlen.
  revert Hr Hlen. unfold chol_row.
  set (off := chol_offdiag a prev 0 []).
  set (d := nth (length prev) a 0 - Np.dot off off).
  destruct (Rlt_dec 0 d) as [Hd|_]; [|discriminate].
  intros [= <-] Hlen.
  assert (Hoff : length off = length prev).
  { unfold off. rewrite chol_offdiag_length. reflexivity. }
  split; [exact Hlen|]. split; [|split; [|split]].
  - rewrite app_nth2 by lia. rewrite Hoff, Nat.sub_diag. simpl.
    now apply sqrt_lt_R0.
  - intros t Ht. rewrite app_nth2 by lia. rewrite Hoff.
    destruct (t - length prev)%nat as [|m] eqn:E; [lia|]. simpl.
    apply nth_zeros.
  - rewrite dot_app by reflexivity. rewrite dot_cons, dot_zeros_l.
    rewrite sqrt_sqrt by lra. unfold d. lra.
  - intros j Hj.
    rewrite (dot_rsum D) by (left; lia).
    rewrite (rsum_more_zeros D (S j)); [|lia|].
    2:{ intros t Ht. unfold entry in Htri. rewrite (Htri j t) by lia. lra. }
    simpl rsum.
    rewrite (rsum_ext j _ (fun t => nth t off 0 * nth t (nth j prev []) 0)).
    2:{ intros t Ht. rewrite app_nth1 by lia. reflexivity. }
    rewrite (app_nth1 off) by lia.
    apply (chol_offdiag_dot a prev j Hj).
    specialize (Hdiag j Hj). unfold entry in Hdiag.
    apply Rgt_not_eq. exact Hdiag.
Qed.

Lemma chol_rows_spec (A0 : mat) (D : nat) (rest done prev L : mat) :
  chol_rows D rest prev = Some L ->
  A0 = done ++ rest -> length done = length prev -> (length A0 <= D)%nat ->
  chol_inv A0 D prev ->
  chol_inv A0 D L /\ length L = length A0.
Proof.
  revert done prev; induction rest as [|a rest IH]; intros done prev; simpl.
  - intros [= <-] -> Hlen _ Hinv. rewrite app_nil_r in *.
    split; [exact Hinv|now symmetry].
  - destruct (chol_row D a prev) as [r|] eqn:Er; [|discriminate].
    intros HL HA Hlen HD (Hrows & Hdiag & Htri & Hgram).
    assert (Hk : (length prev < D)%nat).
    { rewrite HA, length_app in HD. simpl in HD. lia. }
    destruct (chol_row_spec _ _ _ _ Er Hk Hdiag Htri)
      as (Hr1 & Hr2 & Hr3 & Hr4 & Hr5).
    assert (Ha : forall j, nth j a 0 = entry A0 (length prev) j).
    { intros j. unfold entry. rewrite HA, app_nth2 by lia.
      rewrite Hlen, Nat.sub_diag. reflexivity. }
    apply (IH (done ++ [a]) (prev ++ [r])); auto.
    + rewrite HA, <- app_assoc. reflexivity.
    + rewrite !length_app. simpl. lia.
    + unfold chol_inv. rewrite length_app. simpl length.
      assert (Hnth : forall i, (i < length prev + 1)%nat ->
                (i < length prev)%nat /\ nth i (prev ++ [r]) [] = nth i prev []
                \/ i = length prev /\ nth i (prev ++ [r]) [] = r).
      { intros i Hi. destruct (Nat.eq_dec i (length prev)) as [->|Hne].
        - right. split; [reflexivity|]. rewrite app_nth2 by lia.
          now rewrite Nat.sub_diag.
        - left. split; [lia|]. apply app_nth1. lia. }
      split; [|split; [|split]].
      * apply Forall_app. split; [exact Hrows|]. repeat constructor. exact Hr1.
      * intros i Hi. unfold entry.
        destruct (Hnth i Hi) as [[Hlt ->]|[-> ->]]; [now apply Hdiag|exact Hr2].
      * intros i t Hi Ht. unfold entry.
        destruct (Hnth i Hi) as [[Hlt ->]|[-> ->]];
          [now apply Htri|now apply Hr3].
      * intros i j Hi Hj.
        destruct (Hnth i Hi) as [[Hlt ->]|[-> ->]].
        -- destruct (Hnth j ltac:(lia)) as [[Hlt' ->]|[-> _]]; [|lia].
           now apply Hgram.
        -- rewrite <- Ha.
           destruct (Hnth j ltac:(lia)) as [[Hlt' ->]|[-> ->]];
             [now apply Hr5|exact Hr4].
Qed.

Lemma cholesky_factor (A L : mat) (D : nat) :
  cholesky A = Ok L -> length A = D -> chol_inv A D L /\ length L = D.
Proof.
  unfold cholesky. destruct (chol_rows (length A) A []) as [L'|] eqn:E;
    [|discriminate].
  intros [= <-] HD. rewrite HD in E.
  destruct (chol_rows_spec A D A [] [] L' E eq_refl eq_refl) as [H1 H2].
  - lia.
  - unfold chol_inv. simpl. repeat split; try constructor; intros; lia.
  - split; [exact H1|lia].
Qed.

(** ** Products with a vector *)

Lemma dot_vadd_l (a b r : vec) :
  length a = length b ->
  Np.dot (Np.vadd a b) r = Np.dot a r + Np.dot b r.
Proof.
  revert b r; induction a as [|x a IH]; intros [|y b] [|z r] H;
    simpl in H; try lia;
    try (rewrite ?dot_nil_l; unfold Np.dot, Np.vadd; simpl; lra).
  change (Np.vadd (x :: a) (y :: b)) with ((x + y) :: Np.vadd a b).
  rewrite !dot_cons, IH by lia. lra.
Qed.

Lemma dot_vscale_l (c : R) (a r : vec) :
  Np.dot (Np.vscale c a) r = c * Np.dot a r.
Proof.
  revert r; induction a as [|x a IH]; intros [|z r];
    try (unfold Np.dot; simpl; lra).
  change (Np.vscale c (x :: a)) with ((c * x) :: Np.vscale c a).
  rewrite !dot_cons, IH. lra.
Qed.

Lemma dot_vec_mat (D : nat) (v : vec) (L : mat) (r : vec) :
  Forall (fun row => length row = D) L ->
  Np.dot (Np.vec_mat D v L) r = Np.dot v (Np.mat_vec L r).
Proof.
  revert v; induction L as [|row L IH]; intros [|c v] HL;
    try (unfold Np.vec_mat; simpl; rewrite dot_zeros_l; reflexivity).
  inversion HL as [|? ? Hrow HL']; subst.
  change (Np.vec_mat (length row) (c :: v) (row :: L))
    with (Np.vadd (Np.vscale c row) (Np.vec_mat (length row) v L)).
  change (Np.mat_vec (row :: L) r) with (Np.dot row r :: Np.mat_vec L r).
  rewrite dot_vadd_l, dot_vscale_l, dot_cons, IH by
    (try assumption; rewrite vscale_length, vec_mat_length; auto).
  reflexivity.
Qed.

Lemma vec_mat_nth (D : nat) (v : vec) (L : mat) (t : nat) :
  Forall (fun row => length row = D) L -> length v = length L -> (t < D)%nat ->
  nth t (Np.vec_mat D v L) 0
  = rsum (length L) (fun i => nth i v 0 * entry L i t).
Proof.
  intros HL Hv Ht. revert v Hv.
  induction L as [|row L IH]; intros [|c v] Hv; simpl in Hv; try lia.
  - unfold Np.vec_mat. simpl. apply nth_zeros.
  - inversion HL as [|? ? Hrow HL']; subst.
    change (Np.vec_mat (length row) (c :: v) (row :: L))
      with (Np.vadd (Np.vscale c row) (Np.vec_mat (length row) v L)).
    unfold Np.vadd. rewrite (zipWith_nth Rplus _ _ t 0 0 0)
      by (rewrite ?vscale_length, ?vec_mat_length; auto).
    rewrite IH by (auto; lia). simpl length. rewrite rsum_shift.
    unfold entry. simpl nth. f_equal.
    unfold Np.vscale. rewrite (map_nth_inside (Rmult c) row t 0 0) by exact Ht.
    reflexivity.
Qed.

Lemma lower_triangular_injective (D : nat) (L : mat) (v : vec) :
  length L = D -> length v = D ->
  Forall (fun row => length row = D) L ->
  (forall i, (i < D)%nat -> entry L i i <> 0) ->
  (forall i t, (i < D)%nat -> (i < t)%nat -> entry L i t = 0) ->
  (forall t, (t < D)%nat -> nth t (Np.vec_mat D v L) 0 = 0) ->
  forall i, (i < D)%nat -> nth i v 0 = 0.
Proof.
  intros HL Hv Hrows Hdiag Htri Hw.
  assert (Hdown : forall k m, (m + k = D)%nat ->
            forall i, (m <= i < D)%nat -> nth i v 0 = 0).
  { induction k as [|k IH]; intros m Hm i Hi; [lia|].
    destruct (Nat.eq_dec i m) as [->|Hne].
    - specialize (Hw m ltac:(lia)).
      rewrite vec_mat_nth in Hw by (auto; lia).
      rewrite HL, (rsum_single D m) in Hw; [| lia |].
      + apply Rmult_integral in Hw. destruct Hw as [Hw|Hw]; [exact Hw|].
        exfalso. apply (Hdiag m); [lia|exact Hw].
      + intros j Hj Hjm. destruct (Nat.lt_ge_cases j m) as [Hlt|Hge].
        * rewrite (Htri j m) by lia. lra.
        * rewrite (IH (S m)) by lia. lra.
    - apply (IH (S m)); lia. }
  intros i Hi. apply (Hdown D 0%nat); lia.
Qed.

Lemma dot_self_nonneg (w : vec) : 0 <= Np.dot w w.
Proof.
  induction w as [|x w IH]; [unfold Np.dot; simpl; lra|].
  rewrite dot_cons. nra.
Qed.

Lemma dot_self_zero (w : vec) :
  Np.dot w w = 0 -> forall t, nth t w 0 = 0.
Proof.
  induction w as [|x w IH]; intros H t.
  - destruct t; reflexivity.
  - rewrite dot_cons in H. pose proof (dot_self_nonneg w) as Hw.
    destruct t as [|t]; simpl; [nra|]. apply IH. nra.
Qed.

Lemma zeros_ext (D : nat) (v : vec) :
  length v = D -> (forall i, (i < D)%nat -> nth i v 0 = 0) -> v = Np.zeros D.
Proof.
  intros Hv H. apply (list_eq_nth 0).
  - now rewrite zeros_length.
  - intros j Hj. rewrite nth_zeros. apply H. lia.
Qed.

(** A matrix that the factorisation accepts is positive definite (when
    it is symmetric: the factorisation reads its lower triangle only). *)
Lemma cholesky_positive_definite (D : nat) (A L : mat) :
  cholesky A = Ok L -> square D A -> symmetric A -> positive_definite D A.
Proof.
  intros HL [HA Hrows] Hsym v Hv Hne.
  destruct (cholesky_factor A L D HL HA) as [(HLrows & Hdiag & Htri & Hgram) HLlen].
  set (w := Np.vec_mat D v L).
  assert (Hgram' : forall i j, (i < D)%nat -> (j < D)%nat ->
            Np.dot (nth j L []) (nth i L []) = entry A i j).
  { intros i j Hi Hj. destruct (Nat.le_gt_cases j i) as [Hle|Hgt].
    - rewrite dot_comm. apply Hgram; lia.
    - rewrite Hsym. apply Hgram; lia. }
  assert (HAv : Np.mat_vec A v = Np.mat_vec L w).
  { apply (list_eq_nth 0).
    - unfold Np.mat_vec. rewrite !length_map. lia.
    - intros i Hi. unfold Np.mat_vec in *. rewrite length_map in Hi.
      rewrite (map_nth_inside _ A i 0 []) by exact Hi.
      rewrite (map_nth_inside _ L i 0 []) by lia.
      rewrite (dot_comm _ w). unfold w. rewrite dot_vec_mat by exact HLrows.
      rewrite dot_comm. f_equal.
      apply (list_eq_nth 0).
      + unfold Np.mat_vec. rewrite length_map.
        rewrite Forall_forall in Hrows. rewrite (Hrows (nth i A [])); [lia|].
        apply nth_In. exact Hi.
      + intros j Hj. unfold Np.mat_vec.
        assert (HjD : (j < D)%nat).
        { rewrite Forall_forall in Hrows.
          rewrite (Hrows (nth i A [])) in Hj; [exact Hj|].
          apply nth_In. exact Hi. }
        rewrite (map_nth_inside _ L j 0 []) by lia.
        rewrite Hgram' by lia. reflexivity. }
  unfold quad. rewrite HAv, <- (dot_vec_mat D v L w HLrows). fold w.
  destruct (dot_self_nonneg w) as [Hpos|Hzero]; [exact Hpos|].
  exfalso. apply Hne. apply zeros_ext; [exact Hv|].
  apply (lower_triangular_injective D L v); auto.
  - intros i Hi. apply Rgt_not_eq. apply Hdiag. lia.
  - intros i t Hi Ht. apply Htri; lia.
  - intros t _. apply dot_self_zero. now symmetry.
Qed.

(** ** A covariance that does not factorise *)

Lemma cholesky_fails_not_positive_definite (D : nat) (s : mat) :
  square D s -> symmetric s -> ~ positive_definite D s ->
  cholesky s = Raise LinAlgError.
Proof.
  intros Hsq Hsym Hnpd. destruct (cholesky s) as [L|e] eqn:E.
  - exfalso. apply Hnpd. exact (cholesky_positive_definite D s L E Hsq Hsym).
  - revert E. unfold cholesky. destruct (chol_rows _ _ _); congruence.
Qed.

Lemma MChain_cholesky_fails floglike flogprior beta N D xlb xub X sigma e w :
  cholesky sigma = Raise e ->
  MChain floglike flogprior beta N D xlb xub X sigma w = (Raise e, w).
Proof.
  intros E. unfold MChain, bind, lift. now rewrite E.
Qed.

Lemma default_X_returns (D : nat) (xlb xub : vec) (M : nat) (w : World) :
  exists X w',
    default_X D xlb xub M w = (Ok X, w') /\ length X = M /\
    nscore w' = nscore w /\ gpos (rng w') = gpos (rng w).
Proof.
  unfold default_X, for_range.
  destruct (for_each_inv
    (fun (_ : nat) (X : mat) w1 =>
       length X = M /\ nscore w1 = nscore w /\ gpos (rng w1) = gpos (rng w))
    (fun i X =>
       r <- rand_vec D ;;
       ret (Np.set_nth i (Np.vadd (Np.vmul r (Np.vsub xub xlb)) xlb) X))
    M 0) with (s := Np.zeros2 M D) (w := w) as (X & w' & E & H).
  - intros i X w1 _ (HX & Hn & Hg). eexists _, _. split; [reflexivity|].
    simpl. rewrite set_nth_length. auto.
  - unfold Np.zeros2. rewrite repeat_length. auto.
  - exists X, w'. split; [exact E|exact H].
Qed.

Lemma map_py_index {A B : Type} (X : list A) (f : A -> B) (n a : nat)
    (w : World) :
  (a + n <= length X)%nat ->
  exists ys,
    map_py (fun i => x0 <- index X i ;; ret (f x0)) (seq a n) w = (Ok ys, w) /\
    length ys = n.
Proof.
  revert a; induction n as [|n IH]; intros a Hlen; simpl.
  - exists []. auto.
  - destruct (nth_error X a) as [x|] eqn:Ex.
    2:{ apply nth_error_None in Ex. lia. }
    destruct (IH (S a)) as (ys & E & Hys); [lia|].
    exists (f x :: ys). split; [|simpl; lia].
    rewrite (bind_eval_ok _ _ w w (f x)).
    + rewrite (bind_eval_ok _ _ w w ys E). reflexivity.
    + rewrite (bind_eval_ok _ _ w w x (index_eval X a x w Ex)). reflexivity.
Qed.

Section CovarianceFailure.

Variable worker : nat -> nat -> RandomState.
Variable floglike : vec -> R.
Variable D : nat.
Variables xlb xub : vec.
Variable flogprior : option (vec -> R).
Variables B N M : nat.
Variable beta : R.
Variables X s : mat.
Variable e : exn.

Hypothesis Hchol : cholesky s = Raise e.
Hypothesis HM : (1 <= M)%nat.
Hypothesis HX : (M <= length X)%nat.

Lemma sequential_fails (st : sampler_state) (w : World) :
  for_range M (sequential_body floglike D xlb xub flogprior B N beta X s) st w
  = (Raise e, w).
Proof.
  unfold for_range. destruct M as [|m]; [lia|]. simpl.
  apply bind_eval_raise. unfold sequential_body.
  destruct (nth_error X 0) as [x0|] eqn:E0.
  2:{ apply nth_error_None in E0. lia. }
  rewrite (bind_eval_ok _ _ w w x0 (index_eval X 0 x0 w E0)).
  apply bind_eval_raise. now apply MChain_cholesky_fails.
Qed.

Lemma parallel_fails (st : sampler_state) (w : World) :
  parallel_branch worker floglike D xlb xub flogprior B N M beta X s st w
  = (Raise e, w).
Proof.
  unfold parallel_branch.
  destruct (map_py_index X
              (fun x0 => mkPara floglike flogprior beta B D xlb xub x0 s)
              M 0 w) as (bpara & E & Hlen); [lia|].
  rewrite (bind_eval_ok _ _ w w bpara E).
  apply bind_eval_raise. unfold pool_map.
  rewrite (pool_tasks_all_raise (worker 0%nat) ParaMC e 0 bpara).
  - rewrite Nat.mul_0_r, Nat.add_0_r. destruct w; reflexivity.
  - apply map_py_image in E.
    apply (Forall_impl _ (P := fun p => exists x0,
             p = mkPara floglike flogprior beta B D xlb xub x0 s));
      [|exact E].
    intros p (x0 & ->) w0. exists w0. split; [|simpl; lia].
    unfold ParaMC. apply bind_eval_raise. simpl.
    now apply MChain_cholesky_fails.
  - destruct bpara; [simpl in Hlen; lia|discriminate].
Qed.

End CovarianceFailure.

(** C5, as the code has it.  With at least one chain, a temperature that
    is not zero and an initial point for every chain, a symmetric covariance
    that is not positive definite makes the sampler raise the error of the
    factorisation before any candidate is drawn and before any posterior
    score is computed. *)
Theorem sampler_rejects_covariance_before_sampling inv eig worker floglike D
    xlb xub Xinit flogprior T B N M s parallel (w : World) :
  square D s -> symmetric s -> ~ positive_definite D s ->
  T <> 0 -> (1 <= M)%nat ->
  (forall X0, Xinit = Some X0 -> (M <= length X0)%nat) ->
  exists w',
    sampler inv eig worker floglike D xlb xub Xinit flogprior T B N M
            (Some s) parallel w
    = (Raise LinAlgError, w') /\
    nscore w' = nscore w /\ gpos (rng w') = gpos (rng w).
Proof.
  intros Hsq Hsym Hnpd HT HM HX0.
  pose proof (cholesky_fails_not_positive_definite D s Hsq Hsym Hnpd) as Hc.
  assert (HX : exists X wX,
             match Xinit with
             | None => default_X D xlb xub M
             | Some X0 => ret X0
             end w = (Ok X, wX) /\ (M <= length X)%nat /\
             nscore wX = nscore w /\ gpos (rng wX) = gpos (rng w)).
  { destruct Xinit as [X0|].
    - exists X0, w. repeat split; auto.
    - destruct (default_X_returns D xlb xub M w) as (X & wX & E & HL & H).
      exists X, wX. split; [exact E|]. split; [lia|exact H]. }
  destruct HX as (X & wX & EX & HL & Hn & Hg).
  exists wX. split; [|split; assumption].
  unfold sampler. apply bind_eval_raise.
  rewrite sampler_chains_beta by exact HT.
  unfold bind at 1, ret at 1.
  rewrite (bind_eval_ok _ _ w wX X EX).
  destruct parallel.
  - now apply parallel_fails.
  - now apply sequential_fails.
Qed.

Lemma zero_1x1_square : square 1 [[0]].
Proof. split; [reflexivity|]. repeat constructor. Qed.

Lemma zero_1x1_symmetric : symmetric [[0]].
Proof.
  intros i j. unfold entry.
  destruct i as [|[|i]], j as [|[|j]]; reflexivity.
Qed.

Lemma zero_1x1_not_positive_definite : ~ positive_definite 1 [[0]].
Proof.
  intros H. specialize (H [1] eq_refl).
  assert (Hq : quad [[0]] [1] = 0) by (unfold quad; np_unfold; lra).
  rewrite Hq in H. apply (Rlt_irrefl 0). apply H.
  unfold Np.zeros. simpl. intros [= H1]. lra.
Qed.

Lemma sampler_rejects_covariance_before_sampling_witness :
  square 1 [[0]] /\ symmetric [[0]] /\ ~ positive_definite 1 [[0]] /\
  1 <> 0 /\ (1 <= 2)%nat /\
  exists w',
    sampler inv_1x1 eig_1x1 (fun _ _ => constant_tape 0 0) downhill 1
            [0] [1] None None 1 5 5 2 (Some [[0]]) false (fresh 0 0.5)
    = (Raise LinAlgError, w') /\
    nscore w' = nscore (fresh 0 0.5) /\
    gpos (rng w') = gpos (rng (fresh 0 0.5)).
Proof.
  split; [exact zero_1x1_square|]. split; [exact zero_1x1_symmetric|].
  split; [exact zero_1x1_not_positive_definite|].
  split; [lra|]. split; [lia|].
  apply (sampler_rejects_covariance_before_sampling inv_1x1 eig_1x1
           (fun _ _ => constant_tape 0 0) downhill 1 [0] [1] None None 1
           5 5 2 [[0]] false (fresh 0 0.5)
           zero_1x1_square zero_1x1_symmetric zero_1x1_not_positive_definite).
  - lra.
  - lia.
  - intros X0 H. discriminate H.
Defined.

(** ** The default covariance *)

Lemma zeros_snoc (n : nat) : Np.zeros n ++ [0] = Np.zeros (S n).
Proof.
  unfold Np.zeros. induction n as [|n IH]; simpl; [reflexivity|].
  now rewrite IH.
Qed.

Lemma chol_offdiag_zero (a : vec) (rest : mat) (j : nat) :
  (forall t, (t < length rest)%nat -> nth (j + t) a 0 = 0) ->
  chol_offdiag a rest j (Np.zeros j) = Np.zeros (j + length rest).
Proof.
  revert j; induction rest as [|Lj rest IH]; intros j H; simpl.
  - now rewrite Nat.add_0_r.
  - rewrite dot_zeros_l.
    assert (Hj : nth j a 0 = 0).
    { rewrite <- (Nat.add_0_r j). apply H. simpl. lia. }
    rewrite Hj.
    replace ((0 - 0) / nth j Lj 0) with 0 by (unfold Rdiv; ring).
    rewrite zeros_snoc, IH.
    + f_equal. lia.
    + intros t Ht. rewrite Nat.add_succ_comm. apply H. simpl. lia.
Qed.

Lemma chol_row_diagonal (D : nat) (a : vec) (prev : mat) :
  (forall j, (j < length prev)%nat -> nth j a 0 = 0) ->
  0 < nth (length prev) a 0 ->
  chol_row D a prev
  = Some (Np.zeros (length prev) ++ sqrt (nth (length prev) a 0)
          :: Np.zeros (D - S (length prev))).
Proof.
  intros Hoff Hd. unfold chol_row.
  change (chol_offdiag a prev 0 []) with (chol_offdiag a prev 0 (Np.zeros 0)).
  rewrite (chol_offdiag_zero a prev 0) by (intros t Ht; simpl; now apply Hoff).
  simpl Nat.add. rewrite dot_zeros_l, Rminus_0_r.
  destruct (Rlt_dec 0 (nth (length prev) a 0)) as [_|H]; [reflexivity|].
  contradiction.
Qed.

Lemma chol_rows_diagonal (D : nat) (rest prev : mat) :
  (forall t, (t < length rest)%nat ->
     (forall j, (j < length prev + t)%nat -> nth j (nth t rest []) 0 = 0) /\
     0 < nth (length prev + t) (nth t rest []) 0) ->
  exists L,
    chol_rows D rest prev = Some L /\
    length L = (length prev + length rest)%nat /\
    (forall i, (i < length prev)%nat -> nth i L [] = nth i prev []) /\
    forall t, (t < length rest)%nat ->
      nth (length prev + t) L []
      = Np.zeros (length prev + t)
        ++ sqrt (nth (length prev + t) (nth t rest []) 0)
        :: Np.zeros (D - S (length prev + t)).
Proof.
  revert prev; induction rest as [|a rest IH]; intros prev H; simpl.
  - exists prev. repeat split; auto; intros; lia.
  - destruct (H 0%nat ltac:(simpl; lia)) as [H0 H0'].
    rewrite Nat.add_0_r in H0, H0'. simpl in H0, H0'.
    rewrite (chol_row_diagonal D a prev H0 H0').
    set (r := Np.zeros (length prev) ++ sqrt (nth (length prev) a 0)
              :: Np.zeros (D - S (length prev))).
    destruct (IH (prev ++ [r])) as (L & E & HL & Hprev & Hrest).
    { intros t Ht. rewrite length_app. simpl length.
      replace (length prev + 1 + t)%nat with (length prev + S t)%nat by lia.
      apply (H (S t)). simpl. lia. }
    rewrite length_app in HL, Hprev, Hrest. simpl length in HL, Hprev, Hrest.
    exists L. split; [exact E|]. split; [lia|]. split.
    + intros i Hi. rewrite Hprev by lia. apply app_nth1. exact Hi.
    + intros [|t] Ht.
      * rewrite Nat.add_0_r. rewrite Hprev by lia.
        rewrite app_nth2 by lia. rewrite Nat.sub_diag. reflexivity.
      * replace (length prev + S t)%nat with (length prev + 1 + t)%nat by lia.
        apply Hrest. simpl in Ht. lia.
Qed.

Lemma diagonal_length (d : nat -> R) (D : nat) : length (diagonal d D) = D.
Proof. unfold diagonal. now rewrite length_map, length_seq. Qed.

Lemma diagonal_row (d : nat -> R) (D i : nat) :
  (i < D)%nat ->
  nth i (diagonal d D) []
  = map (fun j => if Nat.eqb i j then d i else 0) (seq 0 D).
Proof.
  intros Hi. unfold diagonal.
  rewrite (map_nth_inside _ (seq 0 D) i [] 0%nat) by now rewrite length_seq.
  now rewrite seq_nth.
Qed.

Lemma diagonal_entry (d : nat -> R) (D i j : nat) :
  (i < D)%nat -> (j < D)%nat ->
  entry (diagonal d D) i j = if Nat.eqb i j then d i else 0.
Proof.
  intros Hi Hj. unfold entry. rewrite diagonal_row by exact Hi.
  rewrite (map_nth_inside _ (seq 0 D) j 0 0%nat) by now rewrite length_seq.
  now rewrite seq_nth.
Qed.

Lemma diagonal_ext (d d' : nat -> R) (D : nat) :
  (forall i, (i < D)%nat -> d i = d' i) -> diagonal d D = diagonal d' D.
Proof.
  intros H. unfold diagonal. apply map_ext_in. intros i Hi.
  apply in_seq in Hi. apply map_ext. intros j.
  destruct (Nat.eqb i j); [apply H; lia|reflexivity].
Qed.

Lemma diagonal_row_form (x : R) (D i : nat) :
  (i < D)%nat ->
  map (fun j => if Nat.eqb i j then x else 0) (seq 0 D)
  = Np.zeros i ++ x :: Np.zeros (D - S i).
Proof.
  intros Hi. apply (list_eq_nth 0).
  - rewrite length_map, length_seq, length_app. simpl.
    rewrite !zeros_length. lia.
  - intros j Hj. rewrite length_map, length_seq in Hj.
    rewrite (map_nth_inside _ (seq 0 D) j 0 0%nat) by now rewrite length_seq.
    rewrite seq_nth by exact Hj. simpl.
    destruct (Nat.eqb_spec i j) as [<-|Hne].
    + rewrite app_nth2 by (rewrite zeros_length; lia).
      now rewrite zeros_length, Nat.sub_diag.
    + destruct (Nat.lt_ge_cases j i) as [Hlt|Hge].
      * rewrite app_nth1 by (rewrite zeros_length; lia). now rewrite nth_zeros.
      * rewrite app_nth2 by (rewrite zeros_length; lia). rewrite zeros_length.
        destruct (j - i)%nat as [|m] eqn:E; [lia|]. simpl.
        now rewrite nth_zeros.
Qed.

Lemma diagonal_set (d : nat -> R) (D k : nat) (x : R) :
  (k < D)%nat ->
  Np.set_nth k (Np.set_nth k x (nth k (diagonal d D) [])) (diagonal d D)
  = diagonal (fun i => if Nat.eqb i k then x else d i) D.
Proof.
  intros Hk. apply (list_eq_nth []).
  - now rewrite set_nth_length, !diagonal_length.
  - intros i Hi. rewrite set_nth_length, diagonal_length in Hi.
    destruct (Nat.eq_dec k i) as [<-|Hne].
    + rewrite set_nth_same by now rewrite diagonal_length.
      rewrite !diagonal_row by exact Hk.
      apply (list_eq_nth 0).
      * now rewrite set_nth_length, !length_map.
      * intros j Hj. rewrite set_nth_length, length_map, length_seq in Hj.
        rewrite (map_nth_inside _ (seq 0 D) j 0 0%nat) by now rewrite length_seq.
        rewrite seq_nth by exact Hj. simpl. rewrite Nat.eqb_refl.
        destruct (Nat.eqb_spec k j) as [<-|Hkj].
        -- apply set_nth_same. now rewrite length_map, length_seq.
        -- rewrite set_nth_other by exact Hkj.
           rewrite (map_nth_inside _ (seq 0 D) j 0 0%nat)
             by now rewrite length_seq.
           rewrite seq_nth by exact Hj. simpl.
           destruct (Nat.eqb_spec k j); [contradiction|reflexivity].
    + rewrite set_nth_other by exact Hne. rewrite !diagonal_row by exact Hi.
      apply map_ext. intros j.
      destruct (Nat.eqb_spec i k) as [->|_]; [contradiction|reflexivity].
Qed.

Lemma default_sigma_eval (D : nat) (xlb xub : vec) (w : World) :
  length xlb = D -> length xub = D ->
  default_sigma D xlb xub w
  = (Ok (diagonal (fun i => 0.1 * (nth i xub 0 - nth i xlb 0)) D), w).
Proof.
  intros Hl Hu. unfold default_sigma, for_range.
  set (var := fun i => 0.1 * (nth i xub 0 - nth i xlb 0)).
  destruct (for_each_inv
    (fun k (S : mat) w1 =>
       w1 = w /\
       S = diagonal (fun i => if (i <? k)%nat then var i else 1) D)
    (fun i sigma =>
       ub <- index xub i ;;
       lb <- index xlb i ;;
       let row := nth i sigma [] in
       ret (Np.set_nth i
              (Np.set_nth i (nth i row 0 * ((ub - lb) * 0.1)) row) sigma))
    D 0) with (s := Np.eye D) (w := w) as (S & w' & E & -> & ->).
  - intros i S w1 Hi (-> & ->).
    destruct (nth_error xub i) as [ub|] eqn:Eub.
    2:{ apply nth_error_None in Eub. lia. }
    destruct (nth_error xlb i) as [lb|] eqn:Elb.
    2:{ apply nth_error_None in Elb. lia. }
    eexists _, w. split.
    + rewrite (bind_eval_ok _ _ w w ub (index_eval xub i ub w Eub)).
      rewrite (bind_eval_ok _ _ w w lb (index_eval xlb i lb w Elb)).
      reflexivity.
    + split; [reflexivity|]. cbv zeta.
      rewrite diagonal_set by lia. apply diagonal_ext. intros j Hj.
      pose proof (diagonal_entry (fun i0 => if (i0 <? i)%nat then var i0 else 1)
                    D i i ltac:(lia) ltac:(lia)) as He.
      unfold entry in He. rewrite He, Nat.eqb_refl, Nat.ltb_irrefl.
      destruct (Nat.eqb_spec j i) as [->|Hne].
      * replace (i <? S i)%nat with true by (symmetry; apply Nat.ltb_lt; lia).
        unfold var.
        apply nth_error_nth with (d := 0) in Eub.
        apply nth_error_nth with (d := 0) in Elb.
        rewrite Eub, Elb. lra.
      * destruct (Nat.ltb_spec j i), (Nat.ltb_spec j (S i)); try lia;
          reflexivity.
  - split; [reflexivity|]. unfold Np.eye, Np.eye_row, diagonal.
    reflexivity.
  - rewrite (diagonal_ext _ var D) in E; [exact E|].
    intros i Hi.
    replace (i <? 0 + D)%nat with true by (symmetry; apply Nat.ltb_lt; lia).
    reflexivity.
Qed.

Lemma cholesky_diagonal (d : nat -> R) (D : nat) :
  (forall i, (i < D)%nat -> 0 < d i) ->
  cholesky (diagonal d D) = Ok (diagonal (fun i => sqrt (d i)) D).
Proof.
  intros Hd. unfold cholesky. rewrite diagonal_length.
  destruct (chol_rows_diagonal D (diagonal d D) []) as (L & E & HL & _ & Hrows).
  - intros t Ht. rewrite diagonal_length in Ht. simpl.
    split.
    + intros j Hj. change (entry (diagonal d D) t j = 0).
      rewrite diagonal_entry by lia.
      destruct (Nat.eqb_spec t j); [lia|reflexivity].
    + change (0 < entry (diagonal d D) t t).
      rewrite diagonal_entry, Nat.eqb_refl by lia. now apply Hd.
  - rewrite E. f_equal. simpl in HL, Hrows. rewrite diagonal_length in HL, Hrows.
    apply (list_eq_nth []).
    + now rewrite diagonal_length.
    + intros i Hi. rewrite HL in Hi.
      rewrite Hrows by exact Hi.
      change (nth i (nth i (diagonal d D) []) 0) with (entry (diagonal d D) i i).
      rewrite diagonal_entry, Nat.eqb_refl by exact Hi.
      rewrite diagonal_row by exact Hi.
      rewrite diagonal_row_form by exact Hi. reflexivity.
Qed.

Lemma diagonal_rows (d : nat -> R) (D : nat) :
  Forall (fun row => length row = D) (diagonal d D).
Proof.
  unfold diagonal. apply Forall_forall. intros row Hrow.
  apply in_map_iff in Hrow. destruct Hrow as (i & <- & _).
  now rewrite length_map, length_seq.
Qed.

Lemma vec_mat_diagonal (d : nat -> R) (D : nat) (z : vec) (i : nat) :
  length z = D -> (i < D)%nat ->
  nth i (Np.vec_mat D z (diagonal d D)) 0 = nth i z 0 * d i.
Proof.
  intros Hz Hi.
  rewrite vec_mat_nth
    by (try apply diagonal_rows; rewrite ?diagonal_length; auto).
  rewrite diagonal_length, (rsum_single D i); [|exact Hi|].
  - now rewrite diagonal_entry, Nat.eqb_refl by lia.
  - intros j Hj Hne. rewrite diagonal_entry by lia.
    destruct (Nat.eqb_spec j i); [contradiction|lra].
Qed.

(** C3, as the code has it.  Without a covariance from the caller the
    sampler runs its chains with the diagonal matrix whose entry [i] is
    [0.1 * (xub[i] - xlb[i])], not squared; this entry is the variance of the
    proposal in dimension [i]: the Cholesky factor is diagonal with the entries
    [sqrt (0.1 * (xub[i] - xlb[i]))], which multiply the normal draws. *)
Theorem default_sigma_variance_tenth_of_range (D : nat) (xlb xub : vec)
    (w : World) :
  length xlb = D -> length xub = D ->
  (forall i, (i < D)%nat -> nth i xlb 0 < nth i xub 0) ->
  let var := fun i => 0.1 * (nth i xub 0 - nth i xlb 0) in
  let sd := fun i => sqrt (var i) in
  default_sigma D xlb xub w = (Ok (diagonal var D), w) /\
  (forall i j, (i < D)%nat -> (j < D)%nat ->
     entry (diagonal var D) i j = if Nat.eqb i j then var i else 0) /\
  cholesky (diagonal var D) = Ok (diagonal sd D) /\
  (forall z i, length z = D -> (i < D)%nat ->
     nth i (Np.vec_mat D z (diagonal sd D)) 0 = nth i z 0 * sd i) /\
  (forall worker floglike Xinit flogprior T B N M parallel,
     T <> 0 ->
     sampler_chains worker floglike D xlb xub Xinit flogprior T B N M None
                    parallel w
     = (X <- match Xinit with
             | None => default_X D xlb xub M
             | Some X0 => ret X0
             end ;;
        if parallel
        then parallel_branch worker floglike D xlb xub flogprior B N M
               (1 / T) X (diagonal var D)
               (mkSamplerState (repeat (Np.zeros2 N D) M) (Np.zeros2 M N)
                  (Np.zeros2 (M * N) D) (Np.zeros (M * N)) (Np.zeros M))
        else for_range M
               (sequential_body floglike D xlb xub flogprior B N (1 / T) X
                  (diagonal var D))
               (mkSamplerState (repeat (Np.zeros2 N D) M) (Np.zeros2 M N)
                  (Np.zeros2 (M * N) D) (Np.zeros (M * N)) (Np.zeros M))) w).
Proof.
  intros Hl Hu Hbox var sd.
  pose proof (default_sigma_eval D xlb xub w Hl Hu) as Hs. fold var in Hs.
  split; [exact Hs|]. split; [|split; [|split]].
  - intros i j Hi Hj. now apply diagonal_entry.
  - apply cholesky_diagonal. intros i Hi. unfold var.
    specialize (Hbox i Hi). lra.
  - intros z i Hz Hi. now apply vec_mat_diagonal.
  - intros worker floglike Xinit flogprior T B N M parallel HT.
    rewrite sampler_chains_beta by exact HT.
    now rewrite (bind_eval_ok _ _ w w (diagonal var D) Hs).
Qed.

Lemma default_sigma_variance_tenth_of_range_witness :
  length [0] = 1%nat /\ length [1] = 1%nat /\
  (forall i, (i < 1)%nat -> nth i [0] 0 < nth i [1] 0) /\
  default_sigma 1 [0] [1] (fresh 0 0)
  = (Ok (diagonal (fun i => 0.1 * (nth i [1] 0 - nth i [0] 0)) 1), fresh 0 0).
Proof.
  assert (Hbox : forall i, (i < 1)%nat -> nth i [0] 0 < nth i [1] 0).
  { intros [|i] Hi; [simpl; lra|lia]. }
  split; [reflexivity|]. split; [reflexivity|]. split; [exact Hbox|].
  apply (default_sigma_variance_tenth_of_range 1 [0] [1] (fresh 0 0)
           eq_refl eq_refl Hbox).
Defined.

(** C3 fails as stated.  For the range [0,1] the default covariance has
    the entry 0.1, not the square 0.01 of a tenth of the range, and the
    factor that scales the normal draws is [sqrt 0.1], not 0.1. *)
Lemma default_sigma_entry_not_squared :
  exists S L,
    default_sigma 1 [0] [1] (fresh 0 0) = (Ok S, fresh 0 0) /\
    cholesky S = Ok L /\
    entry S 0 0 = 0.1 /\ entry S 0 0 <> (0.1 * (1 - 0)) * (0.1 * (1 - 0)) /\
    entry L 0 0 = sqrt 0.1 /\ entry L 0 0 <> 0.1 * (1 - 0).
Proof.
  exists (diagonal (fun i => 0.1 * (nth i [1] 0 - nth i [0] 0)) 1),
         (diagonal (fun i => sqrt (0.1 * (nth i [1] 0 - nth i [0] 0))) 1).
  split; [apply default_sigma_eval; reflexivity|].
  split.
  { apply cholesky_diagonal. intros [|i] Hi; [simpl; lra|lia]. }
  rewrite !diagonal_entry by lia. simpl.
  replace (0.1 * (1 - 0)) with 0.1 by lra.
  repeat split; try lra.
  intros H. assert (H2 : sqrt 0.1 * sqrt 0.1 = 0.1) by (apply sqrt_sqrt; lra).
  rewrite H in H2. lra.
Qed.

(** ** The diagnostic: sums that do not depend on the order of the chains *)

Lemma zipWith_comm {A B : Type} (f : A -> A -> B) (u v : list A) :
  (forall x y, f x y = f y x) -> Np.zipWith f u v = Np.zipWith f v u.
Proof.
  intros Hf. revert v; induction u as [|a u IH]; intros [|b v]; simpl; auto.
  now rewrite Hf, IH.
Qed.

Lemma zipWith_assoc {A : Type} (f : A -> A -> A) (u v w : list A) :
  (forall x y z, f x (f y z) = f (f x y) z) ->
  Np.zipWith f u (Np.zipWith f v w) = Np.zipWith f (Np.zipWith f u v) w.
Proof.
  intros Hf. revert v w; induction u as [|a u IH]; intros [|b v] [|c w];
    simpl; auto.
  now rewrite Hf, IH.
Qed.

Lemma vadd_comm (u v : vec) : Np.vadd u v = Np.vadd v u.
Proof. apply zipWith_comm. intros; lra. Qed.

Lemma vadd_assoc (u v w : vec) :
  Np.vadd u (Np.vadd v w) = Np.vadd (Np.vadd u v) w.
Proof. apply zipWith_assoc. intros; lra. Qed.

Lemma madd_comm (A B : mat) : Np.madd A B = Np.madd B A.
Proof. apply zipWith_comm. apply vadd_comm. Qed.

Lemma madd_assoc (A B C : mat) :
  Np.madd A (Np.madd B C) = Np.madd (Np.madd A B) C.
Proof. apply zipWith_assoc. apply vadd_assoc. Qed.

Lemma fold_right_permutation {A : Type} (f : A -> A -> A) (a : A)
    (l l' : list A) :
  (forall x y, f x y = f y x) ->
  (forall x y z, f x (f y z) = f (f x y) z) ->
  Permutation l l' -> fold_right f a l = fold_right f a l'.
Proof.
  intros Hc Ha H. induction H as [|x l l' H IH|x y l|l l' l'' H1 IH1 H2 IH2];
    simpl; auto.
  - now rewrite IH.
  - rewrite !Ha. now rewrite (Hc y x).
  - now rewrite IH1.
Qed.

Lemma mean0_permutation (D : nat) (A A' : mat) :
  Permutation A A' -> Np.mean0 D A = Np.mean0 D A'.
Proof.
  intros H. unfold Np.mean0. rewrite (Permutation_length H).
  f_equal. apply fold_right_permutation; auto using vadd_comm, vadd_assoc.
Qed.

Lemma cov_permutation (D : nat) (A A' : mat) :
  Permutation A A' -> Np.cov D A = Np.cov D A'.
Proof.
  intros H. unfold Np.cov.
  rewrite (Permutation_length H), (mean0_permutation D A A' H).
  f_equal. apply fold_right_permutation; auto using madd_comm, madd_assoc.
  now do 2 apply Permutation_map.
Qed.

Lemma spec_W_permutation (ndim : nat) (data data' : list mat) :
  Permutation data data' -> spec_W ndim data = spec_W ndim data'.
Proof.
  intros H. unfold spec_W. rewrite (Permutation_length H). f_equal.
  apply fold_right_permutation; auto using madd_comm, madd_assoc.
  now apply Permutation_map.
Qed.

Lemma spec_B_permutation (ndim : nat) (data data' : list mat) :
  Permutation data data' -> spec_B ndim data = spec_B ndim data'.
Proof.
  intros H. unfold spec_B. apply cov_permutation. now apply Permutation_map.
Qed.

(** ** The loop of the diagnostic *)

Section DiagnosticLoop.

Variable ndim : nat.
Variable data : list mat.

Let h (i : nat) : vec := Np.mean0 ndim (nth i data []).
Let g (Mn : mat) (i : nat) : mat := Np.set_nth i (h i) Mn.

Lemma GRB_loop_split (n a : nat) (Mn V : mat) :
  fold_left
    (fun '(Mn, V) i =>
       let c := nth i data [] in
       (Np.set_nth i (Np.mean0 ndim c) Mn, Np.madd V (Np.cov ndim c)))
    (seq a n) (Mn, V)
  = (fold_left g (seq a n) Mn,
     fold_left Np.madd (map (fun i => Np.cov ndim (nth i data [])) (seq a n)) V).
Proof.
  revert a Mn V; induction n as [|n IH]; intros a Mn V; simpl; [reflexivity|].
  now rewrite IH.
Qed.

Lemma means_length (n a : nat) (Mn : mat) :
  length (fold_left g (seq a n) Mn) = length Mn.
Proof.
  revert a Mn; induction n as [|n IH]; intros a Mn; simpl; [reflexivity|].
  rewrite IH. unfold g. apply set_nth_length.
Qed.

Lemma means_below (n a i : nat) (Mn : mat) :
  (i < a)%nat -> nth i (fold_left g (seq a n) Mn) [] = nth i Mn [].
Proof.
  revert a Mn; induction n as [|n IH]; intros a Mn Hi; simpl; [reflexivity|].
  rewrite IH by lia. unfold g. apply set_nth_other. lia.
Qed.

Lemma means_written (n a i : nat) (Mn : mat) :
  (a <= i < a + n)%nat -> (i < length Mn)%nat ->
  nth i (fold_left g (seq a n) Mn) [] = h i.
Proof.
  revert a Mn; induction n as [|n IH]; intros a Mn Hi Hlen; simpl; [lia|].
  destruct (Nat.eq_dec i a) as [->|Hne].
  - rewrite means_below by lia. unfold g. now apply set_nth_same.
  - apply IH; [lia|]. unfold g. now rewrite set_nth_length.
Qed.

Lemma map_nth_seq {A : Type} (l : list A) (d : A) :
  map (fun i => nth i l d) (seq 0 (length l)) = l.
Proof.
  apply (list_eq_nth d).
  - now rewrite length_map, length_seq.
  - intros j Hj. rewrite length_map, length_seq in Hj.
    rewrite (map_nth_inside _ (seq 0 (length l)) j d 0%nat)
      by now rewrite length_seq.
    now rewrite seq_nth.
Qed.

Lemma GRB_loop_eval :
  GRB_loop (length data) ndim data
  = (map (Np.mean0 ndim) data,
     fold_right Np.madd (Np.zeros2 ndim ndim) (map (Np.cov ndim) data)).
Proof.
  unfold GRB_loop. rewrite GRB_loop_split. f_equal.
  - apply (list_eq_nth []).
    + rewrite means_length, length_map. unfold Np.zeros2.
      now rewrite repeat_length.
    + intros j Hj. rewrite means_length in Hj.
      rewrite means_written by (try exact Hj; unfold Np.zeros2 in Hj;
                                rewrite repeat_length in Hj; lia).
      unfold h. symmetry. apply map_nth_inside.
      unfold Np.zeros2 in Hj. now rewrite repeat_length in Hj.
  - rewrite <- (map_nth_seq data []) at 2. rewrite map_map.
    apply fold_symmetric.
    + intros x y z. apply madd_assoc.
    + intros y. apply madd_comm.
Qed.

End DiagnosticLoop.

(** The diagnostic in terms of the within-chain and the between-chain
    covariance. *)
Lemma GRBfactor_eval inv eig (nmax ndim : nat) (data : list mat) :
  GRBfactor inv eig (mkArr3 (length data, nmax, ndim) data)
  = if ((length data <? 2)%nat || (nmax <? 2)%nat)%bool then Raise LinAlgError
    else
      match inv (spec_W ndim data) with
      | None => Raise LinAlgError
      | Some Winv =>
          match np_max (eig (Np.mat_mat ndim Winv (spec_B ndim data))) with
          | Raise e => Raise e
          | Ok L =>
              Ok (sqrt ((INR nmax - 1) / INR nmax
                        + (INR (length data) + 1) / INR (length data) * L))
          end
      end.
Proof.
  unfold GRBfactor. simpl shape3. simpl data3. cbv iota beta.
  rewrite GRB_loop_eval. reflexivity.
Qed.

(** C9.  Relabelling the chains leaves the within-chain covariance, the
    between-chain covariance and the value of the diagnostic unchanged. *)
Theorem GRBfactor_permutation_invariant inv eig (nchain nmax ndim : nat)
    (data data' : list mat) :
  length data = nchain -> Permutation data data' ->
  spec_W ndim data = spec_W ndim data' /\
  spec_B ndim data = spec_B ndim data' /\
  GRBfactor inv eig (mkArr3 (nchain, nmax, ndim) data)
  = GRBfactor inv eig (mkArr3 (nchain, nmax, ndim) data').
Proof.
  intros Hlen Hperm.
  pose proof (spec_W_permutation ndim data data' Hperm) as HW.
  pose proof (spec_B_permutation ndim data data' Hperm) as HB.
  split; [exact HW|]. split; [exact HB|].
  subst nchain. rewrite GRBfactor_eval.
  rewrite (Permutation_length Hperm), GRBfactor_eval.
  now rewrite HW, HB.
Qed.

(** ** Quadratic forms of covariance matrices *)

Lemma mat_vec_length (A : mat) (v : vec) :
  length (Np.mat_vec A v) = length A.
Proof. unfold Np.mat_vec. apply length_map. Qed.

Lemma dot_vadd_r (v a b : vec) :
  length a = length b ->
  Np.dot v (Np.vadd a b) = Np.dot v a + Np.dot v b.
Proof.
  intros H. rewrite dot_comm, dot_vadd_l by exact H.
  now rewrite (dot_comm a), (dot_comm b).
Qed.

Lemma dot_vscale_r (c : R) (v a : vec) :
  Np.dot v (Np.vscale c a) = c * Np.dot v a.
Proof. now rewrite dot_comm, dot_vscale_l, dot_comm. Qed.

Lemma dot_zeros_r (n : nat) (v : vec) : Np.dot v (Np.zeros n) = 0.
Proof. now rewrite dot_comm, dot_zeros_l. Qed.

Lemma vscale_zeros (c : R) (n : nat) : Np.vscale c (Np.zeros n) = Np.zeros n.
Proof.
  unfold Np.vscale, Np.zeros. induction n as [|n IH]; simpl; [reflexivity|].
  rewrite IH. f_equal. lra.
Qed.

Lemma vadd_zeros (n : nat) : Np.vadd (Np.zeros n) (Np.zeros n) = Np.zeros n.
Proof.
  unfold Np.vadd, Np.zeros. induction n as [|n IH]; simpl; [reflexivity|].
  rewrite IH. f_equal. lra.
Qed.

Lemma mat_vec_madd (D : nat) (A B : mat) (v : vec) :
  Forall (fun r => length r = D) A -> Forall (fun r => length r = D) B ->
  Np.mat_vec (Np.madd A B) v = Np.vadd (Np.mat_vec A v) (Np.mat_vec B v).
Proof.
  intros HA. revert B; induction HA as [|a A Ha HA IH]; intros B HB.
  - reflexivity.
  - destruct HB as [|b B Hb HB]; [reflexivity|].
    change (Np.madd (a :: A) (b :: B)) with (Np.vadd a b :: Np.madd A B).
    change (Np.mat_vec (Np.vadd a b :: Np.madd A B) v)
      with (Np.dot (Np.vadd a b) v :: Np.mat_vec (Np.madd A B) v).
    rewrite dot_vadd_l by congruence. rewrite IH by exact HB. reflexivity.
Qed.

Lemma mat_vec_mscale (c : R) (A : mat) (v : vec) :
  Np.mat_vec (Np.mscale c A) v = Np.vscale c (Np.mat_vec A v).
Proof.
  unfold Np.mat_vec, Np.mscale, Np.vscale at 2. rewrite !map_map.
  apply map_ext. intros a. apply dot_vscale_l.
Qed.

Lemma mat_vec_outer (c v : vec) :
  Np.mat_vec (Np.outer c c) v = Np.vscale (Np.dot c v) c.
Proof.
  unfold Np.mat_vec, Np.outer, Np.vscale at 2. rewrite map_map.
  apply map_ext. intros a. rewrite dot_vscale_l. lra.
Qed.

Lemma mat_vec_zeros2 (n D : nat) (v : vec) :
  Np.mat_vec (Np.zeros2 n D) v = Np.zeros n.
Proof.
  unfold Np.zeros2, Np.mat_vec, Np.zeros at 2.
  induction n as [|n IH]; simpl; [reflexivity|].
  now rewrite IH, dot_zeros_l.
Qed.

Lemma madd_shape (D : nat) (A B : mat) :
  square D A -> square D B -> square D (Np.madd A B).
Proof.
  intros [HA1 HA2] [HB1 HB2]. split.
  - unfold Np.madd. rewrite zipWith_length. lia.
  - clear HA1 HB1. revert B HB2.
    induction HA2 as [|a A Ha HA IH]; intros B HB; [constructor|].
    destruct HB as [|b B Hb HB]; [constructor|].
    change (Np.madd (a :: A) (b :: B)) with (Np.vadd a b :: Np.madd A B).
    constructor; [|now apply IH].
    unfold Np.vadd. rewrite zipWith_length. lia.
Qed.

Lemma mscale_shape (D : nat) (c : R) (A : mat) :
  square D A -> square D (Np.mscale c A).
Proof.
  intros [HA1 HA2]. split.
  - unfold Np.mscale. now rewrite length_map.
  - unfold Np.mscale. apply Forall_map.
    eapply Forall_impl; [|exact HA2]. intros a Ha. cbv beta.
    now rewrite vscale_length.
Qed.

Lemma zeros2_shape (D : nat) : square D (Np.zeros2 D D).
Proof.
  split.
  - unfold Np.zeros2. apply repeat_length.
  - unfold Np.zeros2. apply Forall_forall. intros x Hx.
    apply repeat_spec in Hx. subst x. apply zeros_length.
Qed.

Lemma outer_shape (D : nat) (c : vec) :
  length c = D -> square D (Np.outer c c).
Proof.
  intros Hc. split.
  - unfold Np.outer. now rewrite length_map.
  - unfold Np.outer. apply Forall_map. apply Forall_forall. intros a _.
    now rewrite vscale_length.
Qed.

Lemma vscale_0 (c : vec) : Np.vscale 0 c = Np.zeros (length c).
Proof.
  unfold Np.vscale, Np.zeros. induction c as [|x c IH]; simpl; [reflexivity|].
  rewrite IH. f_equal. lra.
Qed.

Lemma psd_zeros2 (D : nat) : psd D (Np.zeros2 D D).
Proof.
  split; [apply zeros2_shape|]. intros v Hv. unfold quad.
  rewrite mat_vec_zeros2, dot_zeros_r. split; [lra|reflexivity].
Qed.

Lemma psd_outer (D : nat) (c : vec) : length c = D -> psd D (Np.outer c c).
Proof.
  intros Hc. split; [now apply outer_shape|]. intros v Hv. unfold quad.
  rewrite mat_vec_outer, dot_vscale_r, (dot_comm v c). split; [nra|].
  intros H. assert (H0 : Np.dot c v = 0) by nra.
  rewrite H0, vscale_0. now rewrite Hc.
Qed.

Lemma psd_madd (D : nat) (A B : mat) :
  psd D A -> psd D B -> psd D (Np.madd A B).
Proof.
  intros [HA PA] [HB PB]. split; [now apply madd_shape|]. intros v Hv.
  destruct (PA v Hv) as [PA1 PA2]. destruct (PB v Hv) as [PB1 PB2].
  unfold quad in *.
  rewrite (mat_vec_madd D) by (try apply HA; apply HB).
  rewrite dot_vadd_r
    by (rewrite !mat_vec_length; destruct HA as [-> _], HB as [-> _]; auto).
  split; [lra|]. intros H.
  rewrite PA2, PB2 by lra. apply vadd_zeros.
Qed.

Lemma psd_mscale (D : nat) (c : R) (A : mat) :
  0 <= c -> psd D A -> psd D (Np.mscale c A).
Proof.
  intros Hc [HA PA]. split; [now apply mscale_shape|]. intros v Hv.
  destruct (PA v Hv) as [PA1 PA2]. unfold quad in *.
  rewrite mat_vec_mscale, dot_vscale_r. split; [nra|]. intros H.
  destruct (Req_dec c 0) as [->|Hne].
  - rewrite vscale_0, mat_vec_length. now destruct HA as [-> _].
  - rewrite PA2 by nra. apply vscale_zeros.
Qed.

Lemma psd_sum (D : nat) (l : list mat) :
  Forall (psd D) l -> psd D (fold_right Np.madd (Np.zeros2 D D) l).
Proof.
  induction 1 as [|A l HA Hl IH]; simpl; [apply psd_zeros2|].
  now apply psd_madd.
Qed.

Lemma sum_rows_length (D : nat) (A : mat) :
  Forall (fun x => length x = D) A ->
  length (fold_right Np.vadd (Np.zeros D) A) = D.
Proof.
  induction 1 as [|x A Hx HA IH]; simpl; [apply zeros_length|].
  unfold Np.vadd at 1. rewrite zipWith_length. fold Np.vadd. lia.
Qed.

Lemma mean0_length (D : nat) (A : mat) :
  Forall (fun x => length x = D) A -> length (Np.mean0 D A) = D.
Proof.
  intros H. unfold Np.mean0. rewrite vscale_length. now apply sum_rows_length.
Qed.

Lemma psd_cov (D : nat) (A : mat) :
  (2 <= length A)%nat -> Forall (fun x => length x = D) A ->
  psd D (Np.cov D A).
Proof.
  intros Hn HA. unfold Np.cov. apply psd_mscale.
  - left. apply Rinv_0_lt_compat.
    assert (H2 : 2 <= INR (length A)).
    { change 2 with (INR 2). apply le_INR. exact Hn. }
    lra.
  - apply psd_sum. rewrite map_map. apply Forall_map.
    eapply Forall_impl; [|exact HA]. intros x Hx. cbv beta.
    apply psd_outer. unfold Np.vsub. rewrite zipWith_length.
    rewrite mean0_length by exact HA. rewrite Hx. apply Nat.min_id.
Qed.

Lemma psd_spec_W (nmax ndim : nat) (data : list mat) :
  (2 <= nmax)%nat -> ensemble_shape nmax ndim data ->
  psd ndim (spec_W ndim data).
Proof.
  intros Hn Hshape. unfold spec_W. apply psd_mscale.
  - destruct data as [|c data]; [simpl; rewrite Rinv_0; lra|].
    left. apply Rinv_0_lt_compat. apply lt_0_INR. simpl. lia.
  - apply psd_sum. apply Forall_map.
    eapply Forall_impl; [|exact Hshape]. intros c [Hc Hrows]. cbv beta.
    apply psd_cov; [lia|exact Hrows].
Qed.

Lemma psd_spec_B (nmax ndim : nat) (data : list mat) :
  (2 <= length data)%nat -> ensemble_shape nmax ndim data ->
  psd ndim (spec_B ndim data).
Proof.
  intros HM Hshape. unfold spec_B. apply psd_cov.
  - now rewrite length_map.
  - apply Forall_map. eapply Forall_impl; [|exact Hshape].
    intros c [_ Hrows]. cbv beta. now apply mean0_length.
Qed.

(** ** Eigenvalues of the inverse within-chain covariance times the
       between-chain covariance *)

Lemma mat_vec_mat_mat (D : nat) (P Q : mat) (v : vec) :
  Forall (fun r => length r = D) Q ->
  Np.mat_vec (Np.mat_mat D P Q) v = Np.mat_vec P (Np.mat_vec Q v).
Proof.
  intros HQ. unfold Np.mat_vec at 1 2, Np.mat_mat. rewrite map_map.
  apply map_ext. intros row. now apply dot_vec_mat.
Qed.

Lemma mat_vec_vscale (c : R) (A : mat) (v : vec) :
  Np.mat_vec A (Np.vscale c v) = Np.vscale c (Np.mat_vec A v).
Proof.
  unfold Np.mat_vec, Np.vscale at 2. rewrite map_map.
  apply map_ext. intros row. apply dot_vscale_r.
Qed.

Lemma mat_vec_zeros (A : mat) (n : nat) :
  Np.mat_vec A (Np.zeros n) = Np.zeros (length A).
Proof.
  unfold Np.mat_vec. induction A as [|row A IH]; simpl; [reflexivity|].
  rewrite dot_zeros_r. unfold Np.zeros in *. simpl. now rewrite IH.
Qed.

Lemma mat_vec_eye (D : nat) (u : vec) :
  length u = D -> Np.mat_vec (Np.eye D) u = u.
Proof.
  intros Hu. change (Np.eye D) with (diagonal (fun _ => 1) D).
  apply (list_eq_nth 0).
  - now rewrite mat_vec_length, diagonal_length.
  - intros i Hi. rewrite mat_vec_length, diagonal_length in Hi.
    unfold Np.mat_vec.
    rewrite (map_nth_inside _ (diagonal (fun _ => 1) D) i 0 [])
      by now rewrite diagonal_length.
    rewrite (dot_rsum D) by (right; lia).
    rewrite (rsum_single D i); [|exact Hi|].
    + change (nth i (nth i (diagonal (fun _ => 1) D) []) 0)
        with (entry (diagonal (fun _ => 1) D) i i).
      rewrite diagonal_entry, Nat.eqb_refl by exact Hi. lra.
    + intros j Hj Hne.
      change (nth j (nth i (diagonal (fun _ => 1) D) []) 0)
        with (entry (diagonal (fun _ => 1) D) i j).
      rewrite diagonal_entry by lia.
      destruct (Nat.eqb_spec i j); [congruence|lra].
Qed.

Lemma eigenvalue_nonneg (D : nat) (W Winv Bc : mat) (lam : R) :
  psd D W -> psd D Bc -> square D Winv ->
  Np.mat_mat D Winv W = Np.eye D -> Np.mat_mat D W Winv = Np.eye D ->
  eigenvalue D (Np.mat_mat D Winv Bc) lam -> 0 <= lam.
Proof.
  intros [[HW1 HW2] PW] [[HB1 HB2] PB] [HI1 HI2] Hleft Hright
         (v & Hv & Hne & Hev).
  set (u := Np.mat_vec Bc v).
  assert (Hu : length u = D) by (unfold u; now rewrite mat_vec_length).
  rewrite mat_vec_mat_mat in Hev by exact HB2. fold u in Hev.
  assert (Hu' : u = Np.vscale lam (Np.mat_vec W v)).
  { rewrite <- mat_vec_vscale, <- Hev.
    rewrite <- (mat_vec_mat_mat D) by exact HI2.
    rewrite Hright. symmetry. now apply mat_vec_eye. }
  destruct (PW v Hv) as [PW1 PW2]. destruct (PB v Hv) as [PB1 _].
  assert (Hq : quad Bc v = lam * quad W v).
  { unfold quad. fold u. rewrite Hu' at 1. apply dot_vscale_r. }
  destruct PW1 as [Hpos|Hzero].
  - rewrite Hq in PB1. nra.
  - exfalso. apply Hne.
    rewrite <- (mat_vec_eye D v Hv), <- Hleft.
    rewrite mat_vec_mat_mat by exact HW2.
    rewrite PW2 by (now symmetry). rewrite mat_vec_zeros. now rewrite HI1.
Qed.

Lemma fold_left_Rmax_spec (l : list R) (x : R) :
  (In (fold_left Rmax l x) (x :: l)) /\
  forall y, In y (x :: l) -> y <= fold_left Rmax l x.
Proof.
  revert x; induction l as [|a l IH]; intros x; simpl.
  - split; [now left|]. intros y [<-|[]]. lra.
  - destruct (IH (Rmax x a)) as [Hin Hmax]. split.
    + destruct Hin as [Hin|Hin]; [|now right; right].
      rewrite <- Hin. unfold Rmax. destruct (Rle_dec x a); [right|]; now left.
    + intros y [<-|[<-|Hy]].
      * apply Rle_trans with (Rmax x a); [apply Rmax_l|]. apply Hmax. now left.
      * apply Rle_trans with (Rmax x a); [apply Rmax_r|]. apply Hmax. now left.
      * apply Hmax. now right.
Qed.

Lemma np_max_spec (l : list R) :
  l <> [] ->
  exists m, np_max l = Ok m /\ In m l /\ forall y, In y l -> y <= m.
Proof.
  destruct l as [|x l]; [congruence|]. intros _.
  exists (fold_left Rmax l x). split; [reflexivity|].
  apply fold_left_Rmax_spec.
Qed.

(** C2.  For an ensemble of at least two chains of at least two samples
    whose within-chain covariance [W] (the average of the unbiased covariances
    of the chains) is invertible, with [np.linalg.inv] returning the inverse
    and [np.linalg.eig] the real eigenvalues, the diagnostic returns
    [sqrt ((N-1)/N + (M+1)/M * lam)] where [lam] is the largest real eigenvalue
    of the inverse of [W] times the unbiased covariance [B] of the chain
    means; [lam] and the argument of the square root are not negative, so
    the value is a nonnegative real number. *)
Theorem GRBfactor_formula inv eig (nchain nmax ndim : nat) (data : list mat)
    (Winv : mat) :
  length data = nchain -> (2 <= nchain)%nat -> (2 <= nmax)%nat ->
  ensemble_shape nmax ndim data ->
  let W := spec_W ndim data in
  let Bc := spec_B ndim data in
  let A := Np.mat_mat ndim Winv Bc in
  inv W = Some Winv -> square ndim Winv ->
  Np.mat_mat ndim Winv W = Np.eye ndim ->
  Np.mat_mat ndim W Winv = Np.eye ndim ->
  eig A <> [] ->
  (forall lam, In lam (eig A) <-> eigenvalue ndim A lam) ->
  exists lam,
    eigenvalue ndim A lam /\
    (forall mu, eigenvalue ndim A mu -> mu <= lam) /\
    0 <= lam /\
    0 <= (INR nmax - 1) / INR nmax + (INR nchain + 1) / INR nchain * lam /\
    GRBfactor inv eig (mkArr3 (nchain, nmax, ndim) data)
    = Ok (sqrt ((INR nmax - 1) / INR nmax
                + (INR nchain + 1) / INR nchain * lam)) /\
    0 <= sqrt ((INR nmax - 1) / INR nmax
               + (INR nchain + 1) / INR nchain * lam).
Proof.
  intros Hlen HM HN Hshape W Bc A Hinv Hsq Hleft Hright Hne Heig.
  destruct (np_max_spec (eig A) Hne) as (lam & Emax & Hin & Hmax).
  assert (Hlam : 0 <= lam).
  { apply (eigenvalue_nonneg ndim W Winv Bc lam); auto.
    - now apply (psd_spec_W nmax).
    - apply (psd_spec_B nmax); [lia|exact Hshape].
    - now apply Heig. }
  assert (HNpos : 2 <= INR nmax) by (change 2 with (INR 2); now apply le_INR).
  assert (HMpos : 2 <= INR nchain) by (change 2 with (INR 2); now apply le_INR).
  assert (Harg : 0 <= (INR nmax - 1) / INR nmax
                      + (INR nchain + 1) / INR nchain * lam).
  { apply Rplus_le_le_0_compat.
    - apply Rmult_le_pos; [lra|]. left. apply Rinv_0_lt_compat. lra.
    - apply Rmult_le_pos; [|exact Hlam].
      apply Rmult_le_pos; [lra|]. left. apply Rinv_0_lt_compat. lra. }
  exists lam. split; [now apply Heig|]. split.
  { intros mu Hmu. apply Hmax. now apply Heig. }
  split; [exact Hlam|]. split; [exact Harg|]. split; [|apply sqrt_pos].
  subst nchain. rewrite GRBfactor_eval.
  replace (length data <? 2)%nat with false
    by (symmetry; apply Nat.ltb_ge; lia).
  replace (nmax <? 2)%nat with false by (symmetry; apply Nat.ltb_ge; lia).
  simpl orb. fold W. rewrite Hinv. fold Bc. fold A. rewrite Emax. reflexivity.
Qed.

(** ** The diagnostic on two chains in one dimension *)

Lemma eig_1x1_spec (a lam : R) :
  In lam (eig_1x1 [[a]]) <-> eigenvalue 1 [[a]] lam.
Proof.
  simpl. split.
  - intros [<-|[]]. exists [1]. split; [reflexivity|]. split.
    + unfold Np.zeros. simpl. intros [= H]. lra.
    + np_unfold. f_equal. lra.
  - intros (v & Hv & Hne & Hev). left.
    destruct v as [|x [|y v]]; simpl in Hv; try discriminate.
    revert Hev. np_unfold. intros [= Hev].
    assert (Hx : x <> 0).
    { intros ->. apply Hne. reflexivity. }
    apply Rmult_eq_reg_r with (r := x); [lra|exact Hx].
Qed.

Lemma two_chains_shape : ensemble_shape 2 1 two_chains.
Proof. unfold ensemble_shape, two_chains. repeat constructor. Qed.

Lemma two_chains_W :
  spec_W 1 two_chains = [[entry (spec_W 1 two_chains) 0 0]] /\
  entry (spec_W 1 two_chains) 0 0 <> 0.
Proof.
  unfold entry, spec_W, two_chains. np_unfold. simpl INR.
  split; [reflexivity|lra].
Qed.

Lemma two_chains_B :
  spec_B 1 two_chains = [[entry (spec_B 1 two_chains) 0 0]].
Proof. unfold entry, spec_B, two_chains. np_unfold. reflexivity. Qed.

Lemma inverse_1x1 (a : R) :
  a <> 0 ->
  inv_1x1 [[a]] = Some [[/ a]] /\ square 1 [[/ a]] /\
  Np.mat_mat 1 [[/ a]] [[a]] = Np.eye 1 /\
  Np.mat_mat 1 [[a]] [[/ a]] = Np.eye 1.
Proof.
  intros Ha. split; [|split; [|split]].
  - unfold inv_1x1. destruct (Req_dec_T a 0); [contradiction|reflexivity].
  - split; [reflexivity|]. repeat constructor.
  - np_unfold. unfold Np.eye, Np.eye_row. simpl. repeat f_equal. now field.
  - np_unfold. unfold Np.eye, Np.eye_row. simpl. repeat f_equal. now field.
Qed.

Lemma GRBfactor_formula_witness :
  let W := spec_W 1 two_chains in
  let Winv := [[/ entry W 0 0]] in
  let A := Np.mat_mat 1 Winv (spec_B 1 two_chains) in
  length two_chains = 2%nat /\ ensemble_shape 2 1 two_chains /\
  inv_1x1 W = Some Winv /\ square 1 Winv /\
  Np.mat_mat 1 Winv W = Np.eye 1 /\ Np.mat_mat 1 W Winv = Np.eye 1 /\
  eig_1x1 A <> [] /\
  (forall lam, In lam (eig_1x1 A) <-> eigenvalue 1 A lam) /\
  exists lam,
    eigenvalue 1 A lam /\
    (forall mu, eigenvalue 1 A mu -> mu <= lam) /\
    0 <= lam /\
    0 <= (INR 2 - 1) / INR 2 + (INR 2 + 1) / INR 2 * lam /\
    GRBfactor inv_1x1 eig_1x1 (mkArr3 (2%nat, 2%nat, 1%nat) two_chains)
    = Ok (sqrt ((INR 2 - 1) / INR 2 + (INR 2 + 1) / INR 2 * lam)) /\
    0 <= sqrt ((INR 2 - 1) / INR 2 + (INR 2 + 1) / INR 2 * lam).
Proof.
  intros W Winv A.
  destruct two_chains_W as [HW Hw]. fold W in HW, Hw.
  destruct (inverse_1x1 (entry W 0 0) Hw) as (Hinv & Hsq & Hleft & Hright).
  rewrite <- HW in Hinv, Hleft, Hright. fold Winv in Hinv, Hsq, Hleft, Hright.
  assert (HA : A = [[/ entry W 0 0 * entry (spec_B 1 two_chains) 0 0 + 0]]).
  { unfold A, Winv. rewrite two_chains_B. reflexivity. }
  assert (Hne : eig_1x1 A <> []) by (rewrite HA; discriminate).
  assert (Heig : forall lam, In lam (eig_1x1 A) <-> eigenvalue 1 A lam).
  { intros lam. rewrite HA. apply eig_1x1_spec. }
  split; [reflexivity|]. split; [exact two_chains_shape|].
  split; [exact Hinv|]. split; [exact Hsq|]. split; [exact Hleft|].
  split; [exact Hright|]. split; [exact Hne|]. split; [exact Heig|].
  apply (GRBfactor_formula inv_1x1 eig_1x1 2 2 1 two_chains Winv eq_refl
           (le_n 2) (le_n 2) two_chains_shape Hinv Hsq Hleft Hright Hne Heig).
Defined.

Lemma GRBfactor_permutation_invariant_witness :
  length two_chains = 2%nat /\
  Permutation two_chains [[[2]; [4]]; [[0]; [1]]] /\
  GRBfactor inv_1x1 eig_1x1 (mkArr3 (2%nat, 2%nat, 1%nat) two_chains)
  = GRBfactor inv_1x1 eig_1x1
      (mkArr3 (2%nat, 2%nat, 1%nat) [[[2]; [4]]; [[0]; [1]]]).
Proof.
  split; [reflexivity|]. split; [apply perm_swap|].
  apply (GRBfactor_permutation_invariant inv_1x1 eig_1x1 2 2 1 two_chains
           [[[2]; [4]]; [[0]; [1]]] eq_refl (perm_swap _ _ _)).
Defined.

(** ** A complete run of the sampler *)

Lemma drift_unit_step (x : R) :
  -10 <= x <= 9 -> drift 1 [-10] [10] [[1]] 1 [x] = [x + 1].
Proof.
  intros Hx. unfold drift. np_unfold. f_equal. Rminmax.
Qed.

Lemma sequential_body_example (i : nat) (x : R) (X : mat) (st : sampler_state)
    (g u n : nat) :
  nth_error X i = Some [x] -> -10 <= x <= 7 ->
  sequential_body (fun _ => 0) 1 [-10] [10] None 1 2 (1 / 1) X [[1]] i st
                  (steady 1 g u n)
  = (Ok (store 2 i [[x + 1 + 1]; [x + 1 + 1 + 1]] (INR 2 / INR 2)
           (map (flogpost (fun _ => 0) None (1 / 1) [-10] [10])
                [[x + 1 + 1]; [x + 1 + 1 + 1]]) st),
     steady 1 (g + 1 * 1 + 2 * 1) (u + 1 + 2) (S (S n + 1) + 2)).
Proof.
  intros HX Hx. unfold sequential_body.
  rewrite (bind_eval_ok _ _ _ _ _ (index_eval X i [x] _ HX)).
  erewrite bind_eval_ok
    by (apply MChain_walk with (L := [[1]]); [exact cholesky_1x1_unit|lia]).
  cbn [walk]. rewrite drift_unit_step by lra.
  erewrite bind_eval_ok by reflexivity.
  erewrite bind_eval_ok
    by (apply MChain_walk with (L := [[1]]); [exact cholesky_1x1_unit|lia]).
  cbn [walk]. rewrite !drift_unit_step by lra. reflexivity.
Qed.

Lemma sampler_example_run :
  exists out w',
    sampler inv_1x1 eig_1x1 (fun _ _ => constant_tape 0 0) (fun _ => 0) 1
            [-10] [10] (Some [[0]; [5]]) None 1 1 2 2 (Some [[1]]) false
            (steady 1 0 0 0)
    = (Ok out, w').
Proof.
  unfold sampler.
  assert (E : exists st w1,
            sampler_chains (fun _ _ => constant_tape 0 0) (fun _ => 0) 1
              [-10] [10] (Some [[0]; [5]]) None 1 1 2 2 (Some [[1]]) false
              (steady 1 0 0 0) = (Ok st, w1) /\
            s_Chain st = [[[0 + 1 + 1]; [0 + 1 + 1 + 1]];
                          [[5 + 1 + 1]; [5 + 1 + 1 + 1]]]).
  { rewrite sampler_chains_beta by lra.
    unfold bind at 1, ret at 1. unfold bind at 1, ret at 1.
    unfold for_range. simpl seq. simpl for_each.
    rewrite (bind_eval_ok _ _ _ _ _
               (sequential_body_example 0 0 [[0]; [5]] _ 0 0 0 eq_refl
                  ltac:(lra))).
    rewrite (bind_eval_ok _ _ _ _ _
               (sequential_body_example 1 5 [[0]; [5]] _ _ _ _ eq_refl
                  ltac:(lra))).
    eexists _, _. split; [reflexivity|]. reflexivity. }
  destruct E as (st & w1 & E & HC).
  rewrite (bind_eval_ok _ _ _ _ _ E). rewrite HC.
  set (data := [[[0 + 1 + 1]; [0 + 1 + 1 + 1]]; [[5 + 1 + 1]; [5 + 1 + 1 + 1]]]).
  assert (HG : exists G, GRBfactor inv_1x1 eig_1x1
                           (mkArr3 (2%nat, 2%nat, 1%nat) data) = Ok G).
  { change (mkArr3 (2%nat, 2%nat, 1%nat) data)
      with (mkArr3 (length data, 2%nat, 1%nat) data).
    rewrite GRBfactor_eval. simpl orb.
    assert (HW : spec_W 1 data = [[entry (spec_W 1 data) 0 0]] /\
                 entry (spec_W 1 data) 0 0 <> 0).
    { unfold entry, spec_W, data. np_unfold. simpl INR.
      split; [reflexivity|lra]. }
    destruct HW as [HW Hw].
    destruct (inverse_1x1 _ Hw) as (Hinv & _). rewrite <- HW in Hinv.
    rewrite Hinv.
    assert (HB : spec_B 1 data = [[entry (spec_B 1 data) 0 0]]).
    { unfold entry, spec_B, data. np_unfold. reflexivity. }
    rewrite HB. eexists. reflexivity. }
  destruct HG as (G & HG).
  eexists _, _. unfold bind, lift. rewrite HG. reflexivity.
Qed.


(** * Further properties of the chain, the sampler and the diagnostic *)

(** ** The acceptance ratio *)

(** X1.  The ratio of lines 105-108 is the formula of the comment at line
    104, [min(1, exp(0.5*(pX - pXt)))], and lies in (0,1]. *)
Theorem ratio_is_min (pX pXt : R) :
  ratio pX pXt = Rmin 1 (exp (0.5 * (pX - pXt))) /\ 0 < ratio pX pXt <= 1.
Proof.
  assert (Hmin : ratio pX pXt = Rmin 1 (exp (0.5 * (pX - pXt)))).
  { unfold ratio, Rmin. destruct (Rgt_dec pX pXt) as [Hgt|Hle].
    - assert (H : exp 0 < exp (0.5 * (pX - pXt)))
        by (apply exp_increasing; lra).
      rewrite exp_0 in H. destruct (Rle_dec 1 _); [reflexivity|lra].
    - destruct (Rle_dec 1 (exp (0.5 * (pX - pXt)))) as [H1|H1];
        [|reflexivity].
      destruct (Req_dec pX pXt) as [->|Hne].
      + replace (0.5 * (pXt - pXt)) with 0 by lra. apply exp_0.
      + assert (H : exp (0.5 * (pX - pXt)) < exp 0)
          by (apply exp_increasing; lra).
        rewrite exp_0 in H. lra. }
  split; [exact Hmin|]. split; [apply ratio_pos|].
  rewrite Hmin. apply Rmin_l.
Qed.

Section StepFacts.

Variable floglike : vec -> R.
Variable flogprior : option (vec -> R).
Variable beta : R.
Variable N D : nat.
Variables xlb xub : vec.

Local Abbreviation score := (flogpost floglike flogprior beta xlb xub).
Local Abbreviation step := (MChain_step floglike flogprior beta D xlb xub).

(** X2.  Where the scores are finite numbers, a candidate whose score is
    not larger than the current score is accepted whatever the uniform draw
    in [0,1): the step moves to the candidate, takes its score and counts an
    acceptance.  (With scores that are [inf] or [nan] the ratio of the code
    is [nan] and the candidate is rejected; [finite_scores] excludes that
    input.) *)
Theorem MChain_step_accepts_no_worse (L : mat) (i : nat) (st : chain_state)
    (w : World) :
  uniform_tape (rng w) -> finite_scores flogprior xlb xub ->
  let Xt := propose D xlb xub L (cur_X st) (next_normals D w) in
  score Xt <= cur_pX st ->
  exists st',
    step L i st w = (Ok st', after_step D w) /\
    cur_X st' = Xt /\ cur_pX st' = score Xt /\
    cur_Accept st' = cur_Accept st + 1 /\
    cur_Chain st' = Np.set_nth i Xt (cur_Chain st).
Proof.
  intros Hu _ Xt Hle.
  destruct (MChain_step_run floglike flogprior beta D xlb xub L i st w)
    as (st' & E & EC & _ & Hcase).
  fold Xt in Hcase. exists st'. split; [exact E|].
  destruct Hcase as [(_ & EX & EP & EA)|(Hrej & _)].
  - rewrite EC, EX. auto.
  - exfalso. apply Hrej.
    assert (Hr : ratio (cur_pX st) (score Xt) = 1).
    { unfold ratio. destruct (Rgt_dec _ _) as [_|Hn]; [reflexivity|].
      assert (Heq : cur_pX st = score Xt) by lra.
      rewrite Heq. replace (0.5 * (score Xt - score Xt)) with 0 by lra.
      apply exp_0. }
    rewrite Hr. apply Rlt_le, Hu.
Qed.

Lemma MChain_zero_length_raises_aux (X : vec) (sigma L : mat) (w : World) :
  cholesky sigma = Ok L ->
  MChain floglike flogprior beta 0 D xlb xub X sigma w
  = (Raise ZeroDivisionError, consumed 0 0 1 w).
Proof.
  intros HL. rewrite MChain_unfold with (L := L) by exact HL.
  unfold for_range, consumed. simpl.
  unfold bind, ret, div_int, raise. simpl.
  rewrite !Nat.add_0_r. rewrite Nat.add_1_r. destruct w as [[g u gp up] n].
  reflexivity.
Qed.

(** X3.  A chain of length zero raises [ZeroDivisionError] at line 117,
    after the factorisation and the score of the start, without drawing. *)
Theorem MChain_zero_length_raises (X : vec) (sigma L : mat) (w : World) :
  cholesky sigma = Ok L ->
  exists w',
    MChain floglike flogprior beta 0 D xlb xub X sigma w
    = (Raise ZeroDivisionError, w') /\
    rng w' = rng w /\ nscore w' = S (nscore w).
Proof.
  intros HL. exists (mkWorld (rng w) (S (nscore w))).
  rewrite (MChain_zero_length_raises_aux X sigma L w HL).
  unfold consumed. rewrite !Nat.add_0_r, Nat.add_1_r.
  destruct w as [[g u gp up] n]. simpl. auto.
Qed.

Lemma MChain_runs (X : vec) (sigma L : mat) (w : World) :
  cholesky sigma = Ok L -> (1 <= N)%nat ->
  exists r,
    MChain floglike flogprior beta N D xlb xub X sigma w
    = (Ok r, consumed (N * D) N (N + 1) w).
Proof.
  intros HL HN.
  destruct (MChain_returns floglike flogprior beta N D xlb xub
    (fun k _ w1 => w1 = consumed (k * D) k (k + 1) w)
    X sigma L w HL HN) as (st & w' & E & ->).
  - unfold consumed. simpl. rewrite !Nat.add_0_r, Nat.add_1_r.
    destruct w as [[g u gp up] n]. reflexivity.
  - intros i st w1 Hi ->.
    destruct (MChain_step_run floglike flogprior beta D xlb xub L i st
                (consumed (i * D) i (i + 1) w)) as (st' & E & _).
    exists st', (after_step D (consumed (i * D) i (i + 1) w)).
    split; [exact E|]. unfold after_step, consumed. simpl.
    f_equal; [f_equal|]; lia.
  - eexists. exact E.
Qed.

(** X4.  A chain of [N >= 1] steps whose covariance factorises returns
    after exactly [N*D] normal draws, [N] uniform draws and [N+1] posterior
    scores, whatever the draws and the scores are. *)
Theorem MChain_consumption (X : vec) (sigma L : mat) (w : World) :
  cholesky sigma = Ok L -> (1 <= N)%nat ->
  exists Chain Accept LogPost w',
    MChain floglike flogprior beta N D xlb xub X sigma w
    = (Ok (Chain, Accept, LogPost), w') /\
    gpos (rng w') = (gpos (rng w) + N * D)%nat /\
    upos (rng w') = (upos (rng w) + N)%nat /\
    nscore w' = (nscore w + (N + 1))%nat.
Proof.
  intros HL HN. destruct (MChain_runs X sigma L w HL HN) as ([[C a] LP] & E).
  exists C, a, LP, (consumed (N * D) N (N + 1) w). split; [exact E|].
  simpl. auto.
Qed.

End StepFacts.

(** ** What a returned chain satisfies *)

Lemma MChain_ok_facts floglike flogprior beta N D xlb xub X sigma w
    Chain Accept LogPost w' :
  MChain floglike flogprior beta N D xlb xub X sigma w
  = (Ok (Chain, Accept, LogPost), w') ->
  (1 <= N)%nat /\ length Chain = N /\ length LogPost = N /\
  0 <= Accept <= 1 /\
  (forall j, (j < N)%nat ->
     nth j LogPost 0
     = flogpost floglike flogprior beta xlb xub (nth j Chain [])) /\
  (length sigma = D -> length xlb = D -> length xub = D ->
   (forall i, (i < D)%nat -> nth i xlb 0 <= nth i xub 0) ->
   within D xlb xub X ->
   forall j, (j < N)%nat -> within D xlb xub (nth j Chain [])).
Proof.
  intros H.
  destruct (MChain_ok_inv _ _ _ _ _ _ _ _ _ _ _ _ H) as [[L HL] HN].
  set (score := flogpost floglike flogprior beta xlb xub).
  set (P := length sigma = D /\ length xlb = D /\ length xub = D /\
            (forall i, (i < D)%nat -> nth i xlb 0 <= nth i xub 0) /\
            within D xlb xub X).
  destruct (MChain_returns floglike flogprior beta N D xlb xub
    (fun k st _ =>
       length (cur_Chain st) = N /\ length (cur_LogPost st) = N /\
       cur_pX st = score (cur_X st) /\
       0 <= cur_Accept st <= INR k /\
       (forall j, (j < k)%nat ->
          nth j (cur_LogPost st) 0 = score (nth j (cur_Chain st) [])) /\
       (P -> within D xlb xub (cur_X st) /\
             forall j, (j < k)%nat -> within D xlb xub (nth j (cur_Chain st) [])))
    X sigma L w HL HN) as (st & w1 & E & HC & HP & _ & HA & Hpair & Hin).
  - simpl. unfold Np.zeros2, Np.zeros. rewrite !repeat_length.
    split; [reflexivity|]. split; [reflexivity|]. split; [reflexivity|].
    split; [lra|]. split; [intros j Hj; lia|].
    intros (_ & _ & _ & _ & HX). split; [exact HX|]. intros j Hj; lia.
  - intros i st w1 Hi (HC & HP & Hcur & HA & Hpair & Hin).
    destruct (MChain_step_run floglike flogprior beta D xlb xub L i st w1)
      as (st' & E & EC & EP & Hcase).
    exists st', (after_step D w1). split; [exact E|].
    assert (Hcur' : cur_pX st' = score (cur_X st')).
    { destruct Hcase as [(_ & -> & -> & _)|(_ & -> & -> & _)]; auto. }
    assert (HA' : 0 <= cur_Accept st' <= INR (S i)).
    { rewrite S_INR.
      destruct Hcase as [(_ & _ & _ & ->)|(_ & _ & _ & ->)]; lra. }
    assert (Hin' : P -> within D xlb xub (cur_X st')).
    { intros HPp. destruct (Hin HPp) as [Hc _].
      destruct HPp as (Hs & Hl & Hu & Hbox & _).
      destruct Hcase as [(_ & -> & _)|(_ & -> & _)]; [|exact Hc].
      apply propose_within; auto; [|apply Hc].
      rewrite <- Hs. now apply cholesky_shape. }
    rewrite EC, EP, !set_nth_length.
    split; [exact HC|]. split; [exact HP|]. split; [exact Hcur'|].
    split; [exact HA'|]. split.
    + intros j Hj. destruct (Nat.eq_dec i j) as [<-|Hne].
      * rewrite !set_nth_same by lia. exact Hcur'.
      * rewrite !set_nth_other by exact Hne. apply Hpair. lia.
    + intros HPp. split; [now apply Hin'|].
      intros j Hj. destruct (Nat.eq_dec i j) as [<-|Hne].
      * rewrite set_nth_same by lia. now apply Hin'.
      * rewrite set_nth_other by exact Hne. apply (proj2 (Hin HPp)). lia.
  - rewrite E in H. injection H as <- <- <- _.
    assert (HN' : 0 < INR N) by (apply lt_0_INR; lia).
    split; [exact HN|]. split; [exact HC|]. split; [exact HP|].
    split; [|split; [exact Hpair|]].
    + split.
      * apply Rmult_le_pos; [tauto|]. left. now apply Rinv_0_lt_compat.
      * apply Rmult_le_reg_r with (r := INR N); [exact HN'|].
        unfold Rdiv. rewrite Rmult_assoc, Rinv_l by lra. lra.
    + intros Hs Hl Hu Hbox HX. apply Hin. unfold P. auto.
Qed.

(** X5.  The initial point is never clipped, but it is the only recorded
    state that can lie outside the box: the rows recorded before the first
    acceptance all equal the initial point, every row from the first
    acceptance on lies in the box, and the returned rate is zero exactly
    when no step accepted. *)
Theorem MChain_rows_start_then_box floglike flogprior beta N D xlb xub
    (X : vec) (sigma L : mat) (w : World) :
  cholesky sigma = Ok L -> (1 <= N)%nat ->
  length sigma = D -> length X = D -> length xlb = D -> length xub = D ->
  (forall i, (i < D)%nat -> nth i xlb 0 <= nth i xub 0) ->
  exists Chain Accept LogPost w' k,
    MChain floglike flogprior beta N D xlb xub X sigma w
    = (Ok (Chain, Accept, LogPost), w') /\
    (k <= N)%nat /\
    (forall j, (j < k)%nat -> nth j Chain [] = X) /\
    (forall j, (k <= j < N)%nat -> within D xlb xub (nth j Chain [])) /\
    (Accept = 0 <-> k = N).
Proof.
  intros HL HN Hs HX Hl Hu Hbox.
  assert (Hrows : Forall (fun r => length r = D) L).
  { rewrite <- Hs. now apply cholesky_shape. }
  destruct (MChain_returns floglike flogprior beta N D xlb xub
    (fun i st _ =>
       length (cur_Chain st) = N /\
       exists k, (k <= i)%nat /\
         (forall j, (j < k)%nat -> nth j (cur_Chain st) [] = X) /\
         (forall j, (k <= j < i)%nat ->
            within D xlb xub (nth j (cur_Chain st) [])) /\
         ((k = i /\ cur_X st = X /\ cur_Accept st = 0) \/
          ((k < i)%nat /\ within D xlb xub (cur_X st) /\ 0 < cur_Accept st)))
    X sigma L w HL HN)
    as (st & w' & E & HC & k & Hk & Hbefore & Hafter & Hphase).
  - simpl. unfold Np.zeros2. rewrite repeat_length. split; [reflexivity|].
    exists 0%nat. split; [lia|]. split; [intros j Hj; lia|].
    split; [intros j Hj; lia|]. left. auto.
  - intros i st w1 Hi (HC & k & Hk & Hbefore & Hafter & Hphase).
    destruct (MChain_step_run floglike flogprior beta D xlb xub L i st w1)
      as (st' & E & EC & _ & Hcase).
    exists st', (after_step D w1). split; [exact E|].
    rewrite EC, set_nth_length. split; [exact HC|].
    assert (Hlen : length (cur_X st) = D).
    { destruct Hphase as [(_ & -> & _)|(_ & Hc & _)]; [exact HX|apply Hc]. }
    assert (Hold : forall j, (j < i)%nat ->
              nth j (Np.set_nth i (cur_X st') (cur_Chain st)) []
              = nth j (cur_Chain st) []).
    { intros j Hj. apply set_nth_other. lia. }
    assert (Hnew : nth i (Np.set_nth i (cur_X st') (cur_Chain st)) []
                   = cur_X st').
    { apply set_nth_same. lia. }
    destruct Hcase as [(_ & EX & _ & EA)|(_ & EX & _ & EA)].
    + (* accepted: the candidate lies in the box *)
      assert (Hc : within D xlb xub (cur_X st')).
      { rewrite EX. now apply propose_within. }
      exists k. split; [lia|]. split.
      { intros j Hj. rewrite Hold by lia. now apply Hbefore. }
      split.
      { intros j Hj. destruct (Nat.eq_dec j i) as [->|Hne].
        - now rewrite Hnew.
        - rewrite Hold by lia. apply Hafter. lia. }
      right. split; [lia|]. split; [exact Hc|]. rewrite EA.
      destruct Hphase as [(_ & _ & ->)|(_ & _ & Hpos)]; lra.
    + (* rejected: the state is kept *)
      destruct Hphase as [(-> & EXs & EAs)|(Hlt & Hc & Hpos)].
      * exists (S i). split; [lia|]. split.
        { intros j Hj. destruct (Nat.eq_dec j i) as [->|Hne].
          - now rewrite Hnew, EX.
          - rewrite Hold by lia. apply Hbefore. lia. }
        split; [intros j Hj; lia|]. left.
        split; [reflexivity|]. split; [now rewrite EX|now rewrite EA].
      * exists k. split; [lia|]. split.
        { intros j Hj. rewrite Hold by lia. now apply Hbefore. }
        split.
        { intros j Hj. destruct (Nat.eq_dec j i) as [->|Hne].
          - now rewrite Hnew, EX.
          - rewrite Hold by lia. apply Hafter. lia. }
        right. split; [lia|]. split; [now rewrite EX|now rewrite EA].
  - exists (cur_Chain st), (cur_Accept st / INR N), (cur_LogPost st), w', k.
    split; [exact E|]. split; [exact Hk|]. split; [exact Hbefore|].
    split; [exact Hafter|].
    assert (HN' : 0 < INR N) by (apply lt_0_INR; lia).
    destruct Hphase as [(-> & _ & ->)|(Hlt & _ & Hpos)].
    + split; [reflexivity|]. intros _. unfold Rdiv. ring.
    + split; [|lia]. intros H0. exfalso.
      assert (0 < cur_Accept st / INR N).
      { apply Rmult_lt_0_compat; [exact Hpos|now apply Rinv_0_lt_compat]. }
      lra.
Qed.

Lemma MChain_rows_start_then_box_witness :
  cholesky [[1]] = Ok [[1]] /\ (1 <= 3)%nat /\
  exists Chain Accept LogPost w' k,
    MChain downhill None 1 3 1 [0] [1] [5] [[1]] (fresh 0 0.5)
    = (Ok (Chain, Accept, LogPost), w') /\
    (k <= 3)%nat /\
    (forall j, (j < k)%nat -> nth j Chain [] = [5]) /\
    (forall j, (k <= j < 3)%nat -> within 1 [0] [1] (nth j Chain [])) /\
    (Accept = 0 <-> k = 3%nat).
Proof.
  split; [exact cholesky_1x1_unit|]. split; [lia|].
  apply (MChain_rows_start_then_box downhill None 1 3 1 [0] [1] [5] [[1]]
           [[1]] (fresh 0 0.5) cholesky_1x1_unit);
    try reflexivity; try lia.
  intros [|i] Hi; [simpl; lra|lia].
Defined.

Lemma MChain_step_accepts_no_worse_witness :
  uniform_tape (rng (fresh 0 0.5)) /\ finite_scores None [0] [1] /\
  exists st',
    MChain_step (fun _ => 0) None 1 1 [0] [1] [[1]] 0
                (mkChainState [0.5] 0 0 [[0]] [0]) (fresh 0 0.5)
    = (Ok st', after_step 1 (fresh 0 0.5)) /\
    cur_Accept st' = 0 + 1.
Proof.
  assert (Hu : uniform_tape (rng (fresh 0 0.5))).
  { apply uniform_constant_tape. lra. }
  assert (Hf : finite_scores None [0] [1]).
  { intros _. constructor; [lra|constructor]. }
  split; [exact Hu|]. split; [exact Hf|].
  destruct (MChain_step_accepts_no_worse (fun _ => 0) None 1 1 [0] [1] [[1]]
              0%nat (mkChainState [0.5] 0 0 [[0]] [0]) (fresh 0 0.5) Hu Hf)
    as (st' & E & _ & _ & EA & _).
  - unfold flogpost. simpl. np_unfold.
    replace (1 - 0) with 1 by lra. rewrite ln_1. lra.
  - exists st'. split; [exact E|exact EA].
Defined.

Lemma MChain_zero_length_raises_witness :
  cholesky [[1]] = Ok [[1]] /\
  exists w',
    MChain downhill None 1 0 1 [0] [1] [5] [[1]] (fresh 0 0.5)
    = (Raise ZeroDivisionError, w') /\
    rng w' = rng (fresh 0 0.5) /\ nscore w' = S (nscore (fresh 0 0.5)).
Proof.
  split; [exact cholesky_1x1_unit|].
  apply (MChain_zero_length_raises downhill None 1 1 [0] [1] [5] [[1]] [[1]]
           (fresh 0 0.5) cholesky_1x1_unit).
Defined.

Lemma MChain_consumption_witness :
  cholesky [[1]] = Ok [[1]] /\ (1 <= 3)%nat /\
  exists Chain Accept LogPost w',
    MChain downhill None 1 3 1 [0] [1] [5] [[1]] (fresh 0 0.5)
    = (Ok (Chain, Accept, LogPost), w') /\
    gpos (rng w') = (gpos (rng (fresh 0 0.5)) + 3 * 1)%nat /\
    upos (rng w') = (upos (rng (fresh 0 0.5)) + 3)%nat /\
    nscore w' = (nscore (fresh 0 0.5) + (3 + 1))%nat.
Proof.
  split; [exact cholesky_1x1_unit|]. split; [lia|].
  apply (MChain_consumption downhill None 1 3 1 [0] [1] [5] [[1]] [[1]]
           (fresh 0 0.5) cholesky_1x1_unit). lia.
Defined.

(** ** What a returned sampler run satisfies *)

Lemma sampler_ok_inv inv eig worker floglike D xlb xub Xinit flogprior T B N
    M sigma parallel (w w' : World) ChainMerged LogPostMerged ACC GRB :
  sampler inv eig worker floglike D xlb xub Xinit flogprior T B N M sigma
          parallel w
  = (Ok (ChainMerged, LogPostMerged, ACC, GRB), w') ->
  T <> 0 /\
  exists st X Sg wS wX,
    match sigma with
    | None => default_sigma D xlb xub
    | Some s => ret s
    end w = (Ok Sg, wS) /\
    match Xinit with
    | None => default_X D xlb xub M
    | Some X0 => ret X0
    end wS = (Ok X, wX) /\
    merged_upto (retained_run floglike flogprior (1 / T) B N D xlb xub X Sg)
                N M M st /\
    ChainMerged = s_ChainMerged st /\ LogPostMerged = s_LogPostMerged st /\
    ACC = s_ACC st /\
    GRBfactor inv eig (mkArr3 (M, N, D) (s_Chain st)) = Ok GRB.
Proof.
  unfold sampler. intros H.
  apply bind_ok in H. destruct H as (st & w1 & Est & H).
  apply bind_ok in H. destruct H as (g & w2 & Eg & H).
  injection H as <- <- <- <- _.
  unfold lift in Eg. injection Eg as Eg _.
  unfold sampler_chains in Est.
  apply bind_ok in Est. destruct Est as (beta & w3 & Ebeta & Est).
  destruct (Req_dec_T T 0) as [_|HT]; [discriminate|].
  injection Ebeta as <- <-.
  apply bind_ok in Est. destruct Est as (Sg & w4 & ESg & Est).
  apply bind_ok in Est. destruct Est as (X & w5 & EX & Est).
  split; [exact HT|]. exists st, X, Sg, w4, w5.
  split; [exact ESg|]. split; [exact EX|].
  split; [|repeat split; auto].
  destruct parallel.
  - eapply parallel_branch_ok; [exact Est|apply merged_upto_initial].
  - eapply sequential_loop_ok; [exact Est|apply merged_upto_initial].
Qed.

Lemma block_nth {A : Type} (N i j : nat) (l : list A) (d : A) :
  (j < N)%nat -> nth j (block N i l) d = nth (i * N + j) l d.
Proof.
  intros Hj. unfold block. rewrite nth_firstn_lt by exact Hj.
  apply nth_skipn.
Qed.

(** Row [r] of a merged array is row [r mod N] of chain [r / N]. *)
Lemma merged_row {A : Type} (N M r : nat) (merged : list A)
    (chains : list (list A)) (d : A) :
  (r < M * N)%nat ->
  (forall i, (i < M)%nat -> block N i merged = nth i chains []) ->
  (r / N < M)%nat /\ (r mod N < N)%nat /\
  nth r merged d = nth (r mod N) (nth (r / N) chains []) d.
Proof.
  intros Hr Hblocks.
  assert (HN : N <> 0%nat) by (intros ->; lia).
  assert (Hi : (r / N < M)%nat)
    by (apply Nat.Div0.div_lt_upper_bound; lia).
  assert (Hj : (r mod N < N)%nat) by now apply Nat.mod_upper_bound.
  split; [exact Hi|]. split; [exact Hj|].
  rewrite <- (Hblocks (r / N)%nat Hi), block_nth by exact Hj.
  f_equal. rewrite (Nat.div_mod_eq r N) at 1. lia.
Qed.

Lemma default_X_within (D : nat) (xlb xub : vec) (M : nat) (w : World) :
  uniform_tape (rng w) -> length xlb = D -> length xub = D ->
  (forall i, (i < D)%nat -> nth i xlb 0 <= nth i xub 0) ->
  exists X w',
    default_X D xlb xub M w = (Ok X, w') /\ length X = M /\
    forall i, (i < M)%nat -> within D xlb xub (nth i X []).
Proof.
  intros Hu Hl Hub Hbox. unfold default_X, for_range.
  destruct (for_each_inv
    (fun k (X : mat) w1 =>
       unif (rng w1) = unif (rng w) /\ length X = M /\
       forall i, (i < k)%nat -> within D xlb xub (nth i X []))
    (fun i X =>
       r <- rand_vec D ;;
       ret (Np.set_nth i (Np.vadd (Np.vmul r (Np.vsub xub xlb)) xlb) X))
    M 0) with (s := Np.zeros2 M D) (w := w) as (X & w' & E & _ & HX & Hin).
  - intros i X w1 Hi (Ht & HX & Hin). eexists _, _. split; [reflexivity|].
    simpl. rewrite set_nth_length. split; [exact Ht|]. split; [exact HX|].
    set (r := map (fun k => unif (rng w1) (upos (rng w1) + k)%nat) (seq 0 D)).
    assert (Hr : length r = D) by (unfold r; now rewrite length_map, length_seq).
    assert (Hrow : within D xlb xub
                     (Np.vadd (Np.vmul r (Np.vsub xub xlb)) xlb)).
    { unfold within, Np.vadd, Np.vmul, Np.vsub.
      rewrite !zipWith_length. split; [lia|]. intros j Hj.
      rewrite (zipWith_nth Rplus _ _ j 0 0 0)
        by (rewrite ?zipWith_length; lia).
      rewrite (zipWith_nth Rmult _ _ j 0 0 0)
        by (rewrite ?zipWith_length; lia).
      rewrite (zipWith_nth Rminus _ _ j 0 0 0) by lia.
      assert (Hrj : 0 <= nth j r 0 < 1).
      { unfold r.
        rewrite (map_nth_inside _ (seq 0 D) j 0 0%nat)
          by now rewrite length_seq.
        rewrite Ht. apply Hu. }
      specialize (Hbox j Hj). nra. }
    intros j Hj. destruct (Nat.eq_dec i j) as [<-|Hne].
    + rewrite set_nth_same by lia. exact Hrow.
    + rewrite set_nth_other by exact Hne. apply Hin. lia.
  - split; [reflexivity|]. unfold Np.zeros2. rewrite repeat_length.
    split; [reflexivity|]. intros i Hi; lia.
  - exists X, w'. split; [exact E|]. split; [exact HX|exact Hin].
Qed.

Lemma nth_error_within (D : nat) (xlb xub : vec) (X : mat) :
  (forall i, (i < length X)%nat -> within D xlb xub (nth i X [])) ->
  forall i x0, nth_error X i = Some x0 -> within D xlb xub x0.
Proof.
  intros H i x0 E.
  assert (Hi : (i < length X)%nat) by (apply nth_error_Some; congruence).
  apply nth_error_nth with (d := []) in E. rewrite <- E. now apply H.
Qed.

(** X6.  When the box is not empty, the covariance has [D] rows and the
    initial points (the caller's, or the default uniform draws) lie in the
    box, every row of the merged samples that the sampler returns lies in the
    box, in the sequential and in the parallel mode. *)
Theorem sampler_samples_within_bounds inv eig worker floglike D xlb xub
    Xinit flogprior T B N M sigma parallel (w w' : World)
    ChainMerged LogPostMerged ACC GRB :
  sampler inv eig worker floglike D xlb xub Xinit flogprior T B N M sigma
          parallel w
  = (Ok (ChainMerged, LogPostMerged, ACC, GRB), w') ->
  uniform_tape (rng w) -> length xlb = D -> length xub = D ->
  (forall i, (i < D)%nat -> nth i xlb 0 <= nth i xub 0) ->
  (forall s, sigma = Some s -> length s = D) ->
  (forall X0, Xinit = Some X0 -> Forall (within D xlb xub) X0) ->
  forall r, (r < M * N)%nat -> within D xlb xub (nth r ChainMerged []).
Proof.
  intros H Hu Hl Hub Hbox Hsig HXin r Hr.
  destruct (sampler_ok_inv _ _ _ _ _ _ _ _ _ _ _ _ _ _ _ _ _ _ _ _ _ H)
    as (HT & st & X & Sg & wS & wX & ESg & EX & Hm & -> & _ & _ & _).
  assert (HSg : length Sg = D /\ wS = w).
  { destruct sigma as [s|].
    - injection ESg as <- <-. split; [now apply Hsig|reflexivity].
    - rewrite (default_sigma_eval D xlb xub w Hl Hub) in ESg.
      injection ESg as <- <-. split; [apply diagonal_length|reflexivity]. }
  destruct HSg as [HSg ->].
  assert (HX : forall i x0, nth_error X i = Some x0 -> within D xlb xub x0).
  { destruct Xinit as [X0|].
    - injection EX as <- _. intros i x0 E.
      specialize (HXin X0 eq_refl). rewrite Forall_forall in HXin.
      apply HXin. eapply nth_error_In. exact E.
    - destruct (default_X_within D xlb xub M w Hu Hl Hub Hbox)
        as (X1 & w1 & E1 & HL1 & Hin1).
      rewrite E1 in EX. injection EX as <- _.
      apply (nth_error_within D xlb xub X1).
      intros i Hi. apply Hin1. lia. }
  destruct Hm as (_ & _ & _ & _ & _ & Hblocks).
  destruct (merged_row N M r (s_ChainMerged st) (s_Chain st) [] Hr)
    as (Hi & Hj & ->); [intros i Hi; now apply Hblocks|].
  destruct (Hblocks (r / N)%nat Hi) as (Hrun & _).
  destruct Hrun as (x0 & bC & bA & bL & w0 & w1 & w2 & w3 & Ex0 & Eb & Es).
  destruct (MChain_ok_facts _ _ _ _ _ _ _ _ _ _ _ _ _ _ Eb)
    as (HB & HbC & _ & _ & _ & Hbin).
  destruct (MChain_ok_facts _ _ _ _ _ _ _ _ _ _ _ _ _ _ Es)
    as (_ & _ & _ & _ & _ & Hsin).
  apply Hsin; auto.
  apply Hbin; auto; [now apply (HX (r / N)%nat)|lia].
Qed.

(** X7.  Every acceptance rate that the sampler returns lies in [0,1],
    one rate per chain. *)
Theorem sampler_rates_in_unit_interval inv eig worker floglike D xlb xub
    Xinit flogprior T B N M sigma parallel (w w' : World)
    ChainMerged LogPostMerged ACC GRB :
  sampler inv eig worker floglike D xlb xub Xinit flogprior T B N M sigma
          parallel w
  = (Ok (ChainMerged, LogPostMerged, ACC, GRB), w') ->
  length ACC = M /\ forall i, (i < M)%nat -> 0 <= nth i ACC 0 <= 1.
Proof.
  intros H.
  destruct (sampler_ok_inv _ _ _ _ _ _ _ _ _ _ _ _ _ _ _ _ _ _ _ _ _ H)
    as (HT & st & X & Sg & wS & wX & _ & _ & Hm & _ & _ & -> & _).
  destruct Hm as (_ & _ & _ & _ & HA & Hblocks).
  split; [exact HA|]. intros i Hi.
  destruct (Hblocks i Hi) as (Hrun & _).
  destruct Hrun as (x0 & bC & bA & bL & w0 & w1 & w2 & w3 & _ & _ & Es).
  now destruct (MChain_ok_facts _ _ _ _ _ _ _ _ _ _ _ _ _ _ Es)
    as (_ & _ & _ & HAcc & _).
Qed.

(** X8.  The merged arrays stay aligned: entry [r] of the merged scores
    is the posterior score, at inverse temperature [1/T], of row [r] of the
    merged samples. *)
Theorem sampler_merged_scores_pair_with_samples inv eig worker floglike D
    xlb xub Xinit flogprior T B N M sigma parallel (w w' : World)
    ChainMerged LogPostMerged ACC GRB :
  sampler inv eig worker floglike D xlb xub Xinit flogprior T B N M sigma
          parallel w
  = (Ok (ChainMerged, LogPostMerged, ACC, GRB), w') ->
  forall r, (r < M * N)%nat ->
    nth r LogPostMerged 0
    = flogpost floglike flogprior (1 / T) xlb xub (nth r ChainMerged []).
Proof.
  intros H r Hr.
  destruct (sampler_ok_inv _ _ _ _ _ _ _ _ _ _ _ _ _ _ _ _ _ _ _ _ _ H)
    as (HT & st & X & Sg & wS & wX & _ & _ & Hm & -> & -> & _ & _).
  destruct Hm as (_ & _ & _ & _ & _ & Hblocks).
  destruct (merged_row N M r (s_ChainMerged st) (s_Chain st) [] Hr)
    as (Hi & Hj & ->); [intros i Hi; now apply Hblocks|].
  destruct (merged_row N M r (s_LogPostMerged st) (s_LogPost st) 0 Hr)
    as (_ & _ & ->); [intros i Hi0; now apply Hblocks|].
  destruct (Hblocks (r / N)%nat Hi) as (Hrun & _).
  destruct Hrun as (x0 & bC & bA & bL & w0 & w1 & w2 & w3 & _ & _ & Es).
  destruct (MChain_ok_facts _ _ _ _ _ _ _ _ _ _ _ _ _ _ Es)
    as (_ & _ & _ & _ & Hpair & _).
  now apply Hpair.
Qed.

Lemma steady_uniform (z : R) (g u n : nat) : uniform_tape (rng (steady z g u n)).
Proof. intros k. simpl. lra. Qed.

Lemma within_wide_box (x : R) : -10 <= x <= 10 -> within 1 [-10] [10] [x].
Proof.
  intros Hx. split; [reflexivity|]. intros [|i] Hi; [simpl; lra|lia].
Qed.

Lemma sampler_samples_within_bounds_witness :
  exists ChainMerged LogPostMerged ACC GRB w',
    sampler inv_1x1 eig_1x1 (fun _ _ => constant_tape 0 0) (fun _ => 0) 1
            [-10] [10] (Some [[0]; [5]]) None 1 1 2 2 (Some [[1]]) false
            (steady 1 0 0 0)
    = (Ok (ChainMerged, LogPostMerged, ACC, GRB), w') /\
    uniform_tape (rng (steady 1 0 0 0)) /\
    Forall (within 1 [-10] [10]) [[0]; [5]] /\
    forall r, (r < 2 * 2)%nat -> within 1 [-10] [10] (nth r ChainMerged []).
Proof.
  destruct sampler_example_run as ([[[CM LPM] ACC] GRB] & w' & E).
  assert (HX : Forall (within 1 [-10] [10]) [[0]; [5]]).
  { constructor; [apply within_wide_box; lra|].
    constructor; [apply within_wide_box; lra|constructor]. }
  exists CM, LPM, ACC, GRB, w'. split; [exact E|].
  split; [apply steady_uniform|]. split; [exact HX|].
  apply (sampler_samples_within_bounds inv_1x1 eig_1x1
           (fun _ _ => constant_tape 0 0) (fun _ => 0) 1 [-10] [10]
           (Some [[0]; [5]]) None 1 1 2 2 (Some [[1]]) false
           (steady 1 0 0 0) w' CM LPM ACC GRB E (steady_uniform 1 0 0 0)
           eq_refl eq_refl).
  - intros [|i] Hi; [simpl; lra|lia].
  - intros s [= <-]. reflexivity.
  - intros X0 [= <-]. exact HX.
Defined.

Lemma sampler_rates_in_unit_interval_witness :
  exists ChainMerged LogPostMerged ACC GRB w',
    sampler inv_1x1 eig_1x1 (fun _ _ => constant_tape 0 0) (fun _ => 0) 1
            [-10] [10] (Some [[0]; [5]]) None 1 1 2 2 (Some [[1]]) false
            (steady 1 0 0 0)
    = (Ok (ChainMerged, LogPostMerged, ACC, GRB), w') /\
    length ACC = 2%nat /\ forall i, (i < 2)%nat -> 0 <= nth i ACC 0 <= 1.
Proof.
  destruct sampler_example_run as ([[[CM LPM] ACC] GRB] & w' & E).
  exists CM, LPM, ACC, GRB, w'. split; [exact E|].
  exact (sampler_rates_in_unit_interval inv_1x1 eig_1x1
           (fun _ _ => constant_tape 0 0) (fun _ => 0) 1 [-10] [10]
           (Some [[0]; [5]]) None 1 1 2 2 (Some [[1]]) false
           (steady 1 0 0 0) w' CM LPM ACC GRB E).
Defined.

Lemma sampler_merged_scores_pair_with_samples_witness :
  exists ChainMerged LogPostMerged ACC GRB w',
    sampler inv_1x1 eig_1x1 (fun _ _ => constant_tape 0 0) (fun _ => 0) 1
            [-10] [10] (Some [[0]; [5]]) None 1 1 2 2 (Some [[1]]) false
            (steady 1 0 0 0)
    = (Ok (ChainMerged, LogPostMerged, ACC, GRB), w') /\
    forall r, (r < 2 * 2)%nat ->
      nth r LogPostMerged 0
      = flogpost (fun _ => 0) None (1 / 1) [-10] [10] (nth r ChainMerged []).
Proof.
  destruct sampler_example_run as ([[[CM LPM] ACC] GRB] & w' & E).
  exists CM, LPM, ACC, GRB, w'. split; [exact E|].
  exact (sampler_merged_scores_pair_with_samples inv_1x1 eig_1x1
           (fun _ _ => constant_tape 0 0) (fun _ => 0) 1 [-10] [10]
           (Some [[0]; [5]]) None 1 1 2 2 (Some [[1]]) false
           (steady 1 0 0 0) w' CM LPM ACC GRB E).
Defined.

(** ** Errors of the sampler *)

(** A temperature of zero raises [ZeroDivisionError] at line 29, before
    the generator is touched and before any chain runs. *)
Lemma sampler_zero_temperature_raises inv eig worker floglike D xlb xub
    Xinit flogprior B N M sigma parallel (w : World) :
  sampler inv eig worker floglike D xlb xub Xinit flogprior 0 B N M sigma
          parallel w
  = (Raise ZeroDivisionError, w).
Proof.
  unfold sampler. apply bind_eval_raise. unfold sampler_chains.
  apply bind_eval_raise. destruct (Req_dec_T 0 0) as [_|H]; [reflexivity|].
  contradiction.
Qed.

Section FirstChainRaises.

Variable worker : nat -> nat -> RandomState.
Variable floglike : vec -> R.
Variable D : nat.
Variables xlb xub : vec.
Variable flogprior : option (vec -> R).
Variables B N M : nat.
Variable beta : R.
Variables X s : mat.
Variable e : exn.
Variable k : nat.

Hypothesis Hraise : forall x w,
  MChain floglike flogprior beta B D xlb xub x s w
  = (Raise e, consumed 0 0 k w).
Hypothesis HM : (1 <= M)%nat.
Hypothesis HX : (M <= length X)%nat.

Lemma first_chain_raises (parallel : bool) (st : sampler_state) (w : World) :
  exists w',
    (if parallel
     then parallel_branch worker floglike D xlb xub flogprior B N M beta X s st
     else for_range M
            (sequential_body floglike D xlb xub flogprior B N beta X s) st) w
    = (Raise e, w') /\
    nscore w' = (nscore w + (if parallel then M else 1%nat) * k)%nat /\
    gpos (rng w') = gpos (rng w) /\ upos (rng w') = upos (rng w).
Proof.
  destruct parallel.
  - unfold parallel_branch.
    destruct (map_py_index X
                (fun x0 => mkPara floglike flogprior beta B D xlb xub x0 s)
                M 0 w) as (bpara & E & Hlen); [lia|].
    rewrite (bind_eval_ok _ _ w w bpara E).
    eexists. split.
    + apply bind_eval_raise. unfold pool_map.
      apply (pool_tasks_all_raise (worker 0%nat) ParaMC e k bpara).
      * apply map_py_image in E.
        apply (Forall_impl _ (P := fun p => exists x0,
                 p = mkPara floglike flogprior beta B D xlb xub x0 s));
          [|exact E].
        intros p (x0 & ->) w0. exists (consumed 0 0 k w0).
        split; [|reflexivity].
        unfold ParaMC. apply bind_eval_raise. simpl. apply Hraise.
      * destruct bpara; [simpl in Hlen; lia|discriminate].
    + simpl. rewrite Hlen. auto.
  - unfold for_range. destruct M as [|m]; [lia|]. simpl.
    destruct (nth_error X 0) as [x0|] eqn:E0.
    2:{ apply nth_error_None in E0. lia. }
    eexists. split.
    + apply bind_eval_raise. unfold sequential_body.
      rewrite (bind_eval_ok _ _ w w x0 (index_eval X 0 x0 w E0)).
      apply bind_eval_raise. apply Hraise.
    + simpl. repeat split; lia.
Qed.

End FirstChainRaises.

(** X10.  A burn-in of length zero is not supported: with at least one
    chain and a covariance that factorises, [B = 0] makes the burn-in raise
    [ZeroDivisionError] before any random number is drawn.  The loop of
    lines 46-55 stops in its first chain, after one posterior score; the
    pool raises after at least one and at most [M] scores, one for each
    burn-in task that ran. *)
Theorem sampler_zero_burn_in_raises inv eig worker floglike D xlb xub X0
    flogprior T N M s L parallel (w : World) :
  T <> 0 -> (1 <= M)%nat -> (M <= length X0)%nat -> cholesky s = Ok L ->
  exists w',
    sampler inv eig worker floglike D xlb xub (Some X0) flogprior T 0 N M
            (Some s) parallel w
    = (Raise ZeroDivisionError, w') /\
    (nscore w + 1 <= nscore w' <= nscore w + M)%nat /\
    (parallel = false -> nscore w' = (nscore w + 1)%nat) /\
    gpos (rng w') = gpos (rng w) /\ upos (rng w') = upos (rng w).
Proof.
  intros HT HM HX HL.
  destruct (first_chain_raises worker floglike D xlb xub flogprior 0 N M
              (1 / T) X0 s ZeroDivisionError 1) with (parallel := parallel)
      (st := mkSamplerState (repeat (Np.zeros2 N D) M) (Np.zeros2 M N)
               (Np.zeros2 (M * N) D) (Np.zeros (M * N)) (Np.zeros M))
      (w := w)
    as (w' & E & Hn & Hg & Hu); auto.
  { intros x w0. now apply MChain_zero_length_raises_aux with (L := L). }
  exists w'. split.
  - unfold sampler. apply bind_eval_raise.
    rewrite sampler_chains_beta by exact HT.
    unfold bind at 1, ret at 1. unfold bind at 1, ret at 1.
    destruct parallel; exact E.
  - split; [destruct parallel; lia|]. split; [intros ->; lia|].
    split; assumption.
Qed.

Lemma sampler_zero_burn_in_raises_witness :
  1 <> 0 /\ (1 <= 2)%nat /\ (2 <= length [[0]; [5]])%nat /\
  cholesky [[1]] = Ok [[1]] /\
  exists w',
    sampler inv_1x1 eig_1x1 (fun _ _ => constant_tape 0 0) (fun _ => 0) 1
            [-10] [10] (Some [[0]; [5]]) None 1 0 5 2 (Some [[1]]) true
            (steady 1 0 0 0)
    = (Raise ZeroDivisionError, w') /\
    (nscore (steady 1 0 0 0) + 1 <= nscore w'
     <= nscore (steady 1 0 0 0) + 2)%nat /\
    (true = false -> nscore w' = (nscore (steady 1 0 0 0) + 1)%nat) /\
    gpos (rng w') = gpos (rng (steady 1 0 0 0)) /\
    upos (rng w') = upos (rng (steady 1 0 0 0)).
Proof.
  split; [lra|]. split; [lia|]. split; [simpl; lia|].
  split; [exact cholesky_1x1_unit|].
  apply (sampler_zero_burn_in_raises inv_1x1 eig_1x1
           (fun _ _ => constant_tape 0 0) (fun _ => 0) 1 [-10] [10]
           [[0]; [5]] None 1 5 2 [[1]] [[1]] true (steady 1 0 0 0));
    [lra|lia|simpl; lia|exact cholesky_1x1_unit].
Defined.

(** ** Too few initial points *)

Lemma map_py_index_short {A B : Type} (X : list A) (f : A -> B) (n a : nat)
    (w : World) :
  (a <= length X)%nat -> (length X < a + n)%nat ->
  map_py (fun i => x0 <- index X i ;; ret (f x0)) (seq a n) w
  = (Raise IndexError, w).
Proof.
  revert a; induction n as [|n IH]; intros a Ha Hn; [lia|]. simpl.
  destruct (nth_error X a) as [x|] eqn:Ex.
  - assert (Hlt : (a < length X)%nat) by (apply nth_error_Some; congruence).
    rewrite (bind_eval_ok _ _ w w (f x)).
    + apply bind_eval_raise. apply IH; lia.
    + rewrite (bind_eval_ok _ _ w w x (index_eval X a x w Ex)). reflexivity.
  - apply bind_eval_raise. apply bind_eval_raise.
    unfold index. now rewrite Ex.
Qed.

(** X11.  In the parallel mode an initial-point array with fewer than [M]
    rows raises [IndexError] while the burn-in tasks are being built: no
    chain runs, nothing is drawn and no score is computed. *)
Theorem sampler_parallel_short_init_raises inv eig worker floglike D xlb xub
    X0 flogprior T B N M s (w : World) :
  T <> 0 -> (length X0 < M)%nat ->
  sampler inv eig worker floglike D xlb xub (Some X0) flogprior T B N M
          (Some s) true w
  = (Raise IndexError, w).
Proof.
  intros HT HX. unfold sampler. apply bind_eval_raise.
  rewrite sampler_chains_beta by exact HT.
  unfold bind at 1, ret at 1. unfold bind at 1, ret at 1.
  unfold parallel_branch. apply bind_eval_raise.
  apply (map_py_index_short X0
           (fun x0 => mkPara floglike flogprior (1 / T) B D xlb xub x0 s));
    lia.
Qed.

Lemma sampler_parallel_short_init_raises_witness :
  1 <> 0 /\ (length [[0]] < 2)%nat /\
  sampler inv_1x1 eig_1x1 (fun _ _ => constant_tape 0 0) (fun _ => 0) 1
          [-10] [10] (Some [[0]]) None 1 1 1 2 (Some [[1]]) true
          (steady 0 0 0 0)
  = (Raise IndexError, steady 0 0 0 0).
Proof.
  split; [lra|]. split; [simpl; lia|].
  apply (sampler_parallel_short_init_raises inv_1x1 eig_1x1
           (fun _ _ => constant_tape 0 0) (fun _ => 0) 1 [-10] [10] [[0]]
           None 1 1 1 2 [[1]] (steady 0 0 0 0)); [lra|simpl; lia].
Defined.

Section ShortInitSequential.

Variable floglike : vec -> R.
Variable D : nat.
Variables xlb xub : vec.
Variable flogprior : option (vec -> R).
Variables B N : nat.
Variable beta : R.
Variables X s L : mat.

Hypothesis HL : cholesky s = Ok L.
Hypothesis HB : (1 <= B)%nat.
Hypothesis HN : (1 <= N)%nat.

Lemma sequential_body_runs (i : nat) (st : sampler_state) (w : World) :
  (i < length X)%nat ->
  exists st' w',
    sequential_body floglike D xlb xub flogprior B N beta X s i st w
    = (Ok st', w') /\
    nscore w' = (nscore w + (B + N + 2))%nat /\
    gpos (rng w') = (gpos (rng w) + (B + N) * D)%nat /\
    upos (rng w') = (upos (rng w) + (B + N))%nat.
Proof.
  intros Hi. unfold sequential_body.
  destruct (nth_error X i) as [x0|] eqn:E0.
  2:{ apply nth_error_None in E0. lia. }
  rewrite (bind_eval_ok _ _ w w x0 (index_eval X i x0 w E0)).
  destruct (MChain_runs floglike flogprior beta B D xlb xub x0 s L w HL HB)
    as ([[bC bA] bL] & Eb).
  rewrite (bind_eval_ok _ _ _ _ _ Eb).
  destruct (MChain_ok_facts _ _ _ _ _ _ _ _ _ _ _ _ _ _ Eb)
    as (_ & HbC & _).
  assert (Elast : index_last bC (consumed (B * D) B (B + 1) w)
                  = (Ok (nth (length bC - 1) bC []),
                     consumed (B * D) B (B + 1) w)).
  { unfold index_last. destruct bC as [|r0 bC']; [simpl in HbC; lia|].
    apply index_eval. apply nth_error_nth'. simpl. lia. }
  rewrite (bind_eval_ok _ _ _ _ _ Elast).
  destruct (MChain_runs floglike flogprior beta N D xlb xub
              (nth (length bC - 1) bC []) s L
              (consumed (B * D) B (B + 1) w) HL HN)
    as ([[iC iA] iL] & Ei).
  rewrite (bind_eval_ok _ _ _ _ _ Ei).
  eexists _, _. split; [reflexivity|]. simpl. repeat split; lia.
Qed.

Lemma sequential_short (n a : nat) (st : sampler_state) (w : World) :
  (a <= length X)%nat -> (length X < a + n)%nat ->
  exists w',
    for_each (seq a n)
      (sequential_body floglike D xlb xub flogprior B N beta X s) st w
    = (Raise IndexError, w') /\
    nscore w' = (nscore w + (length X - a) * (B + N + 2))%nat /\
    gpos (rng w') = (gpos (rng w) + (length X - a) * ((B + N) * D))%nat /\
    upos (rng w') = (upos (rng w) + (length X - a) * (B + N))%nat.
Proof.
  revert a st w; induction n as [|n IH]; intros a st w Ha Hn; [lia|]. simpl.
  destruct (Nat.eq_dec a (length X)) as [->|Hne].
  - exists w. split.
    + apply bind_eval_raise. unfold sequential_body. apply bind_eval_raise.
      unfold index.
      destruct (nth_error X (length X)) eqn:E; [|reflexivity].
      assert (length X < length X)%nat by (apply nth_error_Some; congruence).
      lia.
    + rewrite Nat.sub_diag. simpl. repeat split; lia.
  - destruct (sequential_body_runs a st w ltac:(lia))
      as (st1 & w1 & E1 & Hn1 & Hg1 & Hu1).
    destruct (IH (S a) st1 w1 ltac:(lia) ltac:(lia))
      as (w' & E & Hn' & Hg' & Hu').
    exists w'. split.
    + rewrite (bind_eval_ok _ _ _ _ _ E1). exact E.
    + replace (length X - a)%nat with (S (length X - S a)) by lia.
      rewrite Hn', Hg', Hu', Hn1, Hg1, Hu1. simpl. repeat split; lia.
Qed.

End ShortInitSequential.

(** X12.  In the sequential mode an initial-point array with [k < M] rows
    is noticed late: the first [k] chains run their burn-in and their
    sampling phase in full, which costs [k*(B+N)*D] normal draws, [k*(B+N)]
    uniform draws and [k*(B+N+2)] posterior scores, before row [k] raises
    [IndexError] and the results are lost. *)
Theorem sampler_sequential_short_init_raises inv eig worker floglike D xlb
    xub X0 flogprior T B N M s L (w : World) :
  T <> 0 -> (length X0 < M)%nat ->
  cholesky s = Ok L -> (1 <= B)%nat -> (1 <= N)%nat ->
  exists w',
    sampler inv eig worker floglike D xlb xub (Some X0) flogprior T B N M
            (Some s) false w
    = (Raise IndexError, w') /\
    nscore w' = (nscore w + length X0 * (B + N + 2))%nat /\
    gpos (rng w') = (gpos (rng w) + length X0 * ((B + N) * D))%nat /\
    upos (rng w') = (upos (rng w) + length X0 * (B + N))%nat.
Proof.
  intros HT HX HL HB HN.
  destruct (sequential_short floglike D xlb xub flogprior B N (1 / T) X0 s L
              HL HB HN M 0
              (mkSamplerState (repeat (Np.zeros2 N D) M) (Np.zeros2 M N)
                 (Np.zeros2 (M * N) D) (Np.zeros (M * N)) (Np.zeros M))
              w) as (w' & E & H); [lia|lia|].
  rewrite Nat.sub_0_r in H.
  exists w'. split; [|exact H].
  unfold sampler. apply bind_eval_raise.
  rewrite sampler_chains_beta by exact HT.
  unfold bind at 1, ret at 1. unfold bind at 1, ret at 1.
  exact E.
Qed.

Lemma sampler_sequential_short_init_raises_witness :
  1 <> 0 /\ (length [[0]] < 2)%nat /\ cholesky [[1]] = Ok [[1]] /\
  exists w',
    sampler inv_1x1 eig_1x1 (fun _ _ => constant_tape 0 0) (fun _ => 0) 1
            [-10] [10] (Some [[0]]) None 1 1 1 2 (Some [[1]]) false
            (steady 0 0 0 0)
    = (Raise IndexError, w') /\
    nscore w' = (nscore (steady 0 0 0 0) + length [[0]] * (1 + 1 + 2))%nat /\
    gpos (rng w')
    = (gpos (rng (steady 0 0 0 0)) + length [[0]] * ((1 + 1) * 1))%nat /\
    upos (rng w')
    = (upos (rng (steady 0 0 0 0)) + length [[0]] * (1 + 1))%nat.
Proof.
  split; [lra|]. split; [simpl; lia|]. split; [exact cholesky_1x1_unit|].
  apply (sampler_sequential_short_init_raises inv_1x1 eig_1x1
           (fun _ _ => constant_tape 0 0) (fun _ => 0) 1 [-10] [10] [[0]]
           None 1 1 1 2 [[1]] [[1]] (steady 0 0 0 0));
    [lra|simpl; lia|exact cholesky_1x1_unit|lia|lia].
Defined.

(** ** Bounds that leave no room *)

Lemma sampler_factorisation_fails inv eig worker floglike D xlb xub Xinit
    flogprior T B N M sigma parallel (w : World) (Sg : mat) (e : exn) :
  match sigma with
  | None => default_sigma D xlb xub
  | Some s => ret s
  end w = (Ok Sg, w) ->
  cholesky Sg = Raise e ->
  T <> 0 -> (1 <= M)%nat ->
  (forall X0, Xinit = Some X0 -> (M <= length X0)%nat) ->
  exists w',
    sampler inv eig worker floglike D xlb xub Xinit flogprior T B N M sigma
            parallel w
    = (Raise e, w') /\
    nscore w' = nscore w /\ gpos (rng w') = gpos (rng w).
Proof.
  intros ESg Hc HT HM HX0.
  assert (HX : exists X wX,
             match Xinit with
             | None => default_X D xlb xub M
             | Some X0 => ret X0
             end w = (Ok X, wX) /\ (M <= length X)%nat /\
             nscore wX = nscore w /\ gpos (rng wX) = gpos (rng w)).
  { destruct Xinit as [X0|].
    - exists X0, w. repeat split; auto.
    - destruct (default_X_returns D xlb xub M w) as (X & wX & E & HL & H).
      exists X, wX. split; [exact E|]. split; [lia|exact H]. }
  destruct HX as (X & wX & EX & HL & Hn & Hg).
  exists wX. split; [|split; assumption].
  unfold sampler. apply bind_eval_raise.
  rewrite sampler_chains_beta by exact HT.
  rewrite (bind_eval_ok _ _ w w Sg ESg).
  rewrite (bind_eval_ok _ _ w wX X EX).
  destruct parallel.
  - now apply parallel_fails.
  - now apply sequential_fails.
Qed.

Lemma diagonal_entry_outside (d : nat -> R) (D i j : nat) :
  (D <= i)%nat \/ (D <= j)%nat -> entry (diagonal d D) i j = 0.
Proof.
  intros H. unfold entry.
  destruct (Nat.lt_ge_cases i D) as [Hi|Hi].
  - rewrite diagonal_row by exact Hi. apply nth_overflow.
    rewrite length_map, length_seq. lia.
  - rewrite (nth_overflow (diagonal d D)) by (rewrite diagonal_length; lia).
    now destruct j.
Qed.

Lemma diagonal_symmetric (d : nat -> R) (D : nat) : symmetric (diagonal d D).
Proof.
  intros i j.
  destruct (Nat.lt_ge_cases i D) as [Hi|Hi], (Nat.lt_ge_cases j D) as [Hj|Hj];
    try (rewrite !diagonal_entry_outside by lia; reflexivity).
  rewrite !diagonal_entry by assumption.
  destruct (Nat.eqb_spec i j) as [->|Hne].
  - now rewrite Nat.eqb_refl.
  - destruct (Nat.eqb_spec j i); [congruence|reflexivity].
Qed.

Lemma quad_diagonal_unit (d : nat -> R) (D i : nat) :
  (i < D)%nat -> quad (diagonal d D) (Np.eye_row D i) = d i.
Proof.
  intros Hi. unfold quad.
  assert (He : forall j, (j < D)%nat ->
            nth j (Np.eye_row D i) 0 = if Nat.eqb i j then 1 else 0).
  { intros j Hj. unfold Np.eye_row.
    rewrite (map_nth_inside _ (seq 0 D) j 0 0%nat) by now rewrite length_seq.
    now rewrite seq_nth. }
  assert (Hlen : length (Np.eye_row D i) = D).
  { unfold Np.eye_row. now rewrite length_map, length_seq. }
  rewrite (dot_rsum D) by (left; lia).
  rewrite (rsum_single D i); [|exact Hi|].
  - rewrite He, Nat.eqb_refl by exact Hi. unfold Np.mat_vec.
    rewrite (map_nth_inside _ (diagonal d D) i 0 [])
      by now rewrite diagonal_length.
    rewrite (dot_rsum D) by (right; lia).
    rewrite (rsum_single D i); [|exact Hi|].
    + change (nth i (nth i (diagonal d D) []) 0)
        with (entry (diagonal d D) i i).
      rewrite diagonal_entry, Nat.eqb_refl, He, Nat.eqb_refl by exact Hi. lra.
    + intros j Hj Hne. rewrite He by exact Hj.
      destruct (Nat.eqb_spec i j); [congruence|lra].
  - intros j Hj Hne. rewrite He by exact Hj.
    destruct (Nat.eqb_spec i j); [congruence|lra].
Qed.

Lemma cholesky_diagonal_fails (d : nat -> R) (D i : nat) :
  (i < D)%nat -> d i <= 0 -> cholesky (diagonal d D) = Raise LinAlgError.
Proof.
  intros Hi Hd. apply (cholesky_fails_not_positive_definite D).
  - split; [apply diagonal_length|apply diagonal_rows].
  - apply diagonal_symmetric.
  - intros Hpd. specialize (Hpd (Np.eye_row D i)).
    rewrite quad_diagonal_unit in Hpd by exact Hi.
    assert (0 < d i); [|lra]. apply Hpd.
    + unfold Np.eye_row. now rewrite length_map, length_seq.
    + intros Hz. assert (H1 : nth i (Np.eye_row D i) 0 = 1).
      { unfold Np.eye_row.
        rewrite (map_nth_inside _ (seq 0 D) i 0 0%nat)
          by now rewrite length_seq.
        now rewrite seq_nth, Nat.eqb_refl. }
      rewrite Hz, nth_zeros in H1. lra.
Qed.

(** X13.  Without a covariance from the caller, bounds with
    [xub[i] <= xlb[i]] in some dimension are rejected by accident: the default
    covariance then has a diagonal entry that is not positive, and the
    factorisation of the first chain raises [LinAlgError] before any candidate
    is drawn and before any score is computed. *)
Theorem sampler_default_sigma_rejects_empty_range inv eig worker floglike D
    xlb xub Xinit flogprior T B N M parallel (w : World) (i : nat) :
  length xlb = D -> length xub = D ->
  (i < D)%nat -> nth i xub 0 <= nth i xlb 0 ->
  T <> 0 -> (1 <= M)%nat ->
  (forall X0, Xinit = Some X0 -> (M <= length X0)%nat) ->
  exists w',
    sampler inv eig worker floglike D xlb xub Xinit flogprior T B N M None
            parallel w
    = (Raise LinAlgError, w') /\
    nscore w' = nscore w /\ gpos (rng w') = gpos (rng w).
Proof.
  intros Hl Hu Hi Hdeg HT HM HX0.
  apply (sampler_factorisation_fails inv eig worker floglike D xlb xub Xinit
           flogprior T B N M None parallel w
           (diagonal (fun j => 0.1 * (nth j xub 0 - nth j xlb 0)) D));
    auto.
  - now apply default_sigma_eval.
  - apply (cholesky_diagonal_fails _ D i Hi). lra.
Qed.

Lemma sampler_default_sigma_rejects_empty_range_witness :
  length [1] = 1%nat /\ (0 < 1)%nat /\ nth 0 [1] 0 <= nth 0 [1] 0 /\
  exists w',
    sampler inv_1x1 eig_1x1 (fun _ _ => constant_tape 0 0) (fun _ => 0) 1
            [1] [1] None None 1 5 5 2 None true (fresh 0 0.5)
    = (Raise LinAlgError, w') /\
    nscore w' = nscore (fresh 0 0.5) /\
    gpos (rng w') = gpos (rng (fresh 0 0.5)).
Proof.
  split; [reflexivity|]. split; [lia|]. split; [simpl; lra|].
  apply (sampler_default_sigma_rejects_empty_range inv_1x1 eig_1x1
           (fun _ _ => constant_tape 0 0) (fun _ => 0) 1 [1] [1] None None 1
           5 5 2 true (fresh 0 0.5) 0%nat);
    try reflexivity; try lia; try lra; try (simpl; lra).
  intros X0 H. discriminate H.
Defined.

(** ** Values of the diagnostic *)

(** X14.  Under the conditions in which the diagnostic returns (at least
    two chains of at least two samples, an invertible within-chain covariance,
    real eigenvalues from [np.linalg.eig]), its value is at least
    [sqrt ((N-1)/N)]: the between-chain term cannot lower it. *)
Theorem GRBfactor_lower_bound inv eig (nchain nmax ndim : nat)
    (data : list mat) (Winv : mat) :
  length data = nchain -> (2 <= nchain)%nat -> (2 <= nmax)%nat ->
  ensemble_shape nmax ndim data ->
  let W := spec_W ndim data in
  let A := Np.mat_mat ndim Winv (spec_B ndim data) in
  inv W = Some Winv -> square ndim Winv ->
  Np.mat_mat ndim Winv W = Np.eye ndim ->
  Np.mat_mat ndim W Winv = Np.eye ndim ->
  eig A <> [] ->
  (forall lam, In lam (eig A) -> eigenvalue ndim A lam) ->
  exists g,
    GRBfactor inv eig (mkArr3 (nchain, nmax, ndim) data) = Ok g /\
    sqrt ((INR nmax - 1) / INR nmax) <= g.
Proof.
  intros Hlen HM HN Hshape W A Hinv Hsq Hleft Hright Hne Heig.
  destruct (np_max_spec (eig A) Hne) as (lam & Emax & Hin & _).
  assert (Hlam : 0 <= lam).
  { apply (eigenvalue_nonneg ndim W Winv (spec_B ndim data) lam); auto.
    - now apply (psd_spec_W nmax).
    - apply (psd_spec_B nmax); [lia|exact Hshape]. }
  assert (HNpos : 2 <= INR nmax) by (change 2 with (INR 2); now apply le_INR).
  assert (HMpos : 2 <= INR nchain) by (change 2 with (INR 2); now apply le_INR).
  assert (H1 : 0 <= (INR nmax - 1) / INR nmax).
  { apply Rmult_le_pos; [lra|]. left. apply Rinv_0_lt_compat. lra. }
  assert (H2 : 0 <= (INR nchain + 1) / INR nchain * lam).
  { apply Rmult_le_pos; [|exact Hlam].
    apply Rmult_le_pos; [lra|]. left. apply Rinv_0_lt_compat. lra. }
  exists (sqrt ((INR nmax - 1) / INR nmax
                + (INR nchain + 1) / INR nchain * lam)).
  split; [|apply sqrt_le_1; lra].
  subst nchain. rewrite GRBfactor_eval.
  replace (length data <? 2)%nat with false
    by (symmetry; apply Nat.ltb_ge; lia).
  replace (nmax <? 2)%nat with false by (symmetry; apply Nat.ltb_ge; lia).
  simpl orb. fold W. rewrite Hinv. fold A. rewrite Emax. reflexivity.
Qed.

Lemma GRBfactor_lower_bound_witness :
  let W := spec_W 1 two_chains in
  let Winv := [[/ entry W 0 0]] in
  let A := Np.mat_mat 1 Winv (spec_B 1 two_chains) in
  length two_chains = 2%nat /\ ensemble_shape 2 1 two_chains /\
  inv_1x1 W = Some Winv /\ eig_1x1 A <> [] /\
  exists g,
    GRBfactor inv_1x1 eig_1x1 (mkArr3 (2%nat, 2%nat, 1%nat) two_chains)
    = Ok g /\
    sqrt ((INR 2 - 1) / INR 2) <= g.
Proof.
  intros W Winv A.
  destruct two_chains_W as [HW Hw]. fold W in HW, Hw.
  destruct (inverse_1x1 (entry W 0 0) Hw) as (Hinv & Hsq & Hleft & Hright).
  rewrite <- HW in Hinv, Hleft, Hright. fold Winv in Hinv, Hsq, Hleft, Hright.
  assert (HA : A = [[/ entry W 0 0 * entry (spec_B 1 two_chains) 0 0 + 0]]).
  { unfold A, Winv. rewrite two_chains_B. reflexivity. }
  assert (Hne : eig_1x1 A <> []) by (rewrite HA; discriminate).
  assert (Heig : forall lam, In lam (eig_1x1 A) -> eigenvalue 1 A lam).
  { intros lam. rewrite HA. apply eig_1x1_spec. }
  split; [reflexivity|]. split; [exact two_chains_shape|].
  split; [exact Hinv|]. split; [exact Hne|].
  apply (GRBfactor_lower_bound inv_1x1 eig_1x1 2 2 1 two_chains Winv eq_refl
           (le_n 2) (le_n 2) two_chains_shape Hinv Hsq Hleft Hright Hne Heig).
Defined.

(** ** Identical chains *)

Lemma vadd_vscale (a : R) (m : vec) :
  Np.vadd m (Np.vscale a m) = Np.vscale (a + 1) m.
Proof.
  unfold Np.vadd, Np.vscale. induction m as [|x m IH]; simpl; [reflexivity|].
  rewrite IH. f_equal. lra.
Qed.

Lemma sum_repeat (D n : nat) (m : vec) :
  length m = D ->
  fold_right Np.vadd (Np.zeros D) (repeat m n) = Np.vscale (INR n) m.
Proof.
  intros Hm. induction n as [|n IH].
  - simpl. rewrite vscale_0. now rewrite Hm.
  - change (repeat m (S n)) with (m :: repeat m n). simpl fold_right.
    rewrite IH, vadd_vscale, S_INR. reflexivity.
Qed.

Lemma mean0_repeat (D n : nat) (m : vec) :
  length m = D -> (1 <= n)%nat -> Np.mean0 D (repeat m n) = m.
Proof.
  intros Hm Hn. unfold Np.mean0. rewrite repeat_length, sum_repeat by exact Hm.
  unfold Np.vscale. rewrite map_map. rewrite <- (map_id m) at 2.
  apply map_ext. intros x.
  assert (0 < INR n) by (apply lt_0_INR; lia). field. lra.
Qed.

Lemma vsub_self (D : nat) (m : vec) : length m = D -> Np.vsub m m = Np.zeros D.
Proof.
  intros <-. unfold Np.vsub, Np.zeros.
  induction m as [|x m IH]; simpl; [reflexivity|]. rewrite IH. f_equal. lra.
Qed.

Lemma outer_zeros (D : nat) :
  Np.outer (Np.zeros D) (Np.zeros D) = Np.zeros2 D D.
Proof.
  assert (H : forall n, map (fun a => Np.vscale a (Np.zeros D)) (repeat 0 n)
                        = repeat (Np.zeros D) n).
  { intros n. rewrite map_repeat. now rewrite vscale_zeros. }
  exact (H D).
Qed.

Lemma madd_zeros2 (n D : nat) :
  Np.madd (Np.zeros2 n D) (Np.zeros2 n D) = Np.zeros2 n D.
Proof.
  unfold Np.madd, Np.zeros2. induction n as [|n IH]; simpl; [reflexivity|].
  now rewrite IH, vadd_zeros.
Qed.

Lemma sum_zeros2 (n D k : nat) :
  fold_right Np.madd (Np.zeros2 n D) (repeat (Np.zeros2 n D) k)
  = Np.zeros2 n D.
Proof.
  induction k as [|k IH]; simpl; [reflexivity|].
  now rewrite IH, madd_zeros2.
Qed.

Lemma mscale_zeros2 (c : R) (n D : nat) :
  Np.mscale c (Np.zeros2 n D) = Np.zeros2 n D.
Proof.
  unfold Np.mscale, Np.zeros2. rewrite map_repeat. now rewrite vscale_zeros.
Qed.

(** The covariance of [n] copies of one point vanishes. *)
Lemma cov_repeat (D n : nat) (m : vec) :
  length m = D -> (1 <= n)%nat -> Np.cov D (repeat m n) = Np.zeros2 D D.
Proof.
  intros Hm Hn. unfold Np.cov. rewrite mean0_repeat by assumption.
  rewrite !map_repeat, (vsub_self D m Hm).
  now rewrite outer_zeros, sum_zeros2, mscale_zeros2.
Qed.

Lemma vec_mat_zeros2 (D n : nat) (row : vec) :
  Np.vec_mat D row (Np.zeros2 n D) = Np.zeros D.
Proof.
  unfold Np.vec_mat, Np.zeros2. revert row.
  induction n as [|n IH]; intros [|c row]; simpl; try reflexivity.
  rewrite IH, vscale_zeros. apply vadd_zeros.
Qed.

Lemma mat_mat_zeros2 (D : nat) (P : mat) :
  Np.mat_mat D P (Np.zeros2 D D) = Np.zeros2 (length P) D.
Proof.
  unfold Np.mat_mat, Np.zeros2 at 2.
  induction P as [|row P IH]; simpl; [reflexivity|].
  now rewrite IH, vec_mat_zeros2.
Qed.

Lemma eigenvalue_zero_matrix (D : nat) (lam : R) :
  eigenvalue D (Np.zeros2 D D) lam -> lam = 0.
Proof.
  intros (v & Hv & Hne & Hev). rewrite mat_vec_zeros2 in Hev.
  destruct (Req_dec lam 0) as [H0|H0]; [exact H0|].
  exfalso. apply Hne. apply zeros_ext; [exact Hv|]. intros i Hi.
  assert (Hi' : nth i (Np.vscale lam v) 0 = 0) by (rewrite <- Hev; apply nth_zeros).
  unfold Np.vscale in Hi'.
  rewrite (map_nth_inside (Rmult lam) v i 0 0) in Hi' by lia.
  apply Rmult_integral in Hi'. tauto.
Qed.

(** X15.  For an ensemble of [M >= 2] copies of one chain of [N >= 2]
    samples the chain means coincide, the between-chain covariance vanishes,
    every eigenvalue is zero, and the diagnostic is exactly
    [sqrt ((N-1)/N)]. *)
Theorem GRBfactor_identical_chains inv eig (nchain nmax ndim : nat) (c : mat)
    (Winv : mat) :
  (2 <= nchain)%nat -> (2 <= nmax)%nat ->
  length c = nmax -> Forall (fun x => length x = ndim) c ->
  let data := repeat c nchain in
  let A := Np.mat_mat ndim Winv (spec_B ndim data) in
  inv (spec_W ndim data) = Some Winv -> length Winv = ndim ->
  eig A <> [] ->
  (forall lam, In lam (eig A) -> eigenvalue ndim A lam) ->
  spec_B ndim data = Np.zeros2 ndim ndim /\
  GRBfactor inv eig (mkArr3 (nchain, nmax, ndim) data)
  = Ok (sqrt ((INR nmax - 1) / INR nmax)).
Proof.
  intros HM HN Hc Hrows data A Hinv HWinv Hne Heig.
  assert (HB : spec_B ndim data = Np.zeros2 ndim ndim).
  { unfold spec_B, data. rewrite map_repeat.
    apply cov_repeat; [now apply mean0_length|lia]. }
  split; [exact HB|].
  assert (HA : A = Np.zeros2 ndim ndim).
  { unfold A. rewrite HB, mat_mat_zeros2. now rewrite HWinv. }
  destruct (np_max_spec (eig A) Hne) as (lam & Emax & Hin & _).
  assert (Hlam : lam = 0).
  { apply (eigenvalue_zero_matrix ndim). rewrite <- HA. now apply Heig. }
  assert (Hlen : length data = nchain) by (unfold data; apply repeat_length).
  rewrite <- Hlen at 1. rewrite GRBfactor_eval.
  replace (length data <? 2)%nat with false
    by (symmetry; apply Nat.ltb_ge; lia).
  replace (nmax <? 2)%nat with false by (symmetry; apply Nat.ltb_ge; lia).
  simpl orb. rewrite Hinv. fold A. rewrite Emax, Hlam.
  do 2 f_equal. lra.
Qed.

Lemma GRBfactor_identical_chains_witness :
  let c := [[0]; [1]] in
  let data := repeat c 2 in
  let Winv := [[/ entry (spec_W 1 data) 0 0]] in
  let A := Np.mat_mat 1 Winv (spec_B 1 data) in
  (2 <= 2)%nat /\ length c = 2%nat /\ Forall (fun x => length x = 1%nat) c /\
  inv_1x1 (spec_W 1 data) = Some Winv /\ length Winv = 1%nat /\
  eig_1x1 A <> [] /\
  (forall lam, In lam (eig_1x1 A) -> eigenvalue 1 A lam) /\
  spec_B 1 data = Np.zeros2 1 1 /\
  GRBfactor inv_1x1 eig_1x1 (mkArr3 (2%nat, 2%nat, 1%nat) data)
  = Ok (sqrt ((INR 2 - 1) / INR 2)).
Proof.
  intros c data Winv A.
  assert (HW : spec_W 1 data = [[entry (spec_W 1 data) 0 0]] /\
               entry (spec_W 1 data) 0 0 <> 0).
  { unfold entry, spec_W, data, c. np_unfold. simpl INR.
    split; [reflexivity|lra]. }
  destruct HW as [HW Hw].
  destruct (inverse_1x1 _ Hw) as (Hinv & _). rewrite <- HW in Hinv.
  fold Winv in Hinv.
  assert (HB : spec_B 1 data = [[entry (spec_B 1 data) 0 0]]).
  { unfold entry, spec_B, data, c. np_unfold. reflexivity. }
  assert (HA : A = [[/ entry (spec_W 1 data) 0 0
                     * entry (spec_B 1 data) 0 0 + 0]]).
  { unfold A, Winv. rewrite HB. reflexivity. }
  assert (Hne : eig_1x1 A <> []) by (rewrite HA; discriminate).
  assert (Heig : forall lam, In lam (eig_1x1 A) -> eigenvalue 1 A lam).
  { intros lam. rewrite HA. apply eig_1x1_spec. }
  assert (Hrows : Forall (fun x => length x = 1%nat) c)
    by (repeat constructor).
  split; [lia|]. split; [reflexivity|]. split; [exact Hrows|].
  split; [exact Hinv|]. split; [reflexivity|]. split; [exact Hne|].
  split; [exact Heig|].
  apply (GRBfactor_identical_chains inv_1x1 eig_1x1 2 2 1 c Winv
           (le_n 2) (le_n 2) eq_refl Hrows Hinv eq_refl Hne Heig).
Defined.

(** ** The temperature *)

Lemma flogpost_temper (floglike : vec -> R) flogprior (T : R) (xlb xub : vec) :
  flogpost floglike flogprior (1 / T) xlb xub
  = flogpost (fun x => floglike x / T) flogprior (1 / 1) xlb xub.
Proof.
  unfold flogpost. destruct flogprior as [prior|];
    apply functional_extensionality; intros x; unfold Rdiv;
    rewrite Rinv_1; ring.
Qed.

Lemma MChain_temper (floglike : vec -> R) flogprior (T : R) (N D : nat)
    (xlb xub : vec) :
  MChain floglike flogprior (1 / T) N D xlb xub
  = MChain (fun x => floglike x / T) flogprior (1 / 1) N D xlb xub.
Proof.
  unfold MChain, MChain_step. rewrite flogpost_temper. reflexivity.
Qed.

Lemma bind_ret_map {A B C : Type} (c : Py A) (h : A -> B) (k : B -> Py C) :
  bind (bind c (fun a => ret (h a))) k = bind c (fun a => k (h a)).
Proof.
  apply functional_extensionality; intros w. unfold bind, ret.
  destruct (c w) as [[a|e] w1]; reflexivity.
Qed.

Lemma bind_assoc {A B C : Type} (c : Py A) (f : A -> Py B) (k : B -> Py C) :
  bind (bind c f) k = bind c (fun a => bind (f a) k).
Proof.
  apply functional_extensionality; intros w. unfold bind.
  destruct (c w) as [[a|e] w1]; reflexivity.
Qed.

Lemma map_py_ret {A B C : Type} (c : A -> Py B) (h : B -> C) (l : list A) :
  map_py (fun i => bind (c i) (fun b => ret (h b))) l
  = bind (map_py c l) (fun bs => ret (map h bs)).
Proof.
  induction l as [|i l IH]; simpl.
  - apply functional_extensionality; intros w. reflexivity.
  - rewrite IH. apply functional_extensionality; intros w.
    unfold bind, ret. destruct (c i w) as [[b|e] w1]; [|reflexivity].
    destruct (map_py c l w1) as [[bs|e] w2]; reflexivity.
Qed.

Lemma pool_tasks_map {A B C : Type} (worker : nat -> RandomState)
    (f : B -> Py C) (h h' : A -> B) :
  (forall a, f (h a) = f (h' a)) ->
  forall (l : list A) (j : nat),
    pool_tasks worker f j (map h l) = pool_tasks worker f j (map h' l).
Proof.
  intros Hf l. induction l as [|a l IH]; intros j; simpl; [reflexivity|].
  rewrite (Hf a), (IH (S j)). reflexivity.
Qed.

Lemma ParaMC_temper (floglike : vec -> R) flogprior (T : R) (N D : nat)
    (xlb xub : vec) (sigma : mat) (x : vec) :
  ParaMC (mkPara floglike flogprior (1 / T) N D xlb xub x sigma)
  = ParaMC (mkPara (fun y => floglike y / T) flogprior (1 / 1) N D xlb xub
                   x sigma).
Proof. unfold ParaMC. simpl. rewrite MChain_temper. reflexivity. Qed.

Lemma parallel_branch_temper worker (floglike : vec -> R) (D : nat)
    (xlb xub : vec) flogprior (B N M : nat) (T : R) (X sigma : mat)
    (st : sampler_state) :
  parallel_branch worker floglike D xlb xub flogprior B N M (1 / T) X sigma st
  = parallel_branch worker (fun x => floglike x / T) D xlb xub flogprior
      B N M (1 / 1) X sigma st.
Proof.
  unfold parallel_branch.
  rewrite (map_py_ret (index X)
             (fun x0 => mkPara floglike flogprior (1 / T) B D xlb xub
                               x0 sigma)).
  rewrite (map_py_ret (index X)
             (fun x0 => mkPara (fun x => floglike x / T) flogprior (1 / 1)
                               B D xlb xub x0 sigma)).
  rewrite !bind_ret_map. f_equal.
  apply functional_extensionality; intros xs. unfold pool_map.
  rewrite (pool_tasks_map (worker 0%nat) ParaMC _ _
             (ParaMC_temper floglike flogprior T B D xlb xub sigma) xs 0).
  f_equal. apply functional_extensionality; intros bres.
  assert (Hassoc : forall (mk : vec -> para),
    (fun i : nat =>
       bind (index bres i)
         (fun r => bind (index_last (r_Chain r)) (fun xb => ret (mk xb))))
    = (fun i : nat =>
         bind (bind (index bres i) (fun r => index_last (r_Chain r)))
           (fun xb => ret (mk xb)))).
  { intros mk. apply functional_extensionality; intros i.
    now rewrite bind_assoc. }
  rewrite !Hassoc.
  rewrite (map_py_ret
             (fun i => bind (index bres i) (fun r => index_last (r_Chain r)))
             (fun xb => mkPara floglike flogprior (1 / T) N D xlb xub
                               xb sigma)).
  rewrite (map_py_ret
             (fun i => bind (index bres i) (fun r => index_last (r_Chain r)))
             (fun xb => mkPara (fun x => floglike x / T) flogprior (1 / 1)
                               N D xlb xub xb sigma)).
  rewrite !bind_ret_map. f_equal.
  apply functional_extensionality; intros ys.
  rewrite (pool_tasks_map (worker 1%nat) ParaMC _ _
             (ParaMC_temper floglike flogprior T N D xlb xub sigma) ys 0).
  reflexivity.
Qed.

Lemma sequential_body_temper (floglike : vec -> R) (D : nat) (xlb xub : vec)
    flogprior (B N : nat) (T : R) (X sigma : mat) :
  sequential_body floglike D xlb xub flogprior B N (1 / T) X sigma
  = sequential_body (fun x => floglike x / T) D xlb xub flogprior B N
      (1 / 1) X sigma.
Proof.
  unfold sequential_body.
  rewrite (MChain_temper floglike flogprior T B D xlb xub),
          (MChain_temper floglike flogprior T N D xlb xub).
  reflexivity.
Qed.

Lemma bind_ret_l {A B : Type} (a : A) (k : A -> Py B) :
  bind (ret a) k = k a.
Proof. apply functional_extensionality; intros w. reflexivity. Qed.

Lemma sampler_chains_temper worker (floglike : vec -> R) (D : nat)
    (xlb xub : vec) Xinit flogprior (T : R) (B N M : nat) sigma parallel :
  T <> 0 ->
  sampler_chains worker floglike D xlb xub Xinit flogprior T B N M sigma
                 parallel
  = sampler_chains worker (fun x => floglike x / T) D xlb xub Xinit
                   flogprior 1 B N M sigma parallel.
Proof.
  intros HT. unfold sampler_chains.
  destruct (Req_dec_T T 0) as [E|_]; [contradiction|].
  destruct (Req_dec_T 1 0) as [E|_]; [lra|].
  rewrite !bind_ret_l. f_equal.
  apply functional_extensionality; intros s. f_equal.
  apply functional_extensionality; intros X. destruct parallel.
  - apply parallel_branch_temper.
  - rewrite sequential_body_temper. reflexivity.
Qed.

(** X9.  The temperature acts only as the factor [1/T] on the
    log-likelihood: for [T <> 0], sampling at temperature [T] is the same
    run, with the same results and the same use of the generator, as
    sampling the log-likelihood divided by [T] at temperature 1. *)
Theorem sampler_temperature_scales_loglike inv eig worker
    (floglike : vec -> R) D xlb xub Xinit flogprior (T : R) B N M sigma
    parallel (w : World) :
  T <> 0 ->
  sampler inv eig worker floglike D xlb xub Xinit flogprior T B N M sigma
          parallel w
  = sampler inv eig worker (fun x => floglike x / T) D xlb xub Xinit
            flogprior 1 B N M sigma parallel w.
Proof.
  intros HT. unfold sampler.
  rewrite (sampler_chains_temper worker floglike D xlb xub Xinit flogprior T
             B N M sigma parallel HT).
  reflexivity.
Qed.

(** A chain on a generator whose normal draws all equal [z] and whose
    uniform draws all equal [u0], when [u0] is at most the ratio at every
    step of the walk: every candidate is accepted. *)
Lemma MChain_walk_accepting floglike flogprior beta N D xlb xub X sigma L
    (z u0 : R) (g u n0 : nat) :
  cholesky sigma = Ok L -> (1 <= N)%nat ->
  let f := drift D xlb xub L z in
  let score := flogpost floglike flogprior beta xlb xub in
  (forall k, (k < N)%nat ->
     u0 <= ratio (score (Nat.iter k f X)) (score (Nat.iter (S k) f X))) ->
  MChain floglike flogprior beta N D xlb xub X sigma
         (mkWorld (mkRandomState (fun _ => z) (fun _ => u0) g u) n0)
  = (Ok (walk f N X, INR N / INR N, map score (walk f N X)),
     mkWorld (mkRandomState (fun _ => z) (fun _ => u0) (g + N * D) (u + N))
             (S n0 + N)).
Proof.
  intros HL HN f score Hacc.
  pose (wk := fun k : nat =>
    mkWorld (mkRandomState (fun _ : nat => z) (fun _ : nat => u0)
               (g + k * D) (u + k)) (S n0 + k)).
  destruct (@MChain_returns floglike flogprior beta N D xlb xub
    (fun k st w1 =>
       w1 = wk k /\
       cur_X st = Nat.iter k f X /\ cur_pX st = score (Nat.iter k f X) /\
       cur_Accept st = INR k /\
       length (cur_Chain st) = N /\ length (cur_LogPost st) = N /\
       forall j, (j < k)%nat ->
         nth j (cur_Chain st) [] = Nat.iter (S j) f X /\
         nth j (cur_LogPost st) 0 = score (Nat.iter (S j) f X))
    X sigma L (mkWorld (mkRandomState (fun _ => z) (fun _ => u0) g u) n0)
    HL HN)
    as (st & w' & E & -> & _ & _ & EA & HC & HP & Hrows).
  - simpl. unfold wk, Np.zeros2, Np.zeros. rewrite !repeat_length.
    rewrite !Nat.add_0_r. repeat (split; [reflexivity|]).
    intros j Hj. lia.
  - intros i st w1 Hi (-> & EX & EP & EA & HC & HP & Hrows).
    destruct (MChain_step_run floglike flogprior beta D xlb xub L i st (wk i))
      as (st' & E & EC & EPo & Hcase).
    exists st', (after_step D (wk i)).
    split; [exact E|].
    destruct Hcase as [(_ & EX' & EP' & EA')|(Hrej & _)].
    2:{ exfalso. apply Hrej. rewrite EP, EX. apply (Hacc i Hi). }
    assert (EXn : cur_X st' = Nat.iter (S i) f X).
    { rewrite EX', EX. reflexivity. }
    split. { unfold after_step, wk. simpl. f_equal; [f_equal|]; lia. }
    split; [exact EXn|]. split. { now rewrite EP', <- EXn, EX'. }
    split. { rewrite EA', EA, S_INR. reflexivity. }
    rewrite EC, EPo, !set_nth_length. repeat (split; [assumption|]).
    intros j Hj. destruct (Nat.eq_dec i j) as [<-|Hne].
    + rewrite !set_nth_same by lia. split; [exact EXn|].
      now rewrite EP', <- EXn, EX'.
    + rewrite !set_nth_other by exact Hne. apply Hrows. lia.
  - assert (E1 : cur_Chain st = walk f N X).
    { apply list_eq_nth with (d := []); [now rewrite walk_length|].
      intros j Hj. rewrite HC in Hj.
      rewrite walk_nth by exact Hj.
      now apply Hrows. }
    assert (E2 : cur_LogPost st = map score (walk f N X)).
    { apply list_eq_nth with (d := 0); [now rewrite length_map, walk_length|].
      intros j Hj. rewrite HP in Hj.
      rewrite map_nth_inside with (d' := [])
        by (rewrite walk_length; exact Hj).
      rewrite walk_nth by exact Hj. now apply Hrows. }
    rewrite E, E1, E2, EA. reflexivity.
Qed.

(** With the score [x / 2], a step to the right is accepted by the uniform
    draw 0.7: its ratio is [exp (-1/4)], which is more than [3/4]. *)
Lemma ratio_half_step (x c : R) :
  0.7 <= ratio (x * (1 / 2) - c) ((x + 1) * (1 / 2) - c).
Proof.
  unfold ratio. destruct (Rgt_dec _ _) as [_|_]; [lra|].
  replace (0.5 * (x * (1 / 2) - c - ((x + 1) * (1 / 2) - c)))
    with (- (1 / 4)) by lra.
  pose proof (exp_ineq1_le (- (1 / 4))). lra.
Qed.

Lemma tempered_chain (N : nat) (x : R) (g u n0 : nat) :
  (1 <= N <= 2)%nat -> -10 <= x <= 8 ->
  MChain (fun y => nth 0 y 0) None (1 / 2) N 1 [-10] [10] [x] [[1]]
         (mkWorld (mkRandomState (fun _ => 1) (fun _ => 0.7) g u) n0)
  = (Ok (walk (drift 1 [-10] [10] [[1]] 1) N [x], INR N / INR N,
         map (flogpost (fun y => nth 0 y 0) None (1 / 2) [-10] [10])
             (walk (drift 1 [-10] [10] [[1]] 1) N [x])),
     mkWorld (mkRandomState (fun _ => 1) (fun _ => 0.7) (g + N * 1) (u + N))
             (S n0 + N)).
Proof.
  intros HN Hx.
  apply MChain_walk_accepting with (L := [[1]]);
    [exact cholesky_1x1_unit|lia|].
  intros k Hk. destruct k as [|[|k]]; [| |lia]; simpl Nat.iter.
  - rewrite drift_unit_step by lra. unfold flogpost. simpl nth.
    apply ratio_half_step.
  - rewrite !drift_unit_step by lra. unfold flogpost. simpl nth.
    apply ratio_half_step.
Qed.

Lemma tempered_body (i : nat) (x : R) (X : mat) (st : sampler_state)
    (g u n : nat) :
  nth_error X i = Some [x] -> -10 <= x <= 7 ->
  sequential_body (fun y => nth 0 y 0) 1 [-10] [10] None 1 2 (1 / 2) X [[1]]
                  i st
                  (mkWorld (mkRandomState (fun _ => 1) (fun _ => 0.7) g u) n)
  = (Ok (store 2 i [[x + 1 + 1]; [x + 1 + 1 + 1]] (INR 2 / INR 2)
           (map (flogpost (fun y => nth 0 y 0) None (1 / 2) [-10] [10])
                [[x + 1 + 1]; [x + 1 + 1 + 1]]) st),
     mkWorld (mkRandomState (fun _ => 1) (fun _ => 0.7)
                (g + 1 * 1 + 2 * 1) (u + 1 + 2)) (S (S n + 1) + 2)).
Proof.
  intros HX Hx. unfold sequential_body.
  rewrite (bind_eval_ok _ _ _ _ _ (index_eval X i [x] _ HX)).
  erewrite bind_eval_ok by (apply tempered_chain; [lia|lra]).
  cbn [walk]. rewrite drift_unit_step by lra.
  erewrite bind_eval_ok by reflexivity.
  erewrite bind_eval_ok by (apply tempered_chain; [lia|lra]).
  cbn [walk]. rewrite !drift_unit_step by lra. reflexivity.
Qed.

Lemma tempered_run :
  exists LogPostMerged GRB w',
    sampler inv_1x1 eig_1x1 (fun _ _ => constant_tape 0 0)
            (fun y => nth 0 y 0) 1 [-10] [10] (Some [[0]; [5]]) None 2 1 2 2
            (Some [[1]]) false (fresh 1 0.7)
    = (Ok ([[0 + 1 + 1]; [0 + 1 + 1 + 1]; [5 + 1 + 1]; [5 + 1 + 1 + 1]],
           LogPostMerged, [INR 2 / INR 2; INR 2 / INR 2], GRB), w').
Proof.
  unfold sampler.
  assert (E : exists st w1,
            sampler_chains (fun _ _ => constant_tape 0 0)
              (fun y => nth 0 y 0) 1 [-10] [10] (Some [[0]; [5]]) None 2 1
              2 2 (Some [[1]]) false (fresh 1 0.7) = (Ok st, w1) /\
            s_Chain st = [[[0 + 1 + 1]; [0 + 1 + 1 + 1]];
                          [[5 + 1 + 1]; [5 + 1 + 1 + 1]]] /\
            s_ChainMerged st
            = [[0 + 1 + 1]; [0 + 1 + 1 + 1]; [5 + 1 + 1]; [5 + 1 + 1 + 1]] /\
            s_ACC st = [INR 2 / INR 2; INR 2 / INR 2]).
  { rewrite sampler_chains_beta by lra.
    unfold bind at 1, ret at 1. unfold bind at 1, ret at 1.
    unfold for_range. simpl seq. simpl for_each.
    rewrite (bind_eval_ok _ _ _ _ _
               (tempered_body 0 0 [[0]; [5]] _ 0 0 0 eq_refl ltac:(lra))).
    rewrite (bind_eval_ok _ _ _ _ _
               (tempered_body 1 5 [[0]; [5]] _ _ _ _ eq_refl ltac:(lra))).
    eexists _, _. split; [reflexivity|]. repeat split. }
  destruct E as (st & w1 & E & HC & HCM & HA).
  rewrite (bind_eval_ok _ _ _ _ _ E). rewrite HC, HCM, HA.
  assert (HG : exists G,
    GRBfactor inv_1x1 eig_1x1
      (mkArr3 (2%nat, 2%nat, 1%nat)
         [[[0 + 1 + 1]; [0 + 1 + 1 + 1]]; [[5 + 1 + 1]; [5 + 1 + 1 + 1]]])
    = Ok G).
  { set (data := [[[0 + 1 + 1]; [0 + 1 + 1 + 1]];
                  [[5 + 1 + 1]; [5 + 1 + 1 + 1]]]).
    change (mkArr3 (2%nat, 2%nat, 1%nat) data)
      with (mkArr3 (length data, 2%nat, 1%nat) data).
    rewrite GRBfactor_eval. simpl orb.
    assert (HW : spec_W 1 data = [[entry (spec_W 1 data) 0 0]] /\
                 entry (spec_W 1 data) 0 0 <> 0).
    { unfold entry, spec_W, data. np_unfold. simpl INR.
      split; [reflexivity|lra]. }
    destruct HW as [HW Hw].
    destruct (inverse_1x1 _ Hw) as (Hinv & _). rewrite <- HW in Hinv.
    rewrite Hinv.
    assert (HB : spec_B 1 data = [[entry (spec_B 1 data) 0 0]]).
    { unfold entry, spec_B, data. np_unfold. reflexivity. }
    rewrite HB. eexists. reflexivity. }
  destruct HG as (G & HG).
  eexists _, _, _. unfold bind, lift. rewrite HG. reflexivity.
Qed.

Lemma sampler_temperature_scales_loglike_witness :
  2 <> 0 /\
  exists LogPostMerged GRB w',
    sampler inv_1x1 eig_1x1 (fun _ _ => constant_tape 0 0)
            (fun y => nth 0 y 0) 1 [-10] [10] (Some [[0]; [5]]) None 2 1 2 2
            (Some [[1]]) false (fresh 1 0.7)
    = (Ok ([[0 + 1 + 1]; [0 + 1 + 1 + 1]; [5 + 1 + 1]; [5 + 1 + 1 + 1]],
           LogPostMerged, [INR 2 / INR 2; INR 2 / INR 2], GRB), w') /\
    sampler inv_1x1 eig_1x1 (fun _ _ => constant_tape 0 0)
            (fun y => nth 0 y 0 / 2) 1 [-10] [10]
            (Some [[0]; [5]]) None 1 1 2 2 (Some [[1]]) false (fresh 1 0.7)
    = (Ok ([[0 + 1 + 1]; [0 + 1 + 1 + 1]; [5 + 1 + 1]; [5 + 1 + 1 + 1]],
           LogPostMerged, [INR 2 / INR 2; INR 2 / INR 2], GRB), w').
Proof.
  assert (H : 2 <> 0) by lra.
  split; [exact H|].
  destruct tempered_run as (LPM & GRB & w' & E).
  exists LPM, GRB, w'. split; [exact E|].
  exact (eq_trans
           (eq_sym (sampler_temperature_scales_loglike inv_1x1 eig_1x1
                      (fun _ _ => constant_tape 0 0) (fun y => nth 0 y 0) 1
                      [-10] [10] (Some [[0]; [5]]) None 2 1 2 2 (Some [[1]])
                      false (fresh 1 0.7) H))
           E).
Defined.

(** ** Bandwidth factors (src/mpdf.py) *)

Lemma power_pos (x y : R) : 0 < Mpdf.power x y.
Proof. unfold Mpdf.power, Rpower. apply exp_pos. Qed.

Lemma power_antitone (x x' y : R) :
  0 < x -> x <= x' -> y <= 0 -> Mpdf.power x' y <= Mpdf.power x y.
Proof.
  intros Hx Hxx Hy. unfold Mpdf.power, Rpower.
  assert (Hln : ln x <= ln x').
  { destruct (Req_dec x x') as [->|Hne]; [lra|].
    apply Rlt_le, ln_increasing; lra. }
  destruct (Req_dec (y * ln x') (y * ln x)) as [->|Hne]; [lra|].
  apply Rlt_le, exp_increasing. nra.
Qed.

Lemma exponent_negative (d : nat) : -1 / (INR d + 4) < 0.
Proof.
  pose proof (pos_INR d) as Hd.
  assert (H : 0 < / (INR d + 4)) by (apply Rinv_0_lt_compat; lra).
  unfold Rdiv. lra.
Qed.

(** X16.  For a sample of at least one point, Silverman's factor is Scott's
    factor times [((d + 2) / 4) ^ (-1 / (d + 4))], a constant of the
    dimension alone; for two-dimensional data the two factors are equal. *)
Theorem my_silverman_fac_from_scott (obj : Mpdf.kde) (fac : R) :
  (1 <= Mpdf.n obj)%nat ->
  Mpdf.my_silverman_fac obj fac
  = Mpdf.power ((INR (Mpdf.d obj) + 2) / 4) (-1 / (INR (Mpdf.d obj) + 4))
    * Mpdf.my_scott_fac obj fac /\
  (Mpdf.d obj = 2%nat ->
   Mpdf.my_silverman_fac obj fac = Mpdf.my_scott_fac obj fac).
Proof.
  intros Hn.
  assert (Hn0 : 0 < INR (Mpdf.n obj)) by (apply lt_0_INR; lia).
  pose proof (pos_INR (Mpdf.d obj)) as Hd.
  assert (Heq : Mpdf.my_silverman_fac obj fac
    = Mpdf.power ((INR (Mpdf.d obj) + 2) / 4) (-1 / (INR (Mpdf.d obj) + 4))
      * Mpdf.my_scott_fac obj fac).
  { unfold Mpdf.my_silverman_fac, Mpdf.my_scott_fac, Mpdf.power.
    replace (INR (Mpdf.n obj) * (INR (Mpdf.d obj) + 2) / 4)
      with (((INR (Mpdf.d obj) + 2) / 4) * INR (Mpdf.n obj)) by lra.
    rewrite <- Rpower_mult_distr by lra. ring. }
  split; [exact Heq|].
  intros Hd2. rewrite Heq, Hd2. simpl INR.
  replace ((1 + 1 + 2) / 4) with 1 by lra.
  unfold Mpdf.power, Rpower. rewrite ln_1, Rmult_0_r, exp_0. ring.
Qed.

Lemma my_silverman_fac_from_scott_witness :
  (1 <= Mpdf.n (Mpdf.mkKde 100 2))%nat /\
  Mpdf.my_silverman_fac (Mpdf.mkKde 100 2) 1
  = Mpdf.my_scott_fac (Mpdf.mkKde 100 2) 1.
Proof.
  assert (H : (1 <= Mpdf.n (Mpdf.mkKde 100 2))%nat) by (simpl; lia).
  split; [exact H|].
  exact (proj2 (my_silverman_fac_from_scott (Mpdf.mkKde 100 2) 1 H)
           eq_refl).
Defined.

(** X17.  With a positive constant [fac], Scott's factor is positive, is
    [fac] itself for a single point, never exceeds [fac], and does not
    grow when points are added (the dimension being the same). *)
Theorem my_scott_fac_shrinks (n n' d : nat) (fac : R) :
  (1 <= n <= n')%nat -> 0 < fac ->
  Mpdf.my_scott_fac (Mpdf.mkKde 1 d) fac = fac /\
  0 < Mpdf.my_scott_fac (Mpdf.mkKde n' d) fac
    <= Mpdf.my_scott_fac (Mpdf.mkKde n d) fac /\
  Mpdf.my_scott_fac (Mpdf.mkKde n d) fac <= fac.
Proof.
  intros [Hn Hnn] Hfac.
  pose proof (exponent_negative d) as He.
  assert (H1 : Mpdf.my_scott_fac (Mpdf.mkKde 1 d) fac = fac).
  { unfold Mpdf.my_scott_fac, Mpdf.power, Rpower. simpl.
    rewrite ln_1, Rmult_0_r, exp_0. ring. }
  assert (Hmono : forall a b, (1 <= a <= b)%nat ->
    Mpdf.my_scott_fac (Mpdf.mkKde b d) fac
    <= Mpdf.my_scott_fac (Mpdf.mkKde a d) fac).
  { intros a b [Ha Hab]. unfold Mpdf.my_scott_fac. simpl.
    apply Rmult_le_compat_r; [lra|].
    apply power_antitone; [apply lt_0_INR; lia|apply le_INR; lia|lra]. }
  split; [exact H1|]. split.
  - split; [|apply Hmono; lia].
    unfold Mpdf.my_scott_fac. apply Rmult_lt_0_compat; [apply power_pos|lra].
  - rewrite <- H1 at 2. apply Hmono. lia.
Qed.

Lemma my_scott_fac_shrinks_witness :
  (1 <= 10 <= 100)%nat /\ 0 < 1 /\
  Mpdf.my_scott_fac (Mpdf.mkKde 100 3) 1
  <= Mpdf.my_scott_fac (Mpdf.mkKde 10 3) 1.
Proof.
  assert (H : (1 <= 10 <= 100)%nat) by lia.
  assert (Hf : 0 < 1) by lra.
  split; [exact H|]. split; [exact Hf|].
  exact (proj2 (proj1 (proj2 (my_scott_fac_shrinks 10 100 3 1 H Hf)))).
Defined.

(** ** The score behind every acceptance test *)

Lemma consumed_0 (w : World) : consumed 0 0 0 w = w.
Proof.
  unfold consumed. rewrite !Nat.add_0_r. destruct w as [[g u gp up] n].
  reflexivity.
Qed.

Lemma consumed_consumed (a b c a' b' c' : nat) (w : World) :
  consumed a b c (consumed a' b' c' w) = consumed (a' + a) (b' + b) (c' + c) w.
Proof. unfold consumed. simpl. f_equal; [f_equal|]; lia. Qed.




(** ** The chains behind the merged arrays *)

Lemma MChain_ok_world floglike flogprior beta N D xlb xub X sigma w r w' :
  MChain floglike flogprior beta N D xlb xub X sigma w = (Ok r, w') ->
  w' = consumed (N * D) N (N + 1) w.
Proof.
  intros H.
  destruct (MChain_ok_inv _ _ _ _ _ _ _ _ _ _ _ _ H) as [[L HL] HN].
  destruct (MChain_runs floglike flogprior beta N D xlb xub X sigma L w HL HN)
    as (r' & E).
  rewrite H in E. now injection E as _ ->.
Qed.

Lemma for_each_ok_world {S : Type} (I : nat -> S -> World -> Prop)
    (body : nat -> S -> Py S) (n a : nat) :
  (forall i s w s' w', (a <= i < a + n)%nat -> I i s w ->
     body i s w = (Ok s', w') -> I (Datatypes.S i) s' w') ->
  forall s w s' w', I a s w ->
    for_each (seq a n) body s w = (Ok s', w') -> I (a + n)%nat s' w'.
Proof.
  revert a; induction n as [|n IH]; intros a Hbody s w s' w' HI; simpl.
  - intros [= <- <-]. now rewrite Nat.add_0_r.
  - intros H. apply bind_ok in H. destruct H as (s1 & w1 & E1 & E2).
    rewrite <- Nat.add_succ_comm.
    apply (IH (Datatypes.S a)) with (s := s1) (w := w1); auto.
    + intros i s0 w0 s0' w0' Hi. apply Hbody. lia.
    + apply (Hbody a s w s1 w1); auto. lia.
Qed.

Lemma map_py_pure_ok {A B : Type} (g : A -> Py B) (l : list A)
    (ys : list B) (w w' : World) :
  (forall a w0 b w1, g a w0 = (Ok b, w1) -> w1 = w0) ->
  map_py g l w = (Ok ys, w') ->
  w' = w /\ Forall2 (fun a b => g a w = (Ok b, w)) l ys.
Proof.
  intros Hpure. revert ys w'; induction l as [|a l IH]; intros ys w'; simpl.
  - intros [= <- <-]. split; [reflexivity|constructor].
  - intros H. apply bind_ok in H. destruct H as (b & w1 & Eb & H).
    apply bind_ok in H. destruct H as (bs & w2 & Ebs & H).
    injection H as <- <-.
    pose proof (Hpure _ _ _ _ Eb) as ->.
    destruct (IH bs w2 Ebs) as [-> HF].
    split; [reflexivity|]. constructor; assumption.
Qed.

(** The tasks of a batch that returns: task [k] ran in the worker [j + k],
    after the scores of the tasks before it. *)
Lemma pool_tasks_ok_pinned {A B : Type} (worker : nat -> RandomState)
    (f : A -> Py B) (c : nat) (xs : list A) :
  Forall (fun x => forall w0 y w1,
            f x w0 = (Ok y, w1) -> nscore w1 = (nscore w0 + c)%nat) xs ->
  forall j ys w w',
    pool_tasks worker f j xs w = (Ok ys, w') ->
    w' = mkWorld (rng w) (nscore w + length xs * c) /\
    forall k y, nth_error ys k = Some y ->
      exists x w1,
        nth_error xs k = Some x /\
        f x (mkWorld (worker (j + k)%nat) (nscore w + k * c)) = (Ok y, w1).
Proof.
  induction 1 as [|x xs Hx Hxs IH]; intros j ys w w'.
  - simpl. intros [= <- <-]. split.
    + rewrite Nat.add_0_r. destruct w; reflexivity.
    + intros [|k] y; discriminate.
  - simpl pool_tasks.
    destruct (f x _) as [[b|e] w1] eqn:Eb.
    2:{ destruct (pool_tasks worker f (S j) xs _) as [rs w2]. discriminate. }
    destruct (pool_tasks worker f (S j) xs _) as [[bs|e] w2] eqn:Ebs;
      [|discriminate].
    intros H. injection H as <- <-.
    pose proof (Hx _ _ _ Eb) as Hn. simpl in Hn.
    destruct (IH (S j) bs _ _ Ebs) as [-> Htasks]. simpl.
    split. { f_equal. lia. }
    intros [|k] y Hy.
    + injection Hy as <-. exists x, w1. split; [reflexivity|].
      rewrite !Nat.add_0_r. exact Eb.
    + destruct (Htasks k y Hy) as (x' & w3 & Ex' & Ef).
      exists x', w3. split; [exact Ex'|]. simpl in Ef.
      replace (j + S k)%nat with (S j + k)%nat by lia.
      replace (nscore w + S k * c)%nat with (nscore w1 + k * c)%nat
        by (rewrite Hn; lia).
      exact Ef.
Qed.

Lemma ParaMC_ok_cost (p : para) (w0 w1 : World) (y : chain_res) :
  ParaMC p w0 = (Ok y, w1) -> nscore w1 = (nscore w0 + (p_N p + 1))%nat.
Proof.
  intros H. apply ParaMC_ok in H. apply MChain_ok_world in H. subst w1.
  reflexivity.
Qed.

Lemma Forall2_length_eq {A B : Type} (R : A -> B -> Prop) (xs : list A)
    (ys : list B) :
  Forall2 R xs ys -> length xs = length ys.
Proof. induction 1; simpl; congruence. Qed.

Lemma Forall2_nth_error_l {A B : Type} (R : A -> B -> Prop) (xs : list A)
    (ys : list B) (i : nat) (x : A) :
  Forall2 R xs ys -> nth_error xs i = Some x ->
  exists y, nth_error ys i = Some y /\ R x y.
Proof.
  intros H; revert i; induction H as [|x0 y0 xs ys HR H IH]; intros [|i];
    simpl; try discriminate.
  - intros [= ->]. eauto.
  - apply IH.
Qed.

Lemma Forall2_Forall_r {A B : Type} (R : A -> B -> Prop) (Q : B -> Prop)
    (xs : list A) (ys : list B) :
  Forall2 R xs ys -> (forall x y, R x y -> Q y) -> Forall Q ys.
Proof. intros H HQ. induction H; constructor; eauto. Qed.

Section MergePinned.

Variable worker : nat -> nat -> RandomState.
Variable floglike : vec -> R.
Variable D : nat.
Variables xlb xub : vec.
Variable flogprior : option (vec -> R).
Variables B N M : nat.
Variable beta : R.
Variables X Sg : mat.
Variable wX : World.

Local Abbreviation run := (fun (parallel : bool) (i : nat) =>
  chain_run floglike flogprior beta B N D xlb xub X Sg i
            (burn_in_world parallel worker B N D i wX)
            (sampling_world parallel worker B N M i wX)).

Lemma sequential_loop_pinned (st0 st : sampler_state) (w' : World) :
  for_range M (sequential_body floglike D xlb xub flogprior B N beta X Sg)
            st0 wX
  = (Ok st, w') ->
  merged_upto (run false) N M 0 st0 -> merged_upto (run false) N M M st.
Proof.
  intros H H0. unfold for_range in H.
  apply (for_each_ok_world
           (fun i s w => merged_upto (run false) N M i s /\
                         w = burn_in_world false worker B N D i wX)
           _ M 0) in H; [tauto| |].
  - intros i s w0 s' w0' Hi [HI ->] Hb. unfold sequential_body in Hb.
    apply bind_ok in Hb. destruct Hb as (x0 & w1 & E0 & Hb).
    apply index_ok_error in E0. destruct E0 as [E0 ->].
    apply bind_ok in Hb. destruct Hb as ([[bC bA] bL] & w2 & Eb & Hb).
    apply bind_ok in Hb. destruct Hb as (xb & w3 & El & Hb).
    apply index_last_ok with (d := []) in El. destruct El as [-> ->].
    apply bind_ok in Hb. destruct Hb as ([[iC iA] iL] & w4 & Ei & Hb).
    injection Hb as <- <-.
    pose proof (MChain_ok_world _ _ _ _ _ _ _ _ _ _ _ _ Eb) as Hw2.
    pose proof (MChain_ok_world _ _ _ _ _ _ _ _ _ _ _ _ Ei) as Hw4.
    destruct (MChain_ok_lengths _ _ _ _ _ _ _ _ _ _ _ _ _ _ Ei) as [HC HL].
    split.
    + apply store_merged_upto; auto; try lia.
      exists x0, bC, bA, bL, w2, w4. auto.
    + rewrite Hw4, Hw2. unfold burn_in_world.
      rewrite !consumed_consumed. f_equal; lia.
  - split; [exact H0|]. unfold burn_in_world. simpl.
    symmetry. apply consumed_0.
Qed.

Lemma parallel_branch_pinned (st0 st : sampler_state) (w' : World) :
  parallel_branch worker floglike D xlb xub flogprior B N M beta X Sg st0 wX
  = (Ok st, w') ->
  merged_upto (run true) N M 0 st0 -> merged_upto (run true) N M M st.
Proof.
  unfold parallel_branch. intros H H0.
  apply bind_ok in H. destruct H as (bpara & w1 & Ebp & H).
  apply map_py_pure_ok in Ebp.
  2:{ intros a w0 b w2 E. apply bind_ok in E.
      destruct E as (x0 & w3 & E & E'). apply index_ok_error in E.
      destruct E as [_ ->]. now injection E' as _ ->. }
  destruct Ebp as [-> Fbp].
  assert (Hlen : length bpara = M).
  { apply Forall2_length_eq in Fbp. rewrite length_seq in Fbp. lia. }
  apply bind_ok in H. destruct H as (bres & w2 & Ebr & H).
  unfold pool_map in Ebr.
  apply (pool_tasks_ok_pinned (worker 0%nat) ParaMC (B + 1) bpara) in Ebr.
  2:{ apply (Forall2_Forall_r _ _ _ _ Fbp). intros i p E w0 y w3 Hp.
      apply bind_ok in E. destruct E as (x0 & w4 & _ & E).
      injection E as <- _. apply ParaMC_ok_cost in Hp. exact Hp. }
  destruct Ebr as [-> Hbr].
  apply bind_ok in H. destruct H as (ipara & w3 & Eip & H).
  apply map_py_pure_ok in Eip.
  2:{ intros a w0 b w4 E. apply bind_ok in E.
      destruct E as (r0 & w5 & E & E'). apply index_ok_error in E.
      destruct E as [_ ->]. apply bind_ok in E'.
      destruct E' as (xb & w6 & E & E').
      apply index_last_ok with (d := []) in E. destruct E as [_ ->].
      now injection E' as _ ->. }
  destruct Eip as [-> Fip].
  apply bind_ok in H. destruct H as (ires & w4 & Eir & H).
  unfold pool_map in Eir.
  apply (pool_tasks_ok_pinned (worker 1%nat) ParaMC (N + 1) ipara) in Eir.
  2:{ apply (Forall2_Forall_r _ _ _ _ Fip). intros i p E w0 y w5 Hp.
      apply bind_ok in E. destruct E as (r0 & w6 & _ & E).
      apply bind_ok in E. destruct E as (xb & w7 & _ & E).
      injection E as <- _. apply ParaMC_ok_cost in Hp. exact Hp. }
  destruct Eir as [-> Hir].
  unfold for_range in H.
  apply (@for_each_ok _ (merged_upto (run true) N M) _ M 0) in H; auto.
  intros i s u s' u' Hi HI Hb.
  apply bind_ok in Hb. destruct Hb as (r & u1 & Er & Hb).
  injection Hb as <- _.
  apply index_ok_error in Er. destruct Er as [Er _].
  (* the sampling task of chain [i] *)
  destruct (Hir i r Er) as (p & wi' & Ep & Erun).
  apply ParaMC_ok in Erun.
  destruct (Forall2_nth_error _ _ _ _ _ Fip Ep) as (i' & Ei' & Emk).
  apply nth_error_seq in Ei'. destruct Ei' as [-> _]. simpl in Emk.
  apply bind_ok in Emk. destruct Emk as (r0 & wc1 & Er0 & Emk).
  apply bind_ok in Emk. destruct Emk as (xb & wc2 & Exb & Emk).
  injection Emk as <- _. simpl in Erun.
  apply index_ok_error in Er0. destruct Er0 as [Er0 _].
  apply index_last_ok with (d := []) in Exb. destruct Exb as [-> _].
  (* the burn-in task of chain [i] *)
  destruct (Hbr i r0 Er0) as (pb & wb' & Epb & Eburn).
  apply ParaMC_ok in Eburn.
  destruct (Forall2_nth_error _ _ _ _ _ Fbp Epb) as (i' & Ei' & Emk).
  apply nth_error_seq in Ei'. destruct Ei' as [-> _]. simpl in Emk.
  apply bind_ok in Emk. destruct Emk as (x0 & wg1 & Ex0 & Emk).
  injection Emk as <- _. simpl in Eburn.
  apply index_ok_error in Ex0. destruct Ex0 as [Ex0 _].
  destruct (MChain_ok_lengths _ _ _ _ _ _ _ _ _ _ _ _ _ _ Erun) as [HC HL].
  apply store_merged_upto; auto; try lia.
  exists x0, (r_Chain r0), (r_Accept r0), (r_LogPost r0), wb', wi'.
  split; [exact Ex0|]. split; [exact Eburn|].
  unfold sampling_world. rewrite <- Hlen. exact Erun.
Qed.

End MergePinned.

Lemma default_sigma_pure (D : nat) (xlb xub : vec) (Sg : mat) (w w' : World) :
  default_sigma D xlb xub w = (Ok Sg, w') -> w' = w.
Proof.
  unfold default_sigma, for_range. intros H.
  apply (for_each_ok_world (fun _ _ w0 => w0 = w) _ D 0) in H; auto.
  intros i s w0 s' w0' _ -> Hb.
  apply bind_ok in Hb. destruct Hb as (ub & w1 & E & Hb).
  apply index_ok_error in E. destruct E as [_ ->].
  apply bind_ok in Hb. destruct Hb as (lb & w2 & E & Hb).
  apply index_ok_error in E. destruct E as [_ ->].
  now injection Hb as _ ->.
Qed.

(** C7.  When the sampler returns, the merged samples and the merged
    scores have [M*N] entries and the acceptance rates [M]; for every chain
    [i] below [M], rows [i*N, (i+1)*N) of the merged samples, the same
    block of the merged scores and entry [i] of the rates are what chain [i]
    returned: the result of the run of [N] steps that starts at the last
    state of the burn-in of [B] steps from initial point [i], each run in
    the world in which the sampler made it; and the diagnostic was computed
    from these blocks, in the order of the chains. *)
Theorem sampler_merges_chains_in_order inv eig worker floglike D xlb xub
    Xinit flogprior T B N M sigma parallel (w w' : World)
    ChainMerged LogPostMerged ACC GRB :
  sampler inv eig worker floglike D xlb xub Xinit flogprior T B N M sigma
          parallel w
  = (Ok (ChainMerged, LogPostMerged, ACC, GRB), w') ->
  length ChainMerged = (M * N)%nat /\
  length LogPostMerged = (M * N)%nat /\
  length ACC = M /\
  exists (X Sg : mat) (wX : World),
    match sigma with
    | None => default_sigma D xlb xub
    | Some s => ret s
    end w = (Ok Sg, w) /\
    match Xinit with
    | None => default_X D xlb xub M
    | Some X0 => ret X0
    end w = (Ok X, wX) /\
    GRBfactor inv eig
      (mkArr3 (M, N, D) (map (fun i => block N i ChainMerged) (seq 0 M)))
    = Ok GRB /\
    forall i, (i < M)%nat ->
      chain_run floglike flogprior (1 / T) B N D xlb xub X Sg i
                (burn_in_world parallel worker B N D i wX)
                (sampling_world parallel worker B N M i wX)
                (block N i ChainMerged) (nth i ACC 0)
                (block N i LogPostMerged).
Proof.
  unfold sampler. intros H.
  apply bind_ok in H. destruct H as (st & w1 & Est & H).
  apply bind_ok in H. destruct H as (g & w2 & Eg & H).
  injection H as <- <- <- <- _.
  unfold lift in Eg. injection Eg as Eg _.
  unfold sampler_chains in Est.
  apply bind_ok in Est. destruct Est as (beta & w3 & Ebeta & Est).
  destruct (Req_dec_T T 0) as [_|_]; [discriminate|].
  injection Ebeta as <- <-.
  apply bind_ok in Est. destruct Est as (Sg & w4 & ESg & Est).
  assert (Hw4 : w4 = w).
  { destruct sigma as [s|].
    - now injection ESg as _ <-.
    - now apply default_sigma_pure in ESg. }
  subst w4.
  apply bind_ok in Est. destruct Est as (X & wX & EX & Est).
  assert (Hm : merged_upto
                 (fun i => chain_run floglike flogprior (1 / T) B N D xlb xub
                             X Sg i (burn_in_world parallel worker B N D i wX)
                             (sampling_world parallel worker B N M i wX))
                 N M M st).
  { destruct parallel.
    - eapply parallel_branch_pinned; [exact Est|apply merged_upto_initial].
    - eapply sequential_loop_pinned; [exact Est|apply merged_upto_initial]. }
  destruct Hm as (HC & HL & HCM & HLM & HA & Hblocks).
  repeat (split; [assumption|]).
  exists X, Sg, wX. split; [exact ESg|]. split; [exact EX|].
  assert (Hdata : map (fun i => block N i (s_ChainMerged st)) (seq 0 M)
                  = s_Chain st).
  { apply list_eq_nth with (d := []).
    - now rewrite length_map, length_seq.
    - intros i Hi. rewrite length_map, length_seq in Hi.
      rewrite map_nth_inside with (d' := 0%nat)
        by (rewrite length_seq; exact Hi).
      rewrite seq_nth by exact Hi. simpl.
      now destruct (Hblocks i Hi) as (_ & -> & _). }
  rewrite Hdata. split; [exact Eg|].
  intros i Hi. destruct (Hblocks i Hi) as (Hrun & -> & ->). exact Hrun.
Qed.

(** ** A complete run of the sampler on a pool *)

Lemma ParaMC_walk floglike flogprior beta N D xlb xub X sigma L z g u n0 :
  cholesky sigma = Ok L -> (1 <= N)%nat ->
  let f := drift D xlb xub L z in
  let score := flogpost floglike flogprior beta xlb xub in
  ParaMC (mkPara floglike flogprior beta N D xlb xub X sigma) (steady z g u n0)
  = (Ok (mkRes (walk f N X) (INR N / INR N) (map score (walk f N X))),
     steady z (g + N * D) (u + N) (S n0 + N)).
Proof.
  intros HL HN f score. unfold ParaMC. simpl.
  erewrite bind_eval_ok by (apply MChain_walk with (L := L); assumption).
  reflexivity.
Qed.

Lemma example_diagnostic :
  exists G,
    GRBfactor inv_1x1 eig_1x1
      (mkArr3 (2%nat, 2%nat, 1%nat)
         [[[0 + 1 + 1]; [0 + 1 + 1 + 1]]; [[5 + 1 + 1]; [5 + 1 + 1 + 1]]])
    = Ok G.
Proof.
  set (data := [[[0 + 1 + 1]; [0 + 1 + 1 + 1]];
                [[5 + 1 + 1]; [5 + 1 + 1 + 1]]]).
  change (mkArr3 (2%nat, 2%nat, 1%nat) data)
    with (mkArr3 (length data, 2%nat, 1%nat) data).
  rewrite GRBfactor_eval. simpl orb.
  assert (HW : spec_W 1 data = [[entry (spec_W 1 data) 0 0]] /\
               entry (spec_W 1 data) 0 0 <> 0).
  { unfold entry, spec_W, data. np_unfold. simpl INR.
    split; [reflexivity|lra]. }
  destruct HW as [HW Hw].
  destruct (inverse_1x1 _ Hw) as (Hinv & _). rewrite <- HW in Hinv.
  rewrite Hinv.
  assert (HB : spec_B 1 data = [[entry (spec_B 1 data) 0 0]]).
  { unfold entry, spec_B, data. np_unfold. reflexivity. }
  rewrite HB. eexists. reflexivity.
Qed.

Lemma parallel_example_run :
  exists out w',
    sampler inv_1x1 eig_1x1 (fun _ _ => constant_tape 1 0) (fun _ => 0) 1
            [-10] [10] (Some [[0]; [5]]) None 1 1 2 2 (Some [[1]]) true
            (fresh 0 0)
    = (Ok out, w').
Proof.
  unfold sampler.
  assert (E : exists st w1,
            sampler_chains (fun _ _ => constant_tape 1 0) (fun _ => 0) 1
              [-10] [10] (Some [[0]; [5]]) None 1 1 2 2 (Some [[1]]) true
              (fresh 0 0) = (Ok st, w1) /\
            s_Chain st = [[[0 + 1 + 1]; [0 + 1 + 1 + 1]];
                          [[5 + 1 + 1]; [5 + 1 + 1 + 1]]]).
  { rewrite sampler_chains_beta by lra.
    unfold bind at 1, ret at 1. unfold bind at 1, ret at 1.
    unfold parallel_branch.
    erewrite bind_eval_ok by reflexivity.
    unfold pool_map.
    erewrite bind_eval_ok.
    2:{ erewrite pool_tasks_cons_ok
          by (apply (ParaMC_walk (fun _ => 0) None (1 / 1) 1 1 [-10] [10]
                       [0] [[1]] [[1]] 1 0 0 0 cholesky_1x1_unit (le_n 1))).
        erewrite bind_eval_ok.
        2:{ erewrite pool_tasks_cons_ok
              by (apply (ParaMC_walk (fun _ => 0) None (1 / 1) 1 1 [-10] [10]
                           [5] [[1]] [[1]] 1 0 0 _ cholesky_1x1_unit
                           (le_n 1))).
            reflexivity. }
        reflexivity. }
    cbn [walk]. rewrite !drift_unit_step by lra.
    erewrite bind_eval_ok by reflexivity.
    erewrite bind_eval_ok.
    2:{ erewrite pool_tasks_cons_ok
          by (apply (ParaMC_walk (fun _ => 0) None (1 / 1) 2 1 [-10] [10]
                       [0 + 1] [[1]] [[1]] 1 0 0 _ cholesky_1x1_unit
                       (le_S _ _ (le_n 1)))).
        erewrite bind_eval_ok.
        2:{ erewrite pool_tasks_cons_ok
              by (apply (ParaMC_walk (fun _ => 0) None (1 / 1) 2 1 [-10] [10]
                           [5 + 1] [[1]] [[1]] 1 0 0 _ cholesky_1x1_unit
                           (le_S _ _ (le_n 1)))).
            reflexivity. }
        reflexivity. }
    cbn [walk]. rewrite !drift_unit_step by lra.
    eexists _, _. split; [reflexivity|]. reflexivity. }
  destruct E as (st & w1 & E & HC).
  rewrite (bind_eval_ok _ _ _ _ _ E). rewrite HC.
  destruct example_diagnostic as (G & HG).
  eexists _, _. unfold bind, lift. rewrite HG. reflexivity.
Qed.

Lemma sampler_merges_chains_in_order_witness :
  exists ChainMerged LogPostMerged ACC GRB w',
    sampler inv_1x1 eig_1x1 (fun _ _ => constant_tape 1 0) (fun _ => 0) 1
            [-10] [10] (Some [[0]; [5]]) None 1 1 2 2 (Some [[1]]) true
            (fresh 0 0)
    = (Ok (ChainMerged, LogPostMerged, ACC, GRB), w') /\
    length ChainMerged = (2 * 2)%nat /\
    length LogPostMerged = (2 * 2)%nat /\
    length ACC = 2%nat /\
    exists (X Sg : mat) (wX : World),
      match Some [[1]] with
      | None => default_sigma 1 [-10] [10]
      | Some s => ret s
      end (fresh 0 0) = (Ok Sg, fresh 0 0) /\
      match Some [[0]; [5]] with
      | None => default_X 1 [-10] [10] 2
      | Some X0 => ret X0
      end (fresh 0 0) = (Ok X, wX) /\
      GRBfactor inv_1x1 eig_1x1
        (mkArr3 (2%nat, 2%nat, 1%nat)
           (map (fun i => block 2 i ChainMerged) (seq 0 2)))
      = Ok GRB /\
      forall i, (i < 2)%nat ->
        chain_run (fun _ => 0) None (1 / 1) 1 2 1 [-10] [10] X Sg i
                  (burn_in_world true (fun _ _ => constant_tape 1 0) 1 2 1 i
                     wX)
                  (sampling_world true (fun _ _ => constant_tape 1 0) 1 2 2 i
                     wX)
                  (block 2 i ChainMerged) (nth i ACC 0)
                  (block 2 i LogPostMerged).
Proof.
  destruct parallel_example_run as ([[[CM LPM] ACC] GRB] & w' & E).
  exists CM, LPM, ACC, GRB, w'. split; [exact E|].
  exact (sampler_merges_chains_in_order inv_1x1 eig_1x1
           (fun _ _ => constant_tape 1 0) (fun _ => 0) 1 [-10] [10]
           (Some [[0]; [5]]) None 1 1 2 2 (Some [[1]]) true
           (fresh 0 0) w' CM LPM ACC GRB E).
Defined.
